(** * Feature construction for Dota 2 match prediction: [data_cleaning.py]

    A shallow embedding of the table transformations of
    [src/data_cleaning.py] and the properties of the specification that
    concern them.

    Tables.  A pandas DataFrame is a list of rows, in row order.  Where the
    row labels matter the row carries its label ([Z * row]); a table read
    with the default [RangeIndex] is a plain list, its labels being the
    positions.  Integer columns are [Z]; a cell that can be NaN is an
    [option]; an operation that raises ([IndexError], [KeyError],
    [ValueError]) returns [None]. *)

From stdpp Require Import base list numbers sorting strings.
From Stdlib Require Import QArith.

Open Scope Z_scope.

(** ** pandas and NumPy primitives used by the module *)

Module Pandas.

(** The keys of [groupby]: the distinct values, in ascending order
    ([sort=True] is the default). *)
Definition sorted_keys (ks : list Z) : list Z :=
  merge_sort Z.le (remove_dups ks).

(** [df.groupby(key)]: one group per distinct key, ascending in the key;
    the rows of a group keep their order in [df]. *)
Definition groupby {A} (key : A → Z) (df : list A) : list (Z * list A) :=
  (λ k, (k, filter (λ r, key r = k) df)) <$> sorted_keys (key <$> df).

(** A positional index into an axis of length [n]: [0 .. n-1] as they are,
    [-n .. -1] from the end, anything else is an [IndexError]. *)
Definition norm_index (n : nat) (i : Z) : option nat :=
  if decide (0 ≤ i < Z.of_nat n) then Some (Z.to_nat i)
  else if decide (- Z.of_nat n ≤ i < 0) then Some (Z.to_nat (i + Z.of_nat n))
  else None.

(** [s.iloc[i]] for one integer. *)
Definition iloc {A} (l : list A) (i : Z) : option A :=
  n ← norm_index (length l) i; l !! n.

(** [df.iloc[ids]] for a list of integers: the rows at these positions, in
    the order of [ids], repetitions included. *)
Definition iloc_list {A} (l : list A) (ids : list Z) : option (list A) :=
  mapM (iloc l) ids.

(** [df.iloc[:stop]]: a slice never raises; a negative [stop] counts from
    the end. *)
Definition iloc_to {A} (l : list A) (stop : Z) : list A :=
  if decide (0 ≤ stop) then take (Z.to_nat stop) l
  else take (Z.to_nat (Z.of_nat (length l) + stop)) l.

(** The value at label [k] of a table with unique labels. *)
Fixpoint at_label {A} (t : list (Z * A)) (k : Z) : option A :=
  match t with
  | [] => None
  | (k', v) :: t' => if decide (k' = k) then Some v else at_label t' k
  end.

(** [s.reindex(index=idx, fill_value=d)], and the left join of an empty
    frame on [idx] followed by [fillna(d)]. *)
Definition reindex {A} (idx : list Z) (d : A) (t : list (Z * A))
  : list (Z * A) :=
  (λ k, (k, default d (at_label t k))) <$> idx.

(** [range(50000)]: the match identifiers of the data set. *)
Definition num_matches : Z := 50000.
Definition match_range : list Z := seqZ 0 num_matches.
Global Arguments num_matches : simpl never.
Global Arguments match_range : simpl never.

Definition Zsum (l : list Z) : Z := foldr Z.add 0 l.

(** NumPy's [row[ids] = v] for an integer array [ids]: every index is
    checked against the length before anything is written. *)
Definition put {A} (row : list A) (ids : list Z) (v : A) : option (list A) :=
  ns ← mapM (norm_index (length row)) ids;
  Some (foldl (λ r n, <[n:=v]> r) row ns).

(** A DataFrame with named columns: the labels of the columns and the
    labelled rows. *)
Record frame (L : Type) := Frame {
  columns : list L;
  rows : list (Z * list Z)
}.
Global Arguments Frame {L} _ _.
Global Arguments columns {L} _.
Global Arguments rows {L} _.

(** [pd.DataFrame(data=values, index=range(50000), columns=cols)]: the
    constructor raises when the number of rows of [values] is not the
    length of the index. *)
Definition frame_on_match_range {L} (cols : list L) (values : list (list Z))
  : option (frame L) :=
  if decide (length values = length match_range)
  then Some (Frame cols (zip match_range values))
  else None.

(** [df.sum()] of a frame with [ncols] columns: the sum of each column (a
    row of zeros for a frame without rows). *)
Definition col_sums (ncols : nat) (values : list (list Z)) : list Z :=
  (λ j, Zsum (omap (λ r : list Z, r !! j) values)) <$> seq 0 ncols.

(** [df.max()] over the rows of a group, column by column. *)
Definition col_max (values : list (list Z)) : list Z :=
  match values with
  | [] => []
  | r :: rs => foldl (zip_with Z.max) r rs
  end.

End Pandas.
Import Pandas.

(** ** Team fights *)

Module TeamFights.

(** A row of [teamfights.csv]. *)
Record team_fight := TeamFight {
  tf_match_id : Z;
  tf_start : Z;
  tf_end : Z
}.

(** A row of [teamfights_players.csv]. *)
Record teamfight_player := TeamfightPlayer {
  tp_match_id : Z;
  tp_player_slot : Z;
  tp_deaths : Z
}.

(** [construct_num_team_fights]: per match the number of fights with
    [end < threshold] (the count of the non-missing [start] cells of the
    group; [start] is an integer column), joined on [range(50000)] with 0
    for the matches without such a fight.  The result has the single
    column [count]. *)
Definition construct_num_team_fights (team_fights_df : list team_fight)
    (threshold : Z) : list (Z * Z) :=
  let early := filter (λ f, tf_end f < threshold) team_fights_df in
  let counts :=
    (λ kg : Z * list team_fight, (kg.1, Z.of_nat (length kg.2)))
      <$> groupby tf_match_id early in
  reindex match_range 0 counts.

(** [int(single_game_teamfight_info['match_id'].mean())]: the mean of an
    empty column is NaN, whose conversion raises; [int] truncates towards
    zero. *)
Definition mean_match_id (g : list teamfight_player) : option Z :=
  match g with
  | [] => None
  | _ => Some (Z.quot (Zsum (tp_match_id <$> g)) (Z.of_nat (length g)))
  end.

(** [get_net_death_count]: the result is the two-element list
    [[radiant, dire]]. *)
Definition get_net_death_count (single_game_teamfight_info : list teamfight_player)
    (num_team_fights_df : list (Z * Z)) : option (list Z) :=
  match_id ← mean_match_id single_game_teamfight_info;
  num_teamfights ← snd <$> iloc num_team_fights_df match_id;
  let teamfights_before_ten_min :=
    iloc_to single_game_teamfight_info (num_teamfights * 10 - 1) in
  if decide (length teamfights_before_ten_min = 0%nat) then Some [0; 0]
  else
    let radiant_net_death_count :=
      Zsum (tp_deaths <$>
            filter (λ r, tp_player_slot r < 50) teamfights_before_ten_min) in
    let dire_net_death_count :=
      Zsum (tp_deaths <$>
            filter (λ r, tp_player_slot r > 50) teamfights_before_ten_min) in
    Some [radiant_net_death_count; dire_net_death_count].

(** [construct_net_death_count_from_teamfights]: the per-match results,
    reindexed on [range(50000)] with [[0, 0]] for the matches that have no
    row in [teamfight_players_df]; the columns are
    [radiant_net_death_count] and [dire_net_death_count].  On a table
    without rows [groupby.apply] gives an empty frame instead of a series
    of lists, and the construction of the frame of two columns on
    [range(50000)] raises. *)
Definition construct_net_death_count_from_teamfights
    (teamfight_players_df : list teamfight_player)
    (num_team_fights_df : list (Z * Z)) : option (list (Z * list Z)) :=
  if decide (length teamfight_players_df = 0%nat) then None
  else
    team_fights_before_ten_min_raw ←
      mapM (λ kg : Z * list teamfight_player,
              pair kg.1 <$> get_net_death_count kg.2 num_team_fights_df)
           (groupby tp_match_id teamfight_players_df);
    Some (reindex match_range [0; 0] team_fights_before_ten_min_raw).

End TeamFights.

(** ** Players, hero selection and hero roles *)

Module Heroes.

(** A row of [players.csv], as far as the module reads it. *)
Record raw_player := RawPlayer {
  rp_match_id : Z;
  rp_hero_id : Z;
  rp_player_slot : Z
}.

(** A player row after [assign_player_team]. *)
Record player := Player {
  pl_match_id : Z;
  pl_hero_id : Z;
  pl_player_slot : Z;
  pl_radiant_player : bool
}.

Definition assign_player_team (players_df : list raw_player) : list player :=
  (λ p, Player (rp_match_id p) (rp_hero_id p) (rp_player_slot p)
               (bool_decide (rp_player_slot p < 50))) <$> players_df.

(** [get_hero_selection]: a row of [2 * num_heros] zeros with ones at
    [hero_id - 1] for the Radiant players and at [hero_id + num_heros - 1]
    for the Dire players. *)
Definition get_hero_selection (single_game_player_info : list player)
    (num_heros : nat) : option (list Z) :=
  let hero_selection_row := replicate (2 * num_heros) 0 in
  let radiant_heros :=
    (λ p, pl_hero_id p - 1)
      <$> filter (λ p, pl_radiant_player p = true) single_game_player_info in
  let dire_heros :=
    (λ p, pl_hero_id p + Z.of_nat num_heros - 1)
      <$> filter (λ p, pl_radiant_player p = false) single_game_player_info in
  let hero_selections := radiant_heros ++ dire_heros in
  put hero_selection_row hero_selections 1.

(** ['_'.join(x.split())] *)
Definition snake (x : string) : string := String.concat "_" (String.words x).

(** [construct_hero_selection_df]; [heros_chart] is its [localized_name]
    column. *)
Definition construct_hero_selection_df (players_df : list player)
    (heros_chart : list string) : option (frame string) :=
  let hero_names := snake <$> heros_chart in
  let num_heros := length hero_names in
  let radiant_heros := (λ x, x +:+ "_radiant") <$> hero_names in
  let dire_heros := (λ x, x +:+ "_dire") <$> hero_names in
  let hero_two_teams := radiant_heros ++ dire_heros in
  hero_selection_raw ←
    mapM (λ kg : Z * list player, get_hero_selection kg.2 num_heros)
         (groupby pl_match_id players_df);
  frame_on_match_range hero_two_teams hero_selection_raw.

(** The hero attribute table: one column per role, one row of 0/1
    indicators per hero, the rows labelled [0 .. num_heros - 1]
    ([construct_hero_attribute_df] fills row [hero_index] from
    [hero_roles[hero_index]]). *)
Record attribute_table := AttributeTable {
  at_roles : list string;
  at_rows : list (list Z)
}.

(** [get_game_hero_composition] *)
Definition get_game_hero_composition (single_game_player_info : list player)
    (hero_attribute_df : attribute_table) : option (list Z) :=
  let radiant_heros :=
    pl_hero_id <$> filter (λ p, pl_radiant_player p = true) single_game_player_info in
  let dire_heros :=
    pl_hero_id <$> filter (λ p, pl_radiant_player p = false) single_game_player_info in
  let ncols := length (at_roles hero_attribute_df) in
  radiant_rows ← iloc_list (at_rows hero_attribute_df) radiant_heros;
  dire_rows ← iloc_list (at_rows hero_attribute_df) dire_heros;
  Some (col_sums ncols radiant_rows ++ col_sums ncols dire_rows).

(** [construct_hero_composition_df] *)
Definition construct_hero_composition_df (players_df : list player)
    (hero_attribute_df : attribute_table) : option (frame string) :=
  let total_roles := at_roles hero_attribute_df in
  let roles_both_teams :=
    ((λ role, role +:+ "_radiant") <$> total_roles)
      ++ ((λ role, role +:+ "_dire") <$> total_roles) in
  hero_compositions ←
    mapM (λ kg : Z * list player,
            get_game_hero_composition kg.2 hero_attribute_df)
         (groupby pl_match_id players_df);
  frame_on_match_range roles_both_teams hero_compositions.

(** [np.argmax]: the position of the first maximum; an empty row raises. *)
Fixpoint argmax_from (best_i : nat) (best : Z) (i : nat) (l : list Z) : nat :=
  match l with
  | [] => best_i
  | x :: l' =>
      if decide (best < x) then argmax_from i x (S i) l'
      else argmax_from best_i best (S i) l'
  end.

Definition argmax (l : list Z) : option nat :=
  match l with
  | [] => None
  | x :: l' => Some (argmax_from 0 x 1 l')
  end.

(** The major role of an attribute row: [np.argmax] applied to a row of the
    frame gives the label of the column of the first maximum. *)
Definition major_role (roles : list string) (row : list Z) : option string :=
  i ← argmax row; roles !! i.

(** A row of the table of [get_game_hero_info]. *)
Record hero_info := HeroInfo {
  hi_match_id : Z;
  hi_hero_id : Z;
  hi_player_slot : Z;
  hi_radiant_player : bool;
  hi_role : string
}.

(** [get_game_hero_info]; [players_df] has the default index, so the
    assignment of the re-indexed role column is by position. *)
Definition get_game_hero_info (players_df : list player)
    (hero_attribute_df : attribute_table) : option (list hero_info) :=
  major_roles ←
    mapM (major_role (at_roles hero_attribute_df)) (at_rows hero_attribute_df);
  mapM (λ p,
          role ← iloc major_roles (pl_hero_id p);
          Some (HeroInfo (pl_match_id p) (pl_hero_id p) (pl_player_slot p)
                         (pl_radiant_player p) role))
       players_df.

End Heroes.

(** ** Wealth of the players over time *)

Module Wealth.

(** A row of [player_time.csv]: [match_id], [times], then for every player
    slot the three columns [gold_t_k], [lh_t_k], [xp_t_k]. *)
Record wealth_row := WealthRow {
  w_match_id : Z;
  w_times : Z;
  w_stats : list Z
}.

(** [construct_x_seconds_df]: per match the samples with
    [times <= threshold], and the index reset.  When some group loses a
    row, [groupby.apply] concatenates the results in the order of the
    keys; when none does, every result is indexed like its group and the
    rows come back in the order of the input (pandas before 2.0). *)
Definition construct_x_seconds_df (players_time_df : list wealth_row)
    (threshold : Z) : list wealth_row :=
  let x_seconds_groups :=
    (λ kg : Z * list wealth_row, filter (λ r, w_times r ≤ threshold) kg.2)
      <$> groupby w_match_id players_time_df in
  if decide (Forall (λ r, w_times r ≤ threshold) players_time_df)
  then players_time_df
  else mjoin x_seconds_groups.

(** [construct_x_seconds_max_wealth]: the column maxima of every group,
    without the first column ([times]); the result is labelled by the
    group keys. *)
Definition construct_x_seconds_max_wealth (x_seconds_df : list wealth_row)
  : list (Z * list Z) :=
  (λ kg : Z * list wealth_row,
     (kg.1, drop 1 (col_max ((λ r, w_times r :: w_stats r) <$> kg.2))))
  <$> groupby w_match_id x_seconds_df.

(** [x_seconds_df.iloc[:, 2::3]]: of the columns after [match_id] and
    [times], every third one from the first: the gold columns. *)
Fixpoint every_third (l : list Z) : list Z :=
  match l with
  | x :: _ :: _ :: l' => x :: every_third l'
  | x :: _ => [x]
  | [] => []
  end.

Definition gold_columns (r : wealth_row) : list Z := every_third (w_stats r).

(** [df.diff()]: every row minus the row before it in the table; the first
    row is NaN. *)
Definition diff (values : list (list Z)) : list (list (option Z)) :=
  match values with
  | [] => []
  | r :: rs =>
      ((λ _, None) <$> r)
        :: zip_with (zip_with (λ p c, Some (c - p))) values rs
  end.

(** A row of [gold_growth_df]: the gold differences and the joined
    [match_id] column, which is the last one. *)
Abbreviation growth_row := (list (option Z) * Z)%type.

(** [gold_growth_df.iloc[:, 0] >= 0]; a comparison with NaN is false. *)
Definition first_column_nonneg (r : growth_row) : bool :=
  match hd (Some r.2) r.1 with
  | Some v => bool_decide (0 ≤ v)
  | None => false
  end.

(** The table handed to the two [groupby] of
    [construct_x_seconds_gold_growth_benchmark]: lines 72 to 75. *)
Definition gold_growth_df (x_seconds_df : list wealth_row) : list growth_row :=
  let joined :=
    zip (diff (gold_columns <$> x_seconds_df)) (w_match_id <$> x_seconds_df) in
  let shifted :=
    (λ r : growth_row, (fmap (M:=option) (λ v, v - 100) <$> r.1, r.2 - 100))
      <$> filter (λ r, first_column_nonneg r = true) joined in
  (λ r : growth_row, (r.1, r.2 + 100)) <$> shifted.

(** The non-missing values of column [j] of a group. *)
Definition column_values (j : nat) (g : list growth_row) : list Z :=
  omap (λ r : growth_row, mjoin (r.1 !! j)) g.

Definition num_gold_columns (x_seconds_df : list wealth_row) : nat :=
  from_option (λ r, length (gold_columns r)) 0%nat (head x_seconds_df).

Section Benchmark.
(** pandas' [mean] and [std] of a column of a group, over its non-missing
    values; their results are floating-point numbers, of a type [F]. *)
Context {F : Type} (mean std : list Z → F).

(** [construct_x_seconds_gold_growth_benchmark]: per match the means of
    the gold columns followed by their standard deviations. *)
Definition construct_x_seconds_gold_growth_benchmark
    (x_seconds_df : list wealth_row) : list (Z * list F) :=
  let n := num_gold_columns x_seconds_df in
  (λ kg : Z * list growth_row,
     (kg.1, ((λ j, mean (column_values j kg.2)) <$> seq 0 n)
              ++ ((λ j, std (column_values j kg.2)) <$> seq 0 n)))
  <$> groupby snd (gold_growth_df x_seconds_df).
End Benchmark.

(** The exact mean of a non-empty column. *)
Definition exact_mean (l : list Z) : option Q :=
  match l with
  | [] => None
  | _ => Some (Qred (Qmake (Zsum l) 1 / Qmake (Z.of_nat (length l)) 1))
  end.

End Wealth.

(** ** Objectives *)

Module Objectives.

(** A row of [objectives.csv]; the columns [player1], [player2], [team]
    and [value] are only dropped. *)
Record objective := Objective {
  ob_match_id : Z;
  ob_slot : Z;
  ob_subtype : string;
  ob_time : Z
}.

(** [construct_ten_min_firstblood_df]: the first-blood events up to 600
    seconds, under the row labels they have in [objectives_df], with the
    columns [match_id] and [radiant_firstblood]. *)
Definition construct_ten_min_firstblood_df (objectives_df : list objective)
  : list (Z * (Z * Z)) :=
  let ten_min_firstblood :=
    filter (λ ir : Z * objective,
              ob_time ir.2 ≤ 600 ∧ ob_subtype ir.2 = "CHAT_MESSAGE_FIRSTBLOOD")
           (imap (λ i r, (Z.of_nat i, r)) objectives_df) in
  (λ ir : Z * objective,
     (ir.1, (ob_match_id ir.2, if decide (ob_slot ir.2 < 5) then 1 else 0)))
  <$> ten_min_firstblood.

End Objectives.

(** ** Comparison of the carries *)

Module Carry.

(** A row of [role_gold_interaction_df]. *)
Record role_gold := RoleGold {
  rg_match_id : Z;
  rg_hero_id : Z;
  rg_player_slot : Z;
  rg_radiant_player : bool;
  rg_role : string;
  rg_max_gold : Z;
  rg_max_gold_diff_from_match_mean : Q
}.

(** [s.max()]: NaN for an empty column. *)
Definition Qmax_list (l : list Q) : option Q :=
  match l with
  | [] => None
  | x :: l' => Some (foldl (λ a b, if Qle_bool b a then a else b) x l')
  end.

(** [a > b] on floats: false when either side is NaN. *)
Definition gt (a b : option Q) : bool :=
  match a, b with
  | Some x, Some y => negb (Qle_bool x y)
  | _, _ => false
  end.

(** [get_carry_comparison] *)
Definition get_carry_comparison (single_game_role_status : list role_gold) : Z :=
  let carries_of_the_match :=
    filter (λ r, rg_role r = "Carry") single_game_role_status in
  if decide (length (remove_dups (rg_radiant_player <$> carries_of_the_match)) < 2)%nat
  then -1
  else
    let radiant_carries :=
      filter (λ r, rg_radiant_player r = true) carries_of_the_match in
    let dire_carries :=
      filter (λ r, rg_radiant_player r = false) carries_of_the_match in
    if gt (Qmax_list (rg_max_gold_diff_from_match_mean <$> radiant_carries))
          (Qmax_list (rg_max_gold_diff_from_match_mean <$> dire_carries))
    then 1
    else 0.

(** A column label: an integer or a string. *)
Inductive label := LInt (z : Z) | LStr (s : string).

Global Instance label_eq_dec : EqDecision label.
Proof. solve_decision. Defined.

(** [pd.get_dummies(s)]: one indicator column per distinct value of [s],
    ascending. *)
Definition get_dummies (s : list (Z * Z)) : frame Z :=
  let cols := sorted_keys (snd <$> s) in
  Frame cols
    ((λ kv : Z * Z, (kv.1, (λ c, if decide (kv.2 = c) then 1 else 0) <$> cols))
     <$> s).

(** [df.rename(columns=mapping)]: labels outside the mapping stay. *)
Definition rename (mapping : list (Z * string)) (fr : frame Z) : frame label :=
  Frame ((λ c, from_option LStr (LInt c) (at_label mapping c)) <$> columns fr)
        (rows fr).

(** [df[wanted]] for a list of labels: [KeyError] when one of them is not
    a column. *)
Definition select_columns (fr : frame label) (wanted : list label)
  : option (frame label) :=
  positions ← mapM (λ c, fst <$> list_find (λ c', c' = c) (columns fr)) wanted;
  Some (Frame wanted
          ((λ r : Z * list Z, (r.1, (λ i, default 0 (r.2 !! i)) <$> positions))
           <$> rows fr)).

(** The per-match outcomes: [groupby('match_id').apply(get_carry_comparison)]. *)
Definition carry_status_comparison (role_gold_interaction_df : list role_gold)
  : list (Z * Z) :=
  (λ kg : Z * list role_gold, (kg.1, get_carry_comparison kg.2))
  <$> groupby rg_match_id role_gold_interaction_df.

(** [construct_carry_comparison_df] *)
Definition construct_carry_comparison_df
    (role_gold_interaction_df : list role_gold) : option (frame label) :=
  let dummies :=
    rename [(-1, "Unknown"); (0, "Dire_lead"); (1, "Radiant_lead")]
           (get_dummies (carry_status_comparison role_gold_interaction_df)) in
  select_columns dummies [LStr "Radiant_lead"; LStr "Dire_lead"].

End Carry.

(** ** Hero metadata: the index of the heroes and the attribute table *)

From stdpp Require Import gmap.
From Stdlib Require Import Ascii Qround.

Open Scope Z_scope.

Module HeroRoles.
Import Heroes.

(** [name.replace("'", "")] *)
Fixpoint remove_quotes (s : string) : string :=
  match s with
  | EmptyString => EmptyString
  | String a s' =>
      if decide (a = "'"%char) then remove_quotes s'
      else String a (remove_quotes s')
  end.

(** [get_hero_index_mapping]; [heros_chart] is its [localized_name] column
    under the default index.  The dictionary of the names by index is
    turned round entry by entry, here in the order of the index: a name
    that occurs twice keeps the index written last. *)
Definition get_hero_index_mapping (heros_chart : list string) : gmap string Z :=
  let index_to_hero :=
    imap (λ i name, (Z.of_nat i, remove_quotes (snake name))) heros_chart in
  foldl (λ (m : gmap string Z) (ih : Z * string), <[ih.2 := ih.1]> m)
        ∅ index_to_hero.

(** The attribute-like roles left out of the role vocabulary. *)
Definition excluded_roles : list string :=
  ["Pusher"; "Ranged"; "Melee"; "Durable"; "Escape"; "Jungler"; "Nuker"].

(** [construct_hero_attribute_df]: [hero_roles] maps hero indexes to lists
    of roles.  The columns are the roles that occur, without the excluded
    ones, sorted; there is one row for each of [0 .. len(hero_roles) - 2].
    The dictionary is read at [hero_index] once for every column, and
    reading a missing index raises [KeyError]. *)
Definition construct_hero_attribute_df (hero_roles : gmap Z (list string))
  : option attribute_table :=
  let total_roles := mjoin (snd <$> map_to_list hero_roles) in
  let total_roles :=
    merge_sort String.le
      (remove_dups (filter (λ role, role ∉ excluded_roles) total_roles)) in
  let num_heros := Z.of_nat (size hero_roles) - 1 in
  hero_attribute_rows ←
    mapM (λ hero_index,
            mapM (λ role : string,
                    hero_roles !! hero_index ≫= λ roles : list string,
                    Some (if decide (role ∈ roles) then 1 else 0))
                 total_roles)
         (seqZ 0 num_heros);
  Some (AttributeTable total_roles hero_attribute_rows).

(** [max(s.value_counts().to_dict().values())]: the largest number of
    occurrences of one value; [max] of no value raises [ValueError]. *)
Definition max_value_count (s : list string) : option nat :=
  match s with
  | [] => None
  | _ => Some (max_list ((λ v, length (filter (λ x, x = v) s))
                         <$> remove_dups s))
  end.

(** [get_too_many_roles] *)
Definition get_too_many_roles (single_game_hero_info : list hero_info)
  : option (list Z) :=
  radiant_max ←
    max_value_count
      (hi_role <$> filter (λ r, hi_radiant_player r = true) single_game_hero_info);
  dire_max ←
    max_value_count
      (hi_role <$> filter (λ r, hi_radiant_player r = false) single_game_hero_info);
  let radiant_check := if decide (3 ≤ radiant_max)%nat then 1 else 0 in
  let dire_check := if decide (3 ≤ dire_max)%nat then 1 else 0 in
  Some [radiant_check; dire_check].

(** [construct_role_check_df] *)
Definition construct_role_check_df (game_hero_info_df : list hero_info)
  : option (frame string) :=
  let checked_too_many_roles :=
    ["too_many_of_one_radiant"; "too_many_of_one_dire"] in
  role_check_raw ←
    mapM (λ kg : Z * list hero_info, get_too_many_roles kg.2)
         (groupby hi_match_id game_hero_info_df);
  frame_on_match_range checked_too_many_roles role_check_raw.

(** [itertools.combinations(l, 2)] *)
Fixpoint combinations2 {A} (l : list A) : list (A * A) :=
  match l with
  | [] => []
  | x :: l' => (pair x <$> l') ++ combinations2 l'
  end.

(** [df[name]] for a column label: the values of the column, row by row;
    a label that is no column raises [KeyError]. *)
Definition get_column (fr : frame string) (name : string) : option (list Z) :=
  i ← fst <$> list_find (λ c, c = name) (columns fr);
  Some ((λ r : Z * list Z, default 0 (r.2 !! i)) <$> rows fr).

(** [df[name] = values]: an existing column is overwritten in place, a new
    one is added as the last column. *)
Definition set_column (fr : frame string) (name : string) (values : list Z)
  : frame string :=
  match fst <$> list_find (λ c, c = name) (columns fr) with
  | Some i =>
      Frame (columns fr)
            (zip_with (λ (r : Z * list Z) v, (r.1, <[i:=v]> r.2)) (rows fr) values)
  | None =>
      Frame (columns fr ++ [name])
            (zip_with (λ (r : Z * list Z) v, (r.1, r.2 ++ [v])) (rows fr) values)
  end.

(** The value of an [int64] computation: the result modulo [2^64], in
    [-2^63 .. 2^63 - 1]. *)
Definition wrap_int64 (z : Z) : Z := (z + 2 ^ 63) `mod` 2 ^ 64 - 2 ^ 63.

(** [get_interaction_terms]: the pairs are those of the columns the frame
    has at the start; the products are read from the frame as it is when
    their turn comes.  The columns are [int64] columns, whose product
    wraps. *)
Definition get_interaction_terms (hero_composition_df : frame string)
  : option (frame string) :=
  foldl (λ (acc : option (frame string)) (interaction_term : string * string),
           fr ← acc;
           a ← get_column fr interaction_term.1;
           b ← get_column fr interaction_term.2;
           Some (set_column fr
                   (interaction_term.1 +:+ "-x-" +:+ interaction_term.2)
                   (zip_with (λ x y, wrap_int64 (x * y)) a b)))
        (Some hero_composition_df)
        (combinations2 (columns hero_composition_df)).

End HeroRoles.

(** ** Roles and gold *)

Module RoleGold.
Import Heroes Carry.

(** A row of [long_player_gold_df]. *)
Record player_gold := PlayerGold {
  pg_match_id : Z;
  pg_player_slot : Z;
  pg_max_gold : Z
}.

(** [left.merge(right, on=['match_id', 'player_slot'])]: the inner join,
    a row for every pair of rows that agree on the two keys, in the order
    of the left rows (the keys are unique in the tables it is used on). *)
Definition merge_on_match_slot (left : list hero_info)
    (right : list player_gold) : list (hero_info * Z) :=
  l ← left;
  (λ r, (l, pg_max_gold r))
    <$> filter (λ r, pg_match_id r = hi_match_id l
                     ∧ pg_player_slot r = hi_player_slot l) right.

Section FloatingPoint.
(** The mean and the deviations are [float64] numbers; the finite ones are
    rational numbers.  [round] is the rounding of a number to [float64],
    as the conversion of an [int64] and the subtraction of two floats
    apply it, and [mean] is the value of [Series.mean] on an integer
    column. *)
Context (round : Q → Q) (mean : list Z → Q).

(** [construct_role_gold_interaction_df]: every row of the merged table
    with the difference of its [max_gold] from the mean [max_gold] of the
    rows of its match. *)
Definition construct_role_gold_interaction_df
    (game_hero_info_df : list hero_info) (long_player_gold_df : list player_gold)
  : list role_gold :=
  let hero_gold_info :=
    merge_on_match_slot game_hero_info_df long_player_gold_df in
  (λ lg : hero_info * Z,
     let match_max_gold :=
       snd <$> filter (λ x : hero_info * Z, hi_match_id x.1 = hi_match_id lg.1)
                      hero_gold_info in
     RoleGold (hi_match_id lg.1) (hi_hero_id lg.1) (hi_player_slot lg.1)
              (hi_radiant_player lg.1) (hi_role lg.1) lg.2
              (round (round (inject_Z lg.2) - mean match_max_gold))%Q)
  <$> hero_gold_info.
End FloatingPoint.

End RoleGold.

(** * Notions of the specification and sample tables *)

Import TeamFights Heroes Wealth Objectives Carry HeroRoles RoleGold.

(** ** Team fights *)

(** The team fights of match [m] that end before the threshold, and those
    that end at or before it. *)
Definition fights_before (df : list team_fight) (threshold m : Z) : Z :=
  Z.of_nat (length (filter (λ f, tf_match_id f = m ∧ tf_end f < threshold) df)).

Definition fights_up_to (df : list team_fight) (threshold m : Z) : Z :=
  Z.of_nat (length (filter (λ f, tf_match_id f = m ∧ tf_end f ≤ threshold) df)).

(** A match whose only team fight ends after the threshold, and its ten
    participant rows. *)
Definition late_fights : list team_fight := [TeamFight 0 650 700].

Definition late_fight_players : list teamfight_player :=
  [TeamfightPlayer 0 0 1; TeamfightPlayer 0 1 1; TeamfightPlayer 0 2 1;
   TeamfightPlayer 0 3 1; TeamfightPlayer 0 4 1; TeamfightPlayer 0 128 1;
   TeamfightPlayer 0 129 1; TeamfightPlayer 0 130 1; TeamfightPlayer 0 131 1;
   TeamfightPlayer 0 132 1].

(** ** Heroes *)

(** The number of entries of a selection row that are 1. *)
Definition ones (row : list Z) : nat := length (filter (λ x, x = 1) row).

(** The heroes picked by the two sides of a match. *)
Definition radiant_picks (g : list player) : list Z :=
  pl_hero_id <$> filter (λ p, pl_radiant_player p = true) g.

Definition dire_picks (g : list player) : list Z :=
  pl_hero_id <$> filter (λ p, pl_radiant_player p = false) g.

(** The positions of the picks in the selection row: [h - 1] for a Radiant
    hero [h], [h - 1 + num_heros] for a Dire hero. *)
Definition selected_positions (g : list player) (num_heros : nat) : list nat :=
  ((λ h, Z.to_nat (h - 1)) <$> radiant_picks g)
  ++ ((λ h, Z.to_nat (h - 1 + Z.of_nat num_heros)) <$> dire_picks g).

(** A full match: heroes 1 to 5 on the Radiant side, 6 to 10 on the Dire
    side. *)
Definition full_match : list player :=
  [Player 0 1 0 true; Player 0 2 1 true; Player 0 3 2 true; Player 0 4 3 true;
   Player 0 5 4 true; Player 0 6 128 false; Player 0 7 129 false;
   Player 0 8 130 false; Player 0 9 131 false; Player 0 10 132 false].

(** Two heroes: hero 1 is a carry (row 0), hero 2 a support (row 1). *)
Definition two_heroes : attribute_table :=
  AttributeTable ["Carry"; "Support"] [[1; 0]; [0; 1]].

(** ** Wealth *)

(** The first gold column of a sample. *)
Definition first_gold (r : wealth_row) : Z := hd 0 (gold_columns r).

(** The pairs of consecutive rows of a table, and the row of differences,
    each less 100, that a pair stands for. *)
Definition consecutive_pairs (df : list wealth_row)
  : list (wealth_row * wealth_row) :=
  zip df (tail df).

Definition growth_of_pair (pc : wealth_row * wealth_row) : growth_row :=
  (zip_with (λ p c, Some (c - p - 100)) (gold_columns pc.1) (gold_columns pc.2),
   w_match_id pc.2).


(** Two samples of one match with two players: the gold of the first grows,
    that of the second falls. *)
Definition negative_jump : list wealth_row :=
  [WealthRow 0 0 [0; 0; 0; 500; 0; 0]; WealthRow 0 60 [100; 5; 40; 200; 3; 25]].

(** Two tables with the same samples of match 1; match 0 has a single
    sample, with 0 gold in the first table and 5 gold in the second. *)
Definition quiet_start : list wealth_row :=
  [WealthRow 0 0 [0; 0; 0]; WealthRow 1 0 [0; 0; 0]; WealthRow 1 60 [150; 2; 30]].

Definition quiet_start' : list wealth_row :=
  [WealthRow 0 0 [5; 0; 0]; WealthRow 1 0 [0; 0; 0]; WealthRow 1 60 [150; 2; 30]].

(** Three matches, the second with one sample only, after 600 seconds. *)
Definition sparse_wealth : list wealth_row :=
  [WealthRow 0 0 [0; 0; 0]; WealthRow 1 660 [900; 9; 700]; WealthRow 2 0 [0; 0; 0]].

(** ** Objectives *)

(** A first-blood event up to 600 seconds. *)
Definition qualifies (r : objective) : Prop :=
  ob_time r ≤ 600 ∧ ob_subtype r = "CHAT_MESSAGE_FIRSTBLOOD".

Definition two_first_bloods : list objective :=
  [Objective 0 1 "CHAT_MESSAGE_TOWER_KILL" 300;
   Objective 0 3 "CHAT_MESSAGE_FIRSTBLOOD" 95;
   Objective 1 7 "CHAT_MESSAGE_FIRSTBLOOD" 640;
   Objective 2 6 "CHAT_MESSAGE_FIRSTBLOOD" 120].

(** ** Carries *)

(** A carry of the match plays on the given side. *)
Definition has_carry (side : bool) (g : list role_gold) : Prop :=
  ∃ r, r ∈ g ∧ rg_role r = "Carry" ∧ rg_radiant_player r = side.

(** The gold deviations of the carries of a side. *)
Definition carry_deviations (side : bool) (g : list role_gold) : list Q :=
  rg_max_gold_diff_from_match_mean
    <$> filter (λ r, rg_radiant_player r = side ∧ rg_role r = "Carry") g.

Definition is_maximum (x : Q) (l : list Q) : Prop :=
  x ∈ l ∧ Forall (λ y, (y <= x)%Q) l.

Definition indicator (P : Prop) `{!Decision P} : Z := if decide P then 1 else 0.

(** The renaming of [construct_carry_comparison_df]. *)
Definition lead_label (c : Z) : label :=
  from_option LStr (LInt c)
    (at_label [(-1, "Unknown"); (0, "Dire_lead"); (1, "Radiant_lead")] c).

(** Three matches: the Radiant carry ahead, a tie, and no Dire carry. *)
Definition three_carry_matches : list role_gold :=
  [RoleGold 0 1 0 true "Carry" 3000 (500 # 1);
   RoleGold 0 6 128 false "Carry" 2000 (-500 # 1);
   RoleGold 1 1 0 true "Carry" 2500 (0 # 1);
   RoleGold 1 6 128 false "Carry" 2500 (0 # 1);
   RoleGold 2 1 0 true "Carry" 2600 (100 # 1);
   RoleGold 2 7 128 false "Support" 2400 (-100 # 1)].
(** * Definitions for the further properties *)

Import HeroRoles RoleGold.

(** The index that [get_hero_selection] writes for a player. *)
Definition selection_index (num_heros : nat) (p : player) : Z :=
  if pl_radiant_player p then pl_hero_id p - 1
  else pl_hero_id p + Z.of_nat num_heros - 1.


(** A role vocabulary: the roles that some hero of the dictionary has,
    without the excluded ones. *)
Definition vocabulary_role (hero_roles : gmap Z (list string)) (role : string)
  : Prop :=
  (role ∉ excluded_roles)
  ∧ (∃ (i : Z) (roles : list string),
       hero_roles !! i = Some roles ∧ role ∈ roles).

(** The number of players of a side with a given major role. *)
Definition role_count (side : bool) (role : string) (g : list hero_info) : nat :=
  length (filter (λ r, hi_role r = role ∧ hi_radiant_player r = side) g).

(** A dictionary of four heroes; the roles of hero 2 are all excluded. *)
Definition four_heroes : gmap Z (list string) :=
  list_to_map [(0, ["Carry"; "Escape"; "Nuker"]); (1, ["Support"; "Disabler"]);
               (2, ["Melee"; "Durable"]); (3, ["Initiator"])].

(** Samples of two matches, not in the order of the matches; match 0 has
    its largest values after 600 seconds. *)
Definition late_peak : list wealth_row :=
  [WealthRow 1 0 [0; 0; 0]; WealthRow 0 60 [120; 1; 10];
   WealthRow 1 60 [90; 2; 40]; WealthRow 0 0 [0; 0; 0];
   WealthRow 0 660 [900; 9; 700]].

(** Hero information and gold of one match: a carry on each side, and a
    support without a gold row. *)
Definition duel_info : list hero_info :=
  [HeroInfo 0 1 0 true "Carry"; HeroInfo 0 6 128 false "Carry";
   HeroInfo 0 9 129 false "Support"].

Definition duel_gold : list player_gold :=
  [PlayerGold 0 0 3000; PlayerGold 0 128 2000].

(** A rounding and a mean to try the statements on: the numbers are
    rounded down to integers. *)
Definition round_down (q : Q) : Q := inject_Z (Qfloor q).

Definition mean_down (l : list Z) : Q :=
  inject_Z (Zsum l `div` Z.of_nat (length l)).

(** The samples of a match with [times <= threshold], in the order of the
    matches. *)
Definition cut_by_match (df : list wealth_row) (threshold : Z)
  : list wealth_row :=
  mjoin ((λ kg : Z * list wealth_row,
            filter (λ r, w_times r ≤ threshold) kg.2)
         <$> groupby w_match_id df).

(** The label of an interaction column. *)
Definition interaction_name (p : string * string) : string :=
  p.1 +:+ "-x-" +:+ p.2.

(** The value of a row in the column labelled [a]. *)
Definition cell (cols : list string) (row : list Z) (a : string) : Z :=
  default 0 ((fst <$> list_find (λ c, c = a) cols) ≫= λ i : nat, row !! i).

(** The frame after the interaction terms [done] have been written. *)
Definition partial_frame (cols : list string) (rows0 : list (Z * list Z))
    (done : list (string * string)) : frame string :=
  Frame (cols ++ (interaction_name <$> done))
        ((λ r : Z * list Z,
            (r.1, r.2 ++ ((λ p : string * string,
                             wrap_int64 (cell cols r.2 p.1 * cell cols r.2 p.2))
                          <$> done)))
         <$> rows0).

(** A composition frame of three columns and two matches; the product of
    the first two cells of the second match does not fit [int64]. *)
Definition small_composition : frame string :=
  Frame ["Carry_radiant"; "Support_radiant"; "Carry_dire"]
        [(0, [2; 3; 1]); (1, [2 ^ 40; 2 ^ 40; 5])].

(** The key of a hero in the dictionary of [get_hero_index_mapping]. *)
Definition hero_key (name : string) : string := remove_quotes (snake name).

Definition three_names : list string :=
  ["Anti-Mage"; "Nature's Prophet"; "Shadow Fiend"].

(** A dictionary whose keys leave a gap: index 1 is missing. *)
Definition gap_heroes : gmap Z (list string) :=
  list_to_map [(0, ["Carry"]); (5, ["Escape"]); (7, [])].

(** * Properties *)

(** ** The table primitives *)

Section PandasFacts.
Context {A : Type}.
Implicit Types (key : A → Z) (df : list A) (k : Z).

Lemma elem_of_sorted_keys k (ks : list Z) : k ∈ sorted_keys ks ↔ k ∈ ks.
Proof.
  unfold sorted_keys. rewrite merge_sort_Permutation.
  apply elem_of_remove_dups.
Qed.

Lemma NoDup_sorted_keys (ks : list Z) : NoDup (sorted_keys ks).
Proof.
  unfold sorted_keys. rewrite merge_sort_Permutation.
  apply NoDup_remove_dups.
Qed.

Lemma sorted_keys_ascending (ks : list Z) :
  StronglySorted Z.le (sorted_keys ks).
Proof. apply (StronglySorted_merge_sort Z.le); apply _. Qed.

Lemma groupby_keys key df : (groupby key df).*1 = sorted_keys (key <$> df).
Proof.
  unfold groupby. induction (sorted_keys (key <$> df)) as [|k ks IH]; [done|].
  csimpl. by f_equal.
Qed.

Lemma elem_of_groupby key df k (g : list A) :
  (k, g) ∈ groupby key df
  ↔ k ∈ key <$> df ∧ g = filter (λ r, key r = k) df.
Proof.
  unfold groupby. rewrite list_elem_of_fmap. split.
  - intros (k' & Heq & Hk). simplify_eq. split; [|done]. rewrite elem_of_sorted_keys in Hk. done.
  - intros [Hk ->]. exists k. by rewrite elem_of_sorted_keys.
Qed.

(** A group is never empty and holds the rows of one key only. *)
Lemma groupby_group key df k (g : list A) :
  (k, g) ∈ groupby key df → g ≠ [] ∧ Forall (λ r, key r = k) g.
Proof.
  rewrite elem_of_groupby, list_elem_of_fmap. intros [(r & -> & Hr) ->]. split.
  - intros Hnil.
    assert (r ∈ filter (λ r', key r' = key r) df) as Hin
      by by apply list_elem_of_filter.
    rewrite Hnil in Hin. by apply elem_of_nil in Hin.
  - apply Forall_forall. intros x Hx. by apply list_elem_of_filter in Hx as [? _].
Qed.

Lemma at_label_fmap (f : Z → A) (ks : list Z) k :
  at_label ((λ k', (k', f k')) <$> ks) k
  = if decide (k ∈ ks) then Some (f k) else None.
Proof.
  induction ks as [|k' ks IH]; csimpl.
  - destruct (decide (k ∈ [])) as [Hin|]; [by apply elem_of_nil in Hin|done].
  - destruct (decide (k' = k)) as [->|Hne].
    + rewrite decide_True; [done|by left].
    + rewrite IH.
      destruct (decide (k ∈ ks)) as [Hin|Hin],
               (decide (k ∈ k' :: ks)) as [Hin'|Hin']; try done.
      * destruct Hin'. by right.
      * apply elem_of_cons in Hin' as [?|?]; congruence.
Qed.

Lemma reindex_index (idx : list Z) (d : A) t : (reindex idx d t).*1 = idx.
Proof.
  unfold reindex. induction idx as [|k ks IH]; [done|]. csimpl. by f_equal.
Qed.

Lemma lookup_reindex (d : A) t (m : Z) :
  0 ≤ m < num_matches →
  reindex match_range d t !! Z.to_nat m = Some (m, default d (at_label t m)).
Proof.
  intros Hm. unfold reindex, match_range.
  rewrite list_lookup_fmap, lookup_seqZ_lt by lia.
  rewrite Z2Nat.id by lia. done.
Qed.
End PandasFacts.

Lemma at_label_groupby {A B} (key : A → Z) (f : list A → B) (df : list A) (k : Z) :
  at_label ((λ kg : Z * list A, (kg.1, f kg.2)) <$> groupby key df) k
  = if decide (k ∈ key <$> df) then Some (f (filter (λ r, key r = k) df)) else None.
Proof.
  transitivity
    (at_label ((λ k', (k', f (filter (λ r, key r = k') df)))
               <$> sorted_keys (key <$> df)) k).
  { unfold groupby. by rewrite <- list_fmap_compose. }
  rewrite at_label_fmap.
  destruct (decide (k ∈ sorted_keys (key <$> df))) as [Hin|Hin],
           (decide (k ∈ key <$> df)) as [Hin'|Hin']; try done;
    rewrite elem_of_sorted_keys in Hin; done.
Qed.

(** ** Team fights *)

Section TeamFightFacts.
Implicit Types (df : list team_fight) (g : list teamfight_player)
  (counts : list (Z * Z)) (m c : Z).

Lemma lookup_num_team_fights df threshold m :
  0 ≤ m < num_matches →
  construct_num_team_fights df threshold !! Z.to_nat m
  = Some (m, fights_before df threshold m).
Proof.
  intros Hm. unfold construct_num_team_fights, fights_before.
  rewrite lookup_reindex by done.
  rewrite (at_label_groupby tf_match_id (λ l : list team_fight, Z.of_nat (length l))).
  rewrite list_filter_filter.
  case_decide as Hin; [simpl; reflexivity|]. simpl. do 3 f_equal.
  destruct (filter (λ f, tf_match_id f = m ∧ _) df) as [|f l] eqn:Hf;
    [done|]. destruct Hin.
  assert (f ∈ filter (λ a, tf_match_id a = m ∧ tf_end a < threshold) df)
    as Hfin by (rewrite Hf; left).
  apply list_elem_of_filter in Hfin as [[<- ?] ?].
  apply list_elem_of_fmap. exists f. split; [done|].
  by apply list_elem_of_filter.
Qed.

Lemma length_num_team_fights df threshold :
  length (construct_num_team_fights df threshold) = Z.to_nat num_matches.
Proof.
  unfold construct_num_team_fights, reindex, match_range.
  by rewrite length_fmap, length_seqZ.
Qed.

Lemma iloc_num_team_fights df threshold m :
  0 ≤ m < num_matches →
  iloc (construct_num_team_fights df threshold) m
  = Some (m, fights_before df threshold m).
Proof.
  intros Hm. unfold iloc, norm_index. rewrite length_num_team_fights.
  rewrite decide_True by lia. simpl. by apply lookup_num_team_fights.
Qed.

Lemma Zsum_const (l : list Z) m :
  Forall (λ x, x = m) l → Zsum l = m * Z.of_nat (length l).
Proof.
  induction 1 as [|x l -> _ IH]; simpl; [lia|]. rewrite IH. lia.
Qed.

Lemma mean_match_id_group g m :
  g ≠ [] → Forall (λ r, tp_match_id r = m) g → mean_match_id g = Some m.
Proof.
  intros Hne Hall. unfold mean_match_id. destruct g as [|r g']; [done|].
  f_equal. rewrite (Zsum_const _ m), length_fmap.
  - apply Z.quot_mul. simpl length. lia.
  - by apply Forall_fmap.
Qed.


Lemma get_net_death_count_no_fight g counts m :
  g ≠ [] →
  Forall (λ r, tp_match_id r = m) g →
  snd <$> iloc counts m = Some 0 →
  let window := take (length g - 1) g in
  get_net_death_count g counts
  = Some [Zsum (tp_deaths <$> filter (λ r, tp_player_slot r < 50) window);
          Zsum (tp_deaths <$> filter (λ r, tp_player_slot r > 50) window)].
Proof.
  intros Hne Hall Hc window. unfold get_net_death_count.
  rewrite (mean_match_id_group g m) by done. simpl. rewrite Hc. simpl.
  unfold iloc_to. destruct (decide (0 ≤ 0 * 10 - 1)); [lia|].
  replace (Z.to_nat (Z.of_nat (length g) + (0 * 10 - 1)))
    with (length g - 1)%nat by lia.
  fold window.
  case_decide as Hlen; [|done].
  apply nil_length_inv in Hlen. by rewrite Hlen.
Qed.
End TeamFightFacts.

Lemma mapM_fmap_compose {A B C} (f : C → option B) (h : A → C) (l : list A) :
  mapM f (h <$> l) = mapM (f ∘ h) l.
Proof.
  induction l as [|x l IH]; [done|]. csimpl.
  destruct (f (h x)); [|done]. csimpl. f_equal. exact IH.
Qed.

Section KeyedResults.
Context {A B : Type}.

Lemma at_label_mapM_keys (F : Z → option B) (ks : list Z) raw k :
  mapM (λ k', pair k' <$> F k') ks = Some raw →
  at_label raw k = if decide (k ∈ ks) then F k else None.
Proof.
  revert raw. induction ks as [|k' ks IH]; intros raw Hraw; csimpl in Hraw.
  - injection Hraw as <-. simpl.
    destruct (decide (k ∈ [])) as [Hin|]; [by apply elem_of_nil in Hin|done].
  - destruct (F k') as [v|] eqn:Hv; [|done]. csimpl in Hraw.
    destruct (mapM _ ks) as [raw'|] eqn:Hraw'; [|done].
    injection Hraw as <-. simpl. specialize (IH raw' eq_refl).
    destruct (decide (k' = k)) as [->|Hne].
    + rewrite decide_True; [done|by left].
    + rewrite IH.
      destruct (decide (k ∈ ks)) as [Hin|Hin],
               (decide (k ∈ k' :: ks)) as [Hin'|Hin']; try done.
      * destruct Hin'. by right.
      * apply elem_of_cons in Hin' as [?|?]; congruence.
Qed.

(** The results of [groupby(key).apply(f)], when no call raises: one
    entry per key, found under its key. *)
Lemma at_label_groupby_apply (key : A → Z) (f : list A → option B)
    (df : list A) raw k :
  mapM (λ kg : Z * list A, pair kg.1 <$> f kg.2) (groupby key df) = Some raw →
  at_label raw k
  = if decide (k ∈ key <$> df) then f (filter (λ r, key r = k) df) else None.
Proof.
  unfold groupby. rewrite mapM_fmap_compose. intros Hraw.
  rewrite (at_label_mapM_keys (λ k', f (filter (λ r, key r = k') df)) _ _ _ Hraw).
  destruct (decide (k ∈ sorted_keys (key <$> df))) as [Hin|Hin],
           (decide (k ∈ key <$> df)) as [Hin'|Hin']; try done;
    rewrite elem_of_sorted_keys in Hin; done.
Qed.
End KeyedResults.

Section NetDeathCountFacts.
Implicit Types (tfp : list teamfight_player) (counts : list (Z * Z)).

Lemma lookup_net_death_count tfp counts t m :
  construct_net_death_count_from_teamfights tfp counts = Some t →
  0 ≤ m < num_matches →
  t !! Z.to_nat m
  = Some (m, default [0; 0]
               (if decide (m ∈ tp_match_id <$> tfp)
                then get_net_death_count
                       (filter (λ r, tp_match_id r = m) tfp) counts
                else None)).
Proof.
  unfold construct_net_death_count_from_teamfights. intros Ht Hm.
  destruct (decide (length tfp = 0%nat)) as [|_]; [done|].
  destruct (mapM _ (groupby _ _)) as [raw|] eqn:Hraw; [|done].
  change (Some (reindex match_range [0; 0] raw) = Some t) in Ht.
  apply (inj Some) in Ht. subst t. rewrite lookup_reindex by done.
  by rewrite (at_label_groupby_apply tp_match_id
                (λ g, get_net_death_count g counts) _ _ _ Hraw).
Qed.

Lemma net_death_count_index tfp counts t :
  construct_net_death_count_from_teamfights tfp counts = Some t →
  t.*1 = match_range.
Proof.
  unfold construct_net_death_count_from_teamfights. intros Ht.
  destruct (decide (length tfp = 0%nat)) as [|_]; [done|].
  destruct (mapM _ (groupby _ _)) as [raw|]; [|done].
  change (Some (reindex match_range [0; 0] raw) = Some t) in Ht.
  apply (inj Some) in Ht. subst t. apply reindex_index.
Qed.

(** With the counts of [construct_num_team_fights] and match
    identifiers inside the range, no call of [get_net_death_count]
    raises; a table with a row comes back as a table. *)
Lemma net_death_count_total tfp df threshold :
  tfp ≠ [] →
  Forall (λ r, 0 ≤ tp_match_id r < num_matches) tfp →
  is_Some (construct_net_death_count_from_teamfights tfp
             (construct_num_team_fights df threshold)).
Proof.
  intros Hrows Hrange. unfold construct_net_death_count_from_teamfights.
  destruct (decide (length tfp = 0%nat)) as [Hnil|_].
  { by apply length_zero_iff_nil in Hnil. }
  destruct (mapM _ (groupby _ _)) as [raw|] eqn:Hraw; [by eexists|].
  exfalso. apply mapM_None, Exists_exists in Hraw as ([k g] & Hin & Hnone).
  simpl in Hnone.
  pose proof (groupby_group _ _ _ _ Hin) as [Hne Hall].
  apply elem_of_groupby in Hin as [Hk _].
  apply list_elem_of_fmap in Hk as (r & -> & Hr).
  rewrite Forall_forall in Hrange. specialize (Hrange r Hr).
  unfold get_net_death_count in Hnone.
  rewrite (mean_match_id_group g (tp_match_id r)) in Hnone by done.
  simpl in Hnone. rewrite iloc_num_team_fights in Hnone by done.
  simpl in Hnone. by case_decide.
Qed.
End NetDeathCountFacts.

(** ** Hero selection *)

Lemma mapM_cons {A B} (f : A → option B) (x : A) (l : list A) :
  mapM f (x :: l) = y ← f x; k ← mapM f l; Some (y :: k).
Proof. done. Qed.

Lemma norm_index_in_range (n : nat) (i : Z) :
  0 ≤ i < Z.of_nat n → norm_index n i = Some (Z.to_nat i).
Proof. intros Hi. unfold norm_index. by rewrite decide_True. Qed.

Section PutFacts.
Context {A : Type}.
Implicit Types (row : list A) (ns : list nat) (v : A).

Lemma put_in_range row (ids : list Z) v :
  Forall (λ i, 0 ≤ i < Z.of_nat (length row)) ids →
  put row ids v = Some (foldl (λ r n, <[n:=v]> r) row (Z.to_nat <$> ids)).
Proof.
  intros Hids. unfold put.
  assert (mapM (norm_index (length row)) ids = Some (Z.to_nat <$> ids)) as ->.
  { induction Hids as [|i ids Hi _ IH]; [done|].
    by rewrite mapM_cons, norm_index_in_range, IH. }
  done.
Qed.

Lemma length_foldl_insert row ns v :
  length (foldl (λ r n, <[n:=v]> r) row ns) = length row.
Proof.
  revert row. induction ns as [|n ns IH]; intros row; [done|].
  simpl. by rewrite IH, length_insert.
Qed.

Lemma lookup_foldl_insert row ns v (i : nat) :
  (i < length row)%nat →
  foldl (λ r n, <[n:=v]> r) row ns !! i
  = if decide (i ∈ ns) then Some v else row !! i.
Proof.
  revert row. induction ns as [|n ns IH]; intros row Hi; simpl.
  - destruct (decide (i ∈ [])) as [Hin|]; [by apply elem_of_nil in Hin|done].
  - rewrite IH by by rewrite length_insert.
    destruct (decide (i ∈ ns)) as [Hin|Hin].
    + rewrite decide_True; [done|by right].
    + destruct (decide (n = i)) as [->|Hne].
      * rewrite list_lookup_insert_eq by done.
        rewrite decide_True; [done|by left].
      * rewrite list_lookup_insert_ne by done.
        rewrite decide_False; [done|].
        intros [?|?]%elem_of_cons; congruence.
Qed.
End PutFacts.

Lemma ones_insert (row : list Z) (n : nat) :
  row !! n = Some 0 → ones (<[n:=1]> row) = S (ones row).
Proof.
  unfold ones. revert n. induction row as [|x row IH]; intros [|n] Hn;
    simplify_eq/=.
  - rewrite !filter_cons. destruct (decide (1 = 1)); [|done].
    destruct (decide (0 = 1)); done.
  - rewrite !filter_cons. destruct (decide (x = 1)); simpl; by rewrite IH.
Qed.

Lemma ones_foldl_insert (row : list Z) (ns : list nat) :
  NoDup ns → (∀ n, n ∈ ns → row !! n = Some 0) →
  ones (foldl (λ r n, <[n:=1]> r) row ns) = (ones row + length ns)%nat.
Proof.
  intros Hnd. revert row. induction Hnd as [|n ns Hn _ IH]; intros row Hz; simpl.
  - lia.
  - rewrite IH.
    + rewrite ones_insert by (apply Hz; left). lia.
    + intros n' Hn'. rewrite list_lookup_insert_ne by (intros ->; done).
      apply Hz. by right.
Qed.

Lemma ones_replicate_zero (n : nat) : ones (replicate n 0) = 0%nat.
Proof.
  unfold ones. induction n as [|n IH]; [done|]. simpl.
  rewrite filter_cons. by rewrite decide_False.
Qed.

Section HeroSelectionFacts.
Implicit Types (g : list player) (H : nat).

Lemma get_hero_selection_valid g H :
  Forall (λ p, 1 ≤ pl_hero_id p ≤ Z.of_nat H) g →
  get_hero_selection g H
  = Some (foldl (λ r n, <[n:=1]> r) (replicate (2 * H) 0)
                (selected_positions g H)).
Proof.
  intros Hvalid. unfold get_hero_selection. rewrite put_in_range.
  - f_equal. f_equal. unfold selected_positions, radiant_picks, dire_picks.
    rewrite fmap_app, <- !list_fmap_compose. f_equal.
    apply list_fmap_ext. intros _ p _. simpl. f_equal. lia.
  - rewrite length_replicate. apply Forall_app. split.
    + apply Forall_fmap, Forall_forall. intros p Hp.
      apply list_elem_of_filter in Hp as [_ Hp].
      rewrite Forall_forall in Hvalid. specialize (Hvalid p Hp). simpl. lia.
    + apply Forall_fmap, Forall_forall. intros p Hp.
      apply list_elem_of_filter in Hp as [_ Hp].
      rewrite Forall_forall in Hvalid. specialize (Hvalid p Hp). simpl. lia.
Qed.

Lemma picks_valid g H :
  Forall (λ p, 1 ≤ pl_hero_id p ≤ Z.of_nat H) g →
  Forall (λ h, 1 ≤ h ≤ Z.of_nat H) (radiant_picks g)
  ∧ Forall (λ h, 1 ≤ h ≤ Z.of_nat H) (dire_picks g).
Proof.
  intros Hvalid. unfold radiant_picks, dire_picks.
  split; apply Forall_fmap, Forall_forall; intros p Hp;
    apply list_elem_of_filter in Hp as [_ Hp];
    rewrite Forall_forall in Hvalid; by apply Hvalid.
Qed.

Lemma selected_positions_lt g H n :
  Forall (λ p, 1 ≤ pl_hero_id p ≤ Z.of_nat H) g →
  n ∈ selected_positions g H → (n < 2 * H)%nat.
Proof.
  intros [Hr Hd]%picks_valid. unfold selected_positions.
  rewrite Forall_forall in Hr, Hd.
  intros [Hn|Hn]%elem_of_app;
    apply list_elem_of_fmap in Hn as (h & -> & Hh).
  - specialize (Hr h Hh). lia.
  - specialize (Hd h Hh). lia.
Qed.

Lemma NoDup_selected_positions g H :
  Forall (λ p, 1 ≤ pl_hero_id p ≤ Z.of_nat H) g →
  NoDup (pl_hero_id <$> g) →
  NoDup (selected_positions g H).
Proof.
  intros Hvalid Hnd. destruct (picks_valid g H Hvalid) as [Hr Hd].
  rewrite Forall_forall in Hr, Hd.
  unfold selected_positions. apply NoDup_app. split_and!.
  - apply NoDup_fmap_2_strong.
    + intros h1 h2 H1 H2 Heq. pose proof (Hr h1 H1). pose proof (Hr h2 H2). lia.
    + eapply sublist_NoDup; [exact Hnd|]. apply fmap_sublist, sublist_filter.
  - intros n (h1 & -> & H1)%list_elem_of_fmap (h2 & Heq & H2)%list_elem_of_fmap.
    specialize (Hr h1 H1). specialize (Hd h2 H2). lia.
  - apply NoDup_fmap_2_strong.
    + intros h1 h2 H1 H2 Heq. pose proof (Hd h1 H1). pose proof (Hd h2 H2). lia.
    + eapply sublist_NoDup; [exact Hnd|]. apply fmap_sublist, sublist_filter.
Qed.

Lemma hero_selection_row g H :
  length (radiant_picks g) = 5%nat →
  length (dire_picks g) = 5%nat →
  NoDup (pl_hero_id <$> g) →
  Forall (λ p, 1 ≤ pl_hero_id p ≤ Z.of_nat H) g →
  ∃ row,
    get_hero_selection g H = Some row
    ∧ length row = (2 * H)%nat
    ∧ ones row = 10%nat
    ∧ ∀ i, (i < 2 * H)%nat →
           row !! i
           = Some (if decide (i ∈ selected_positions g H) then 1 else 0).
Proof.
  intros Hra Hdi Hnd Hvalid. eexists. split_and!.
  - by apply get_hero_selection_valid.
  - by rewrite length_foldl_insert, length_replicate.
  - rewrite ones_foldl_insert.
    + rewrite ones_replicate_zero. unfold selected_positions.
      rewrite length_app, !length_fmap, Hra, Hdi. done.
    + by apply NoDup_selected_positions.
    + intros n Hn. apply lookup_replicate_2.
      by eapply selected_positions_lt.
  - intros i Hi. rewrite lookup_foldl_insert by by rewrite length_replicate.
    case_decide; [done|]. by apply lookup_replicate_2.
Qed.
End HeroSelectionFacts.

(** The table of [construct_hero_selection_df], when it is built: the rows
    of [get_hero_selection] for the matches in ascending order, labelled
    [0 .. N-1]. *)
Lemma hero_selection_df_rows (players_df : list player)
    (heros_chart : list string) (fr : frame string) :
  construct_hero_selection_df players_df heros_chart = Some fr →
  (rows fr).*1 = match_range
  ∧ Forall2 (λ (kg : Z * list player) row,
               get_hero_selection kg.2 (length heros_chart) = Some row)
            (groupby pl_match_id players_df) (rows fr).*2.
Proof.
  unfold construct_hero_selection_df. rewrite length_fmap.
  destruct (mapM _ (groupby _ _)) as [raw|] eqn:Hraw; [|done].
  change (Some raw ≫= ?f) with (f raw). unfold frame_on_match_range.
  case_decide as Hlen; [|done]. intros Hfr. apply (inj Some) in Hfr.
  subst fr. cbn [rows]. split.
  - apply fst_zip. lia.
  - rewrite snd_zip by lia. by apply mapM_Some_1.
Qed.

(** A frame built on [range(50000)] is labelled by the range. *)
Lemma frame_on_match_range_labels {L} (cols : list L)
    (raw : option (list (list Z))) (fr : frame L) :
  raw ≫= frame_on_match_range cols = Some fr →
  (rows fr).*1 = match_range ∧ columns fr = cols.
Proof.
  destruct raw as [values|]; [|done].
  change (Some values ≫= ?f) with (f values). unfold frame_on_match_range.
  case_decide as Hlen; [|done]. intros Hfr. apply (inj Some) in Hfr.
  subst fr. cbn [rows columns]. split; [|done]. apply fst_zip. lia.
Qed.


(** ** Wealth and objectives *)

Section ListFacts.
Context {A B : Type}.

Lemma filter_fmap (P : B → Prop) `{!∀ y, Decision (P y)} (f : A → B)
    (l : list A) :
  filter P (f <$> l) = f <$> filter (λ x, P (f x)) l.
Proof.
  induction l as [|x l IH]; [done|]. csimpl. rewrite !filter_cons, IH.
  by destruct (decide (P (f x))).
Qed.

Lemma filter_ext_Forall (P Q : A → Prop) `{!∀ x, Decision (P x)}
    `{!∀ x, Decision (Q x)} (l : list A) :
  Forall (λ x, P x ↔ Q x) l → filter P l = filter Q l.
Proof.
  induction 1 as [|x l HPQ _ IH]; [done|]. rewrite !filter_cons, IH.
  destruct (decide (P x)), (decide (Q x)); tauto.
Qed.

Lemma Forall_zip (P : A → Prop) (Q : B → Prop) (l : list A) (k : list B) :
  Forall P l → Forall Q k → Forall (λ p, P p.1 ∧ Q p.2) (zip l k).
Proof.
  intros Hl. revert k. induction Hl as [|x l Hx _ IH]; intros k Hk; [done|].
  destruct Hk as [|y k Hy Hk]; [done|]. simpl. constructor; auto.
Qed.

Lemma zip_cons (x : A) (y : B) (l : list A) (k : list B) :
  zip (x :: l) (y :: k) = (x, y) :: zip l k.
Proof. done. Qed.

Lemma zip_zip_with_fmap {C D E} (f : C → C → D) (g : A → C) (h : A → E)
    (l1 l2 : list A) :
  zip (zip_with f (g <$> l1) (g <$> l2)) (h <$> l2)
  = (λ pc : A * A, (f (g pc.1) (g pc.2), h pc.2)) <$> zip l1 l2.
Proof.
  revert l2. induction l1 as [|x l1 IH]; intros [|y l2]; try done.
  csimpl. by rewrite IH.
Qed.
End ListFacts.

Section GoldGrowthFacts.
Implicit Types (df : list wealth_row).

Lemma first_column_nonneg_pair (pc : wealth_row * wealth_row) :
  gold_columns pc.1 ≠ [] → gold_columns pc.2 ≠ [] →
  first_column_nonneg
    (zip_with (λ p c, Some (c - p)) (gold_columns pc.1) (gold_columns pc.2),
     w_match_id pc.2) = true
  ↔ 0 ≤ first_gold pc.2 - first_gold pc.1.
Proof.
  unfold first_column_nonneg, first_gold.
  destruct (gold_columns pc.1) as [|p ps], (gold_columns pc.2) as [|c cs];
    try done.
  intros _ _. simpl. apply bool_decide_eq_true.
Qed.

(** The rows handed to the statistics, read off the consecutive rows of
    the table. *)
Lemma gold_growth_df_pairs df :
  Forall (λ r, gold_columns r ≠ []) df →
  gold_growth_df df
  = growth_of_pair
      <$> filter (λ pc, 0 ≤ first_gold pc.2 - first_gold pc.1)
                 (consecutive_pairs df).
Proof.
  intros Hgold. unfold gold_growth_df, consecutive_pairs.
  destruct df as [|r0 rs]; [done|].
  apply Forall_cons in Hgold as Hgold'. destruct Hgold' as [Hr0 Hrs].
  unfold diff. rewrite !fmap_cons. change (tail (r0 :: rs)) with rs.
  rewrite zip_cons, filter_cons.
  destruct (decide (first_column_nonneg _ = true)) as [Hfirst|_].
  { unfold first_column_nonneg in Hfirst. simpl in Hfirst.
    destruct (gold_columns r0); done. }
  change (gold_columns r0 :: (gold_columns <$> rs))
    with (gold_columns <$> (r0 :: rs)).
  rewrite (zip_zip_with_fmap _ gold_columns w_match_id).
  rewrite filter_fmap, <- !list_fmap_compose.
  rewrite (filter_ext_Forall _ (λ pc, 0 ≤ first_gold pc.2 - first_gold pc.1)).
  - apply list_fmap_ext. intros _ [prev cur] _. unfold growth_of_pair. simpl.
    f_equal; [|lia].
    generalize (gold_columns prev) (gold_columns cur). intros ps.
    induction ps as [|p ps IH]; intros [|c cs]; try done.
    csimpl. by rewrite IH.
  - eapply Forall_impl; [apply (Forall_zip _ _ _ _ Hgold Hrs)|].
    intros pc [H1 H2]. by apply first_column_nonneg_pair.
Qed.
End GoldGrowthFacts.

Section WealthFacts.
Context {F : Type} (mean std : list Z → F).
Implicit Types (df : list wealth_row).


Lemma max_wealth_index df :
  (construct_x_seconds_max_wealth df).*1 = sorted_keys (w_match_id <$> df).
Proof.
  unfold construct_x_seconds_max_wealth.
  rewrite <- list_fmap_compose. apply groupby_keys.
Qed.
End WealthFacts.

Lemma elem_of_ten_min_firstblood (objectives_df : list objective) (l : Z)
    (row : Z * Z) :
  (l, row) ∈ construct_ten_min_firstblood_df objectives_df
  ↔ ∃ (i : nat) (r : objective),
      objectives_df !! i = Some r ∧ qualifies r ∧ l = Z.of_nat i
      ∧ row = (ob_match_id r, if decide (ob_slot r < 5) then 1 else 0).
Proof.
  unfold construct_ten_min_firstblood_df. rewrite list_elem_of_fmap. split.
  - intros ([l' r] & Heq & Hin). simplify_eq/=.
    apply list_elem_of_filter in Hin as [Hq Hin].
    apply elem_of_lookup_imap in Hin as (i & r' & Heq & Hi). simplify_eq.
    by exists i, r'.
  - intros (i & r & Hi & Hq & -> & ->). exists (Z.of_nat i, r). split; [done|].
    apply list_elem_of_filter. split; [done|].
    apply elem_of_lookup_imap. by exists i, r.
Qed.

Lemma StronglySorted_filter {A} (R : relation A) (P : A → Prop)
    `{!∀ x, Decision (P x)} (l : list A) :
  StronglySorted R l → StronglySorted R (filter P l).
Proof.
  induction 1 as [|x l Hl IH Hx]; [constructor|].
  rewrite filter_cons. destruct (decide (P x)); [|done].
  constructor; [done|]. apply Forall_forall.
  intros y [_ Hy]%list_elem_of_filter.
  rewrite Forall_forall in Hx. by apply Hx.
Qed.

(** The labels that [imap] gives the rows ascend with the rows. *)
Lemma imap_labels_sorted {A} (f : nat → Z) (l : list A) :
  (∀ i j, (i < j)%nat → f i < f j) →
  StronglySorted (λ a b : Z * A, a.1 < b.1) (imap (λ i r, (f i, r)) l).
Proof.
  revert f. induction l as [|r l IH]; intros f Hf; [constructor|].
  change (imap (λ i r0, (f i, r0)) (r :: l))
    with ((f 0%nat, r) :: imap (λ i r0, ((f ∘ S) i, r0)) l).
  constructor.
  - apply IH. intros i j Hij. apply Hf. lia.
  - apply Forall_forall. intros b (i & r' & -> & _)%elem_of_lookup_imap.
    simpl. apply Hf. lia.
Qed.

Lemma length_filter_imap {A} (P : Z * A → Prop) (Q : A → Prop)
    `{!∀ x, Decision (P x)} `{!∀ x, Decision (Q x)} (f : nat → Z)
    (l : list A) :
  (∀ ir, P ir ↔ Q ir.2) →
  length (filter P (imap (λ i r, (f i, r)) l)) = length (filter Q l).
Proof.
  intros HPQ. revert f. induction l as [|r l IH]; intros f; [done|].
  change (imap (λ i r0, (f i, r0)) (r :: l))
    with ((f 0%nat, r) :: imap (λ i r0, ((f ∘ S) i, r0)) l).
  rewrite !filter_cons.
  destruct (decide (P (f 0%nat, r))) as [HP|HP], (decide (Q r)) as [HQ|HQ];
    simpl; rewrite ?IH; try done.
  - destruct HQ. by apply (HPQ (f 0%nat, r)).
  - destruct HP. by apply (HPQ (f 0%nat, r)).
Qed.

(** The first-blood table has one row per qualifying event, in the order
    of the events: its labels ascend strictly. *)
Lemma ten_min_firstblood_rows (objectives_df : list objective) :
  StronglySorted Z.lt (construct_ten_min_firstblood_df objectives_df).*1
  ∧ length (construct_ten_min_firstblood_df objectives_df)
    = length (filter (λ r, ob_time r ≤ 600
                           ∧ ob_subtype r = "CHAT_MESSAGE_FIRSTBLOOD")
                     objectives_df).
Proof.
  unfold construct_ten_min_firstblood_df. split.
  - rewrite <- list_fmap_compose.
    apply (StronglySorted_fmap _ (λ a b : Z * objective, a.1 < b.1)).
    { done. }
    apply StronglySorted_filter.
    apply (imap_labels_sorted Z.of_nat). lia.
  - rewrite length_fmap.
    by apply length_filter_imap.
Qed.


(** ** Comparison of the carries *)

Section CarryFacts.
Implicit Types (g : list role_gold) (l : list Q).

Lemma foldl_max_spec l (x : Q) :
  let y := foldl (λ a b, if Qle_bool b a then a else b) x l in
  (y = x ∨ y ∈ l) ∧ (x <= y)%Q ∧ Forall (λ z, (z <= y)%Q) l.
Proof.
  revert x. induction l as [|b l IH]; intros x; simpl.
  - split_and!; [by left|apply Qle_refl|constructor].
  - destruct (Qle_bool b x) eqn:Hbx.
    + apply Qle_bool_iff in Hbx. destruct (IH x) as (Hin & Hle & Hall).
      split_and!; [|done|].
      * destruct Hin as [->|Hin]; [by left|]. right. by right.
      * constructor; [|done]. by eapply Qle_trans.
    + assert (x <= b)%Q as Hxb.
      { apply Qlt_le_weak, Qnot_le_lt. intros Hle%Qle_bool_iff. congruence. }
      destruct (IH b) as (Hin & Hle & Hall). split_and!.
      * right. destruct Hin as [->|Hin]; [by left|by right].
      * by eapply Qle_trans.
      * by constructor.
Qed.

Lemma Qmax_list_is_maximum l :
  l ≠ [] → ∃ x, Qmax_list l = Some x ∧ is_maximum x l.
Proof.
  destruct l as [|x l]; [done|]. intros _. eexists. split; [done|].
  destruct (foldl_max_spec l x) as (Hin & Hle & Hall). split.
  - destruct Hin as [->|Hin]; [by left|by right].
  - by constructor.
Qed.

Lemma sides_represented (bs : list bool) :
  (length (remove_dups bs) < 2)%nat ↔ ¬ (true ∈ bs ∧ false ∈ bs).
Proof.
  rewrite <- !(elem_of_remove_dups bs).
  pose proof (NoDup_remove_dups bs) as Hnd.
  destruct (remove_dups bs) as [|a [|b l]]; simpl.
  - split; [|lia]. intros _ [Hin _]. by apply elem_of_nil in Hin.
  - split; [|lia]. intros _ [Ht Hf].
    apply list_elem_of_singleton in Ht, Hf. congruence.
  - split; [lia|]. intros Hboth. exfalso. apply Hboth.
    apply NoDup_cons in Hnd as [Hab _].
    assert (a ≠ b) as Hne by (intros ->; apply Hab; left).
    destruct a, b; try done.
    + split; [left|right; left].
    + split; [right; left|left].
Qed.

Lemma elem_of_carry_sides g (side : bool) :
  side ∈ rg_radiant_player <$> filter (λ r, rg_role r = "Carry") g
  ↔ has_carry side g.
Proof.
  rewrite list_elem_of_fmap. unfold has_carry. split.
  - intros (r & -> & Hr). apply list_elem_of_filter in Hr as [? ?]. by exists r.
  - intros (r & Hr & Hrole & <-). exists r. split; [done|].
    by apply list_elem_of_filter.
Qed.

Lemma carry_deviations_nonempty g side :
  has_carry side g → carry_deviations side g ≠ [].
Proof.
  intros (r & Hr & Hrole & Hside) Hnil. unfold carry_deviations in Hnil.
  apply fmap_nil_inv in Hnil.
  assert (r ∈ filter (λ r, rg_radiant_player r = side ∧ rg_role r = "Carry") g)
    as Hin by by apply list_elem_of_filter.
  rewrite Hnil in Hin. by apply elem_of_nil in Hin.
Qed.

Lemma get_carry_comparison_unknown g :
  get_carry_comparison g = -1 ↔ ¬ (has_carry true g ∧ has_carry false g).
Proof.
  rewrite <- !elem_of_carry_sides, <- sides_represented.
  unfold get_carry_comparison. case_decide as Hlen; [done|].
  split; [|done]. by destruct (gt _ _).
Qed.

Lemma get_carry_comparison_both g :
  has_carry true g → has_carry false g →
  ∃ a b,
    is_maximum a (carry_deviations true g)
    ∧ is_maximum b (carry_deviations false g)
    ∧ get_carry_comparison g = if Qlt_le_dec b a then 1 else 0.
Proof.
  intros Hra Hdi.
  destruct (Qmax_list_is_maximum _ (carry_deviations_nonempty g true Hra))
    as (a & Ha & Hmaxa).
  destruct (Qmax_list_is_maximum _ (carry_deviations_nonempty g false Hdi))
    as (b & Hb & Hmaxb).
  exists a, b. split_and!; [done..|].
  unfold get_carry_comparison. rewrite decide_False; last first.
  { rewrite sides_represented, !elem_of_carry_sides. tauto. }
  rewrite !list_filter_filter. unfold carry_deviations in Ha, Hb.
  rewrite Ha, Hb. unfold gt.
  destruct (Qle_bool a b) eqn:Hab; simpl.
  - apply Qle_bool_iff in Hab. destruct (Qlt_le_dec b a) as [Hlt|]; [|done].
    by apply Qlt_not_le in Hlt.
  - destruct (Qlt_le_dec b a) as [|Hle]; [done|].
    apply Qle_bool_iff in Hle. congruence.
Qed.
End CarryFacts.

Section CarryTableFacts.
Implicit Types (df : list role_gold) (s : list (Z * Z)) (cols : list Z).

Lemma lead_label_radiant c : lead_label c = LStr "Radiant_lead" ↔ c = 1.
Proof.
  unfold lead_label. simpl.
  destruct (decide (-1 = c)), (decide (0 = c)), (decide (1 = c));
    simpl; split; intros; simplify_eq; done.
Qed.

Lemma lead_label_dire c : lead_label c = LStr "Dire_lead" ↔ c = 0.
Proof.
  unfold lead_label. simpl.
  destruct (decide (-1 = c)), (decide (0 = c)), (decide (1 = c));
    simpl; split; intros; simplify_eq; done.
Qed.

(** The position of a renamed column is the position of the value it
    stands for. *)
Lemma find_lead_column cols (name : label) (z : Z) :
  (∀ c, lead_label c = name ↔ c = z) →
  fst <$> list_find (λ c', c' = name) (lead_label <$> cols)
  = fst <$> list_find (λ c, c = z) cols.
Proof.
  intros Hname. rewrite list_find_fmap.
  rewrite (list_find_ext _ (λ c, c = z)) by (intros c; apply Hname).
  by destruct (list_find _ cols) as [[i c]|].
Qed.

Lemma find_column_Some cols (z : Z) (i : nat) :
  fst <$> list_find (λ c, c = z) cols = Some i → cols !! i = Some z.
Proof.
  destruct (list_find _ cols) as [[j c]|] eqn:Hfind; [|done].
  intros [= ->]. by apply list_find_Some in Hfind as (Hc & -> & _).
Qed.

Lemma find_column_is_Some cols (z : Z) :
  is_Some (fst <$> list_find (λ c, c = z) cols) ↔ z ∈ cols.
Proof.
  rewrite fmap_is_Some. split.
  - intros [[i c] Hfind]. apply list_find_Some in Hfind as (Hc & -> & _).
    by eapply list_elem_of_lookup_2.
  - intros Hin. by eapply list_find_elem_of.
Qed.

Lemma dummy_cell cols (v z : Z) (i : nat) :
  cols !! i = Some z →
  default 0 (((λ c, if decide (v = c) then 1 else 0) <$> cols) !! i)
  = indicator (v = z).
Proof. intros Hi. by rewrite list_lookup_fmap, Hi. Qed.

Lemma select_lead_columns s :
  select_columns
    (rename [(-1, "Unknown"); (0, "Dire_lead"); (1, "Radiant_lead")]
            (get_dummies s))
    [LStr "Radiant_lead"; LStr "Dire_lead"]
  = if decide (1 ∈ s.*2 ∧ 0 ∈ s.*2)
    then Some (Frame [LStr "Radiant_lead"; LStr "Dire_lead"]
                 ((λ kv : Z * Z,
                     (kv.1, [indicator (kv.2 = 1); indicator (kv.2 = 0)]))
                  <$> s))
    else None.
Proof.
  unfold select_columns, rename, get_dummies. simpl columns. simpl rows.
  set (cols := sorted_keys s.*2).
  change (λ c, from_option LStr (LInt c) _) with lead_label.
  rewrite !mapM_cons.
  rewrite (find_lead_column cols _ 1 lead_label_radiant).
  rewrite (find_lead_column cols _ 0 lead_label_dire).
  destruct (fst <$> list_find (λ c, c = 1) cols) as [i|] eqn:Hi; simpl.
  - destruct (fst <$> list_find (λ c, c = 0) cols) as [j|] eqn:Hj; simpl.
    + rewrite decide_True.
      * f_equal. f_equal. rewrite <- list_fmap_compose.
        apply list_fmap_ext. intros _ [k v] _. simpl.
        apply find_column_Some in Hi, Hj.
        by rewrite (dummy_cell cols v 1 i), (dummy_cell cols v 0 j).
      * rewrite <- !(elem_of_sorted_keys _ s.*2).
        rewrite <- !find_column_is_Some. fold cols. by rewrite Hi, Hj.
    + rewrite decide_False; [done|]. intros [_ H0].
      rewrite <- (elem_of_sorted_keys _ s.*2) in H0.
      apply find_column_is_Some in H0. fold cols in H0. rewrite Hj in H0.
      by destruct H0.
  - rewrite decide_False; [done|]. intros [H1 _].
    rewrite <- (elem_of_sorted_keys _ s.*2) in H1.
    apply find_column_is_Some in H1. fold cols in H1. rewrite Hi in H1.
    by destruct H1.
Qed.

Lemma construct_carry_comparison_df_eq df :
  construct_carry_comparison_df df
  = let s := carry_status_comparison df in
    if decide (1 ∈ s.*2 ∧ 0 ∈ s.*2)
    then Some (Frame [LStr "Radiant_lead"; LStr "Dire_lead"]
                 ((λ kv : Z * Z,
                     (kv.1, [indicator (kv.2 = 1); indicator (kv.2 = 0)]))
                  <$> s))
    else None.
Proof. apply select_lead_columns. Qed.
End CarryTableFacts.

(** * The claims of the specification *)

(** ** C4: the team-fight count *)

(** C4, as stated, fails: a fight that ends exactly at the threshold is
    among the fights with [end <= threshold] but is not counted. *)
Lemma fight_ending_at_threshold_not_counted :
  construct_num_team_fights [TeamFight 0 540 600] 600 !! Z.to_nat 0
  = Some (0, 0)
  ∧ fights_up_to [TeamFight 0 540 600] 600 0 = 1.
Proof.
  split; [|done].
  rewrite lookup_num_team_fights; [done|]. unfold num_matches. lia.
Qed.

(** C4, amended: for every match [m] of the range, the row [m] of
    [construct_num_team_fights] holds the number of team-fight rows of [m]
    whose end time is strictly less than the threshold; it is an integer,
    and 0 when no row qualifies. *)
Theorem num_team_fights_counts_before df threshold m :
  0 ≤ m < num_matches →
  construct_num_team_fights df threshold !! Z.to_nat m
  = Some (m, Z.of_nat (length (filter (λ f, tf_match_id f = m
                                             ∧ tf_end f < threshold) df))).
Proof. apply lookup_num_team_fights. Qed.

Lemma num_team_fights_counts_before_witness :
  construct_num_team_fights [TeamFight 7 100 200; TeamFight 7 540 600] 600
    !! Z.to_nat 7
  = Some (7, 1).
Proof.
  apply (num_team_fights_counts_before
           [TeamFight 7 100 200; TeamFight 7 540 600] 600 7).
  unfold num_matches. lia.
Defined.

(** ** C5: the window of participant rows and the two sums *)



(** ** C3: matches without a team fight before the threshold *)

(** A match without any participant row gets the row [[0, 0]]. *)
Lemma net_death_count_absent_match tfp counts t m :
  construct_net_death_count_from_teamfights tfp counts = Some t →
  0 ≤ m < num_matches →
  m ∉ tp_match_id <$> tfp →
  t !! Z.to_nat m = Some (m, [0; 0]).
Proof.
  intros Ht Hm Habsent. rewrite (lookup_net_death_count tfp counts t m Ht Hm).
  by rewrite decide_False.
Qed.

(** C3 fails on the code for a match that has participant rows but no
    team fight before the threshold.  The only fight of match 0 ends at
    700, so its count is 0; the slice [iloc[:0 * 10 - 1]] is [iloc[:-1]]
    and keeps nine of the ten participant rows, and the row of match 0 is
    [[5, 4]], not [[0, 0]]. *)
Theorem net_death_count_late_fight :
  construct_num_team_fights late_fights 600 !! Z.to_nat 0 = Some (0, 0)
  ∧ ∃ t,
      construct_net_death_count_from_teamfights late_fight_players
        (construct_num_team_fights late_fights 600) = Some t
      ∧ t !! Z.to_nat 0 = Some (0, [5; 4]).
Proof.
  assert (0 ≤ 0 < num_matches) as H0 by (unfold num_matches; lia).
  split; [by rewrite lookup_num_team_fights|].
  destruct (net_death_count_total late_fight_players late_fights 600)
    as [t Ht].
  { done. }
  { repeat constructor; simpl; unfold num_matches; lia. }
  exists t. split; [done|].
  rewrite (lookup_net_death_count _ _ t 0 Ht H0).
  rewrite decide_True by (vm_compute; left).
  rewrite (get_net_death_count_no_fight _ _ 0).
  - done.
  - done.
  - repeat constructor.
  - by rewrite iloc_num_team_fights.
Qed.

(** ** C9: the hero selection vector *)

(** C9: for a match with five Radiant and five Dire players whose hero
    identifiers are distinct and lie in [1 .. H], [get_hero_selection]
    returns a row of length [2 * H] with exactly ten entries equal to 1:
    entry [i] is 1 when [i] is [h - 1] for a Radiant hero [h] or
    [h - 1 + H] for a Dire hero [h], and 0 otherwise. *)
Theorem hero_selection_exact (g : list player) (H : nat) :
  length (radiant_picks g) = 5%nat →
  length (dire_picks g) = 5%nat →
  NoDup (pl_hero_id <$> g) →
  Forall (λ p, 1 ≤ pl_hero_id p ≤ Z.of_nat H) g →
  ∃ row,
    get_hero_selection g H = Some row
    ∧ length row = (2 * H)%nat
    ∧ length (filter (λ x, x = 1) row) = 10%nat
    ∧ ∀ i, (i < 2 * H)%nat →
        row !! i
        = Some (if decide (i ∈ ((λ h, Z.to_nat (h - 1)) <$> radiant_picks g)
                               ++ ((λ h, Z.to_nat (h - 1 + Z.of_nat H))
                                     <$> dire_picks g))
                then 1 else 0).
Proof. apply hero_selection_row. Qed.

Lemma hero_selection_exact_witness :
  ∃ row,
    get_hero_selection full_match 12 = Some row
    ∧ length row = 24%nat
    ∧ length (filter (λ x, x = 1) row) = 10%nat
    ∧ ∀ i, (i < 24)%nat →
        row !! i
        = Some (if decide (i ∈ [0; 1; 2; 3; 4; 17; 18; 19; 20; 21]%nat)
                then 1 else 0).
Proof.
  apply (hero_selection_exact full_match 12).
  - reflexivity.
  - reflexivity.
  - apply (bool_decide_unpack _). vm_compute. exact I.
  - repeat constructor; simpl; lia.
Defined.

(** ** C2: the row of the attribute table read for a hero *)

(** What the code reads: the role of a player is the major role of the
    row at position [hero_id] of the attribute table. *)
Lemma get_game_hero_info_role players (attr : attribute_table) infos
    (i : nat) p :
  get_game_hero_info players attr = Some infos →
  players !! i = Some p →
  0 ≤ pl_hero_id p →
  ∃ row info,
    at_rows attr !! Z.to_nat (pl_hero_id p) = Some row
    ∧ infos !! i = Some info
    ∧ Some (hi_role info) = major_role (at_roles attr) row.
Proof.
  unfold get_game_hero_info. intros Hinfos Hp Hpos.
  destruct (mapM (major_role _) _) as [major_roles|] eqn:Hmajor; [|done].
  simpl in Hinfos. apply mapM_Some_1 in Hinfos. apply mapM_Some_1 in Hmajor.
  destruct (Forall2_lookup_l _ _ _ _ _ Hinfos Hp) as (info & Hinfo & Hrole).
  destruct (iloc major_roles (pl_hero_id p)) as [role|] eqn:Hiloc; [|done].
  simpl in Hrole. simplify_eq. unfold iloc, norm_index in Hiloc.
  destruct (decide (0 ≤ pl_hero_id p < _)); [|case_decide; [lia|done]].
  simpl in Hiloc.
  destruct (Forall2_lookup_r _ _ _ _ _ Hmajor Hiloc) as (row & Hrow & Hr).
  exists row. eexists. split_and!; [done..|]. by simpl.
Qed.

(** C2 fails on the code.  With hero 1 a carry (row 0 of the table) and
    hero 2 a support (row 1), a Radiant player on hero 1 is given the role
    and the attributes of row 1, the row of hero 2, where the row
    [hero_id - 1] is row 0; and a player on hero 2, the last hero, makes
    both functions raise. *)
Theorem hero_attribute_lookup_off_by_one :
  major_role (at_roles two_heroes) [1; 0] = Some "Carry"
  ∧ at_rows two_heroes !! Z.to_nat (1 - 1) = Some [1; 0]
  ∧ get_game_hero_info [Player 0 1 0 true] two_heroes
    = Some [HeroInfo 0 1 0 true "Support"]
  ∧ get_game_hero_composition [Player 0 1 0 true] two_heroes
    = Some [0; 1; 0; 0]
  ∧ get_game_hero_info [Player 0 2 0 true] two_heroes = None
  ∧ get_game_hero_composition [Player 0 2 0 true] two_heroes = None.
Proof. split_and!; reflexivity. Qed.

(** ** C1: the row labels of the tables *)

(** C1, as stated, fails.  Match 1 has no wealth sample up to 600 seconds,
    and the max-wealth table has the rows 0 and 2 only; the first-blood
    table has one row per early first-blood event, under the row labels of
    the events in the objectives table. *)
Lemma index_not_match_range :
  (construct_x_seconds_max_wealth (construct_x_seconds_df sparse_wealth 600)).*1
  = [0; 2]
  ∧ (construct_x_seconds_max_wealth (construct_x_seconds_df sparse_wealth 600)).*1
    ≠ match_range
  ∧ (construct_ten_min_firstblood_df two_first_bloods).*1 = [1; 3]
  ∧ (construct_ten_min_firstblood_df two_first_bloods).*1 ≠ match_range.
Proof.
  assert (∀ a b : Z, [a; b] ≠ match_range) as Hne.
  { intros a b Heq. apply (f_equal length) in Heq.
    unfold match_range, num_matches in Heq. rewrite length_seqZ in Heq.
    simpl length in Heq. lia. }
  assert ((construct_x_seconds_max_wealth
             (construct_x_seconds_df sparse_wealth 600)).*1 = [0; 2]) as ->
    by (vm_compute; reflexivity).
  assert ((construct_ten_min_firstblood_df two_first_bloods).*1 = [1; 3]) as ->
    by (vm_compute; reflexivity).
  split_and!; [done|apply Hne|done|apply Hne].
Qed.

(** C1, amended: the tables that are built on [range(50000)] are labelled
    by exactly [0 .. N-1], in this order, whatever matches have rows in
    the source tables: the table of [construct_num_team_fights] always;
    the table of [construct_net_death_count_from_teamfights], which
    exists for a participant table with at least one row and match
    identifiers in the range (on a table without rows the code raises);
    and the frames of [construct_hero_selection_df],
    [construct_hero_composition_df] and [construct_role_check_df]
    whenever they are built.  The max-wealth table is labelled by the
    match identifiers that have a row in its input, each once and
    ascending; the first-blood table has exactly one row per first-blood
    event up to 600 seconds, in the order of the events and labelled as
    the event is in the objectives table. *)
Theorem aggregator_row_labels :
  (∀ df threshold, (construct_num_team_fights df threshold).*1 = match_range)
  ∧ (∀ tfp df threshold,
       tfp ≠ [] →
       Forall (λ r, 0 ≤ tp_match_id r < num_matches) tfp →
       ∃ t, construct_net_death_count_from_teamfights tfp
              (construct_num_team_fights df threshold) = Some t
            ∧ t.*1 = match_range)
  ∧ (∀ counts, construct_net_death_count_from_teamfights [] counts = None)
  ∧ (∀ tfp counts t,
       construct_net_death_count_from_teamfights tfp counts = Some t →
       t.*1 = match_range)
  ∧ (∀ players_df heros_chart fr,
       construct_hero_selection_df players_df heros_chart = Some fr →
       (rows fr).*1 = match_range)
  ∧ (∀ players_df hero_attribute_df fr,
       construct_hero_composition_df players_df hero_attribute_df = Some fr →
       (rows fr).*1 = match_range)
  ∧ (∀ game_hero_info_df fr,
       construct_role_check_df game_hero_info_df = Some fr →
       (rows fr).*1 = match_range)
  ∧ (∀ xdf,
       (construct_x_seconds_max_wealth xdf).*1 = sorted_keys (w_match_id <$> xdf)
       ∧ NoDup (construct_x_seconds_max_wealth xdf).*1
       ∧ StronglySorted Z.le (construct_x_seconds_max_wealth xdf).*1
       ∧ ∀ k, k ∈ (construct_x_seconds_max_wealth xdf).*1
              ↔ ∃ r, r ∈ xdf ∧ w_match_id r = k)
  ∧ (∀ odf,
       (∀ l row,
          (l, row) ∈ construct_ten_min_firstblood_df odf
          ↔ ∃ (i : nat) (r : objective),
              odf !! i = Some r
              ∧ (ob_time r ≤ 600 ∧ ob_subtype r = "CHAT_MESSAGE_FIRSTBLOOD")
              ∧ l = Z.of_nat i
              ∧ row = (ob_match_id r, if decide (ob_slot r < 5) then 1 else 0))
       ∧ StronglySorted Z.lt (construct_ten_min_firstblood_df odf).*1
       ∧ length (construct_ten_min_firstblood_df odf)
         = length (filter (λ r, ob_time r ≤ 600
                                ∧ ob_subtype r = "CHAT_MESSAGE_FIRSTBLOOD")
                          odf)).
Proof.
  split_and!.
  - intros df threshold. apply reindex_index.
  - intros tfp df threshold Hrows Hrange.
    destruct (net_death_count_total tfp df threshold Hrows Hrange) as [t Ht].
    exists t. split; [done|]. by eapply net_death_count_index.
  - done.
  - intros tfp counts t. apply net_death_count_index.
  - intros players_df heros_chart fr Hfr.
    by apply hero_selection_df_rows in Hfr as [? _].
  - intros players_df hero_attribute_df fr Hfr.
    unfold construct_hero_composition_df in Hfr.
    by apply frame_on_match_range_labels in Hfr as [? _].
  - intros game_hero_info_df fr Hfr. unfold construct_role_check_df in Hfr.
    by apply frame_on_match_range_labels in Hfr as [? _].
  - intros xdf. rewrite max_wealth_index. split_and!.
    + done.
    + apply NoDup_sorted_keys.
    + apply sorted_keys_ascending.
    + intros k. rewrite elem_of_sorted_keys, list_elem_of_fmap. split.
      * intros (r & -> & Hr). by exists r.
      * intros (r & Hr & <-). by exists r.
  - intros odf. split_and!.
    + apply elem_of_ten_min_firstblood.
    + apply ten_min_firstblood_rows.
    + apply ten_min_firstblood_rows.
Qed.

Lemma aggregator_row_labels_witness :
  ∃ t, construct_net_death_count_from_teamfights late_fight_players
         (construct_num_team_fights late_fights 600) = Some t
       ∧ t.*1 = match_range.
Proof.
  apply (proj1 (proj2 aggregator_row_labels)).
  - done.
  - repeat constructor; simpl; unfold num_matches; lia.
Defined.

(** ** C7: the differences that enter the gold-growth statistics *)




(** ** C8: independence of the matches *)

(** C8 fails on the code.  [diff] runs over the whole table, so the first
    sample of a match is compared with the last sample of the match before
    it.  The two tables have the same rows for match 1 and differ in the
    one row of match 0; the values of the gold column handed to the
    statistics of match 1 are [-100, 50] on the first table and [50] on
    the second, and the means are -25 and 50. *)
Theorem gold_growth_depends_on_previous_match (std : list Z → option Q) :
  filter (λ r, w_match_id r = 1) quiet_start
  = filter (λ r, w_match_id r = 1) quiet_start'
  ∧ construct_x_seconds_gold_growth_benchmark exact_mean std quiet_start
    = [(1, [Some (-25 # 1)%Q; std [-100; 50]])]
  ∧ construct_x_seconds_gold_growth_benchmark exact_mean std quiet_start'
    = [(1, [Some (50 # 1)%Q; std [50]])].
Proof. split_and!; vm_compute; reflexivity. Qed.

(** ** C6: the comparison of the carries *)

(** C6: [get_carry_comparison] returns -1 exactly when the carries of the
    match are not on both sides.  When they are, it returns 1 if the
    maximum gold deviation of the Radiant carries is strictly greater than
    that of the Dire carries and 0 otherwise, a tie included.  When
    [construct_carry_comparison_df] returns a table, its columns are
    [Radiant_lead] and [Dire_lead], and the row of a match holds the
    indicators of the outcomes 1 and 0: both are 0 for the outcome -1. *)
Theorem carry_comparison_outcomes :
  (∀ g, get_carry_comparison g = -1
        ↔ ¬ (has_carry true g ∧ has_carry false g))
  ∧ (∀ g, has_carry true g → has_carry false g →
       ∃ a b,
         is_maximum a (carry_deviations true g)
         ∧ is_maximum b (carry_deviations false g)
         ∧ (get_carry_comparison g = 1 ↔ (b < a)%Q)
         ∧ (get_carry_comparison g = 0 ↔ (a <= b)%Q))
  ∧ (∀ df fr,
       construct_carry_comparison_df df = Some fr →
       columns fr = [LStr "Radiant_lead"; LStr "Dire_lead"]
       ∧ rows fr
         = (λ kg : Z * list role_gold,
              (kg.1, [if decide (get_carry_comparison kg.2 = 1) then 1 else 0;
                      if decide (get_carry_comparison kg.2 = 0) then 1 else 0]))
           <$> groupby rg_match_id df
       ∧ ∀ k g, (k, g) ∈ groupby rg_match_id df →
                get_carry_comparison g = -1 →
                (k, [0; 0]) ∈ rows fr).
Proof.
  split_and!.
  - apply get_carry_comparison_unknown.
  - intros g Hra Hdi.
    destruct (get_carry_comparison_both g Hra Hdi) as (a & b & Ha & Hb & Hout).
    exists a, b. split_and!; [done..| |]; rewrite Hout.
    + destruct (Qlt_le_dec b a) as [Hlt|Hle]; [done|].
      split; [done|]. intros Hlt. by apply Qlt_not_le in Hlt.
    + destruct (Qlt_le_dec b a) as [Hlt|Hle]; [|done].
      split; [done|]. intros Hle. by apply Qlt_not_le in Hlt.
  - intros df fr. rewrite construct_carry_comparison_df_eq. simpl.
    case_decide; [|done]. intros [= <-]. simpl.
    assert (∀ l : list (Z * list role_gold),
      (λ kv : Z * Z, (kv.1, [indicator (kv.2 = 1); indicator (kv.2 = 0)]))
        <$> ((λ kg : Z * list role_gold, (kg.1, get_carry_comparison kg.2)) <$> l)
      = (λ kg : Z * list role_gold,
           (kg.1, [if decide (get_carry_comparison kg.2 = 1) then 1 else 0;
                   if decide (get_carry_comparison kg.2 = 0) then 1 else 0]))
        <$> l) as Hrows.
    { intros l. by rewrite <- list_fmap_compose. }
    unfold carry_status_comparison. rewrite Hrows. split_and!; [done..|].
    intros k g Hin Hout. apply list_elem_of_fmap. exists (k, g).
    split; [|done]. simpl. by rewrite Hout.
Qed.

Lemma carry_comparison_outcomes_witness :
  (∃ a b,
     is_maximum a (carry_deviations true (take 2 three_carry_matches))
     ∧ is_maximum b (carry_deviations false (take 2 three_carry_matches))
     ∧ (get_carry_comparison (take 2 three_carry_matches) = 1 ↔ (b < a)%Q)
     ∧ (get_carry_comparison (take 2 three_carry_matches) = 0 ↔ (a <= b)%Q))
  ∧ ∃ fr, construct_carry_comparison_df three_carry_matches = Some fr
          ∧ columns fr = [LStr "Radiant_lead"; LStr "Dire_lead"]
          ∧ rows fr = [(0, [1; 0]); (1, [0; 1]); (2, [0; 0])].
Proof.
  split.
  - apply (proj1 (proj2 carry_comparison_outcomes) (take 2 three_carry_matches)).
    + eexists. split_and!; [left|reflexivity|reflexivity].
    + eexists. split_and!; [right; left|reflexivity|reflexivity].
  - eexists. split; [reflexivity|].
    destruct (proj2 (proj2 carry_comparison_outcomes) three_carry_matches _
                eq_refl) as (Hcols & Hrows & _).
    split; [exact Hcols|exact Hrows].
Defined.

(** ** C10: the columns of the carry comparison table *)

(** C10: [construct_carry_comparison_df] returns a table exactly when some
    match has the outcome 1 and some match has the outcome 0; the table
    then has the columns [Radiant_lead] and [Dire_lead] and no other.
    When no match has the outcome 1, or no match has the outcome 0, the
    selection of the two columns raises and there is no table. *)
Theorem carry_comparison_columns (df : list role_gold) :
  let outcome (v : Z) :=
    ∃ k g, (k, g) ∈ groupby rg_match_id df ∧ get_carry_comparison g = v in
  (is_Some (construct_carry_comparison_df df) ↔ outcome 1 ∧ outcome 0)
  ∧ (∀ fr, construct_carry_comparison_df df = Some fr →
           columns fr = [LStr "Radiant_lead"; LStr "Dire_lead"])
  ∧ (¬ outcome 1 ∨ ¬ outcome 0 → construct_carry_comparison_df df = None).
Proof.
  intros outcome.
  assert (∀ v, v ∈ (carry_status_comparison df).*2 ↔ outcome v) as Hout.
  { intros v. unfold carry_status_comparison, outcome.
    rewrite <- list_fmap_compose, list_elem_of_fmap. split.
    - intros ([k g] & -> & Hin). by exists k, g.
    - intros (k & g & Hin & <-). by exists (k, g). }
  rewrite construct_carry_comparison_df_eq. simpl. rewrite <- !Hout.
  case_decide as Hboth; split_and!.
  - split; [done|]. by eexists.
  - by intros fr [= <-].
  - tauto.
  - split; [by intros [? ?]|done].
  - done.
  - done.
Qed.

Lemma carry_comparison_columns_witness :
  ∃ fr, construct_carry_comparison_df three_carry_matches = Some fr
        ∧ columns fr = [LStr "Radiant_lead"; LStr "Dire_lead"].
Proof.
  eexists. split; [reflexivity|].
  apply (carry_comparison_columns three_carry_matches). reflexivity.
Defined.

(** Without the tied match no match has the outcome 0, and there is no
    table. *)
Example carry_comparison_without_dire_lead :
  carry_status_comparison (take 2 three_carry_matches ++ drop 4 three_carry_matches)
  = [(0, 1); (2, -1)]
  ∧ construct_carry_comparison_df
      (take 2 three_carry_matches ++ drop 4 three_carry_matches) = None.
Proof. split; vm_compute; reflexivity. Qed.
(** * Further properties of the code *)

(** ** Team fights: counts *)

Lemma length_filter_impl {A} (P Q : A → Prop) `{!∀ x, Decision (P x)}
    `{!∀ x, Decision (Q x)} (l : list A) :
  (∀ x, P x → Q x) → (length (filter P l) ≤ length (filter Q l))%nat.
Proof.
  intros HPQ. induction l as [|x l IH]; [done|]. rewrite !filter_cons.
  destruct (decide (P x)) as [HP|HP], (decide (Q x)) as [HQ|HQ]; simpl;
    [lia|by destruct HQ; auto|lia|lia].
Qed.

(** X1: The counts grow with the threshold and never exceed the number of
    team-fight rows of the match. *)
Theorem num_team_fights_monotone (df : list team_fight) (t1 t2 m : Z) :
  0 ≤ m < num_matches →
  t1 ≤ t2 →
  ∃ c1 c2,
    construct_num_team_fights df t1 !! Z.to_nat m = Some (m, c1)
    ∧ construct_num_team_fights df t2 !! Z.to_nat m = Some (m, c2)
    ∧ 0 ≤ c1 ≤ c2
    ∧ c2 ≤ Z.of_nat (length (filter (λ f, tf_match_id f = m) df)).
Proof.
  intros Hm Ht. eexists _, _. split_and!.
  - by apply lookup_num_team_fights.
  - by apply lookup_num_team_fights.
  - unfold fights_before. lia.
  - unfold fights_before. apply inj_le, length_filter_impl. intros f [? ?]. lia.
  - unfold fights_before. apply inj_le, length_filter_impl. by intros f [? ?].
Qed.

Lemma Zsum_indicator (k : Z) (ks : list Z) :
  NoDup ks →
  Zsum ((λ m, if decide (k = m) then 1 else 0) <$> ks)
  = if decide (k ∈ ks) then 1 else 0.
Proof.
  induction 1 as [|m ks Hm Hnd IH]; csimpl.
  - destruct (decide (k ∈ [])) as [Hin|]; [by apply elem_of_nil in Hin|done].
  - rewrite IH.
    destruct (decide (k ∈ ks)) as [Hin|Hin],
             (decide (k ∈ m :: ks)) as [Hin'|Hin'],
             (decide (k = m)) as [->|Hne]; try done; exfalso;
      first [ by apply Hin'; left | by apply Hin'; right
            | by apply elem_of_cons in Hin' as [?|?] ].
Qed.

Lemma Zsum_fmap_add {A} (f g : A → Z) (l : list A) :
  Zsum ((λ x, f x + g x) <$> l) = Zsum (f <$> l) + Zsum (g <$> l).
Proof. induction l as [|x l IH]; csimpl; [done|]. rewrite IH. lia. Qed.

Lemma Zsum_filter_counts {A} (key : A → Z) (P : A → Prop)
    `{!∀ x, Decision (P x)} (df : list A) (ks : list Z) :
  NoDup ks →
  Zsum ((λ m, Z.of_nat (length (filter (λ f, key f = m ∧ P f) df))) <$> ks)
  = Z.of_nat (length (filter (λ f, key f ∈ ks ∧ P f) df)).
Proof.
  intros Hnd. induction df as [|f df IH].
  - simpl. induction ks as [|k ks IHks]; [done|].
    csimpl. apply NoDup_cons in Hnd as [_ Hnd]. by rewrite IHks.
  - rewrite filter_cons.
    transitivity
      (Zsum ((λ m, (if decide (key f = m) then if decide (P f) then 1 else 0
                    else 0)
                   + Z.of_nat (length (filter (λ f, key f = m ∧ P f) df)))
             <$> ks)).
    { f_equal. apply list_fmap_ext. intros _ m _. rewrite filter_cons.
      destruct (decide (key f = m)), (decide (P f));
        destruct (decide (_ ∧ _)) as [[? ?]|Hn]; simpl; try done; try lia;
        destruct Hn; done. }
    rewrite Zsum_fmap_add, IH.
    destruct (decide (P f)) as [HP|HP].
    + rewrite (Zsum_indicator (key f) ks Hnd).
      destruct (decide (key f ∈ ks));
        destruct (decide (_ ∧ _)) as [[? ?]|Hn]; simpl; try done; try lia.
      destruct Hn; done.
    + assert (Zsum ((λ m : Z, if decide (key f = m) then 0 else 0) <$> ks) = 0)
        as ->.
      { clear. induction ks as [|k ks IHks]; csimpl; [done|].
        rewrite IHks. by destruct (decide _). }
      destruct (decide (_ ∧ _)) as [[? ?]|Hn]; [done|]. simpl. lia.
Qed.

(** X2: The counts add up to the number of team fights that end before the
    threshold and belong to a match of the range: a fight of a match
    outside [0 .. N-1] is counted nowhere. *)
Theorem num_team_fights_total (df : list team_fight) (threshold : Z) :
  Zsum (construct_num_team_fights df threshold).*2
  = Z.of_nat (length (filter (λ f, 0 ≤ tf_match_id f < num_matches
                                   ∧ tf_end f < threshold) df)).
Proof.
  transitivity
    (Zsum ((λ m, Z.of_nat (length (filter (λ f, tf_match_id f = m
                                                ∧ tf_end f < threshold) df)))
           <$> match_range)).
  - f_equal. apply list_eq. intros i.
    rewrite !list_lookup_fmap. unfold match_range.
    destruct (decide (Z.of_nat i < num_matches)) as [Hi|Hi].
    + rewrite lookup_seqZ_lt by done. simpl.
      replace i with (Z.to_nat (Z.of_nat i)) at 1 by lia.
      rewrite lookup_num_team_fights by lia. simpl. done.
    + rewrite lookup_seqZ_ge by lia. simpl.
      rewrite (proj2 (lookup_ge_None _ _)); [done|].
      rewrite length_num_team_fights. lia.
  - rewrite Zsum_filter_counts by apply NoDup_seqZ.
    do 2 f_equal. apply list_filter_iff. intros f. unfold match_range.
    rewrite elem_of_seqZ. lia.
Qed.

Lemma num_team_fights_monotone_witness :
  ∃ c1 c2,
    construct_num_team_fights late_fights 600 !! Z.to_nat 0 = Some (0, c1)
    ∧ construct_num_team_fights late_fights 900 !! Z.to_nat 0 = Some (0, c2)
    ∧ 0 ≤ c1 ≤ c2
    ∧ c2 ≤ Z.of_nat (length (filter (λ f, tf_match_id f = 0) late_fights)).
Proof.
  apply (num_team_fights_monotone late_fights 600 900 0).
  - unfold num_matches. lia.
  - lia.
Defined.

(** ** Team fights: the net death counts *)

(** [get_net_death_count] raises exactly on an empty group and on a match
    identifier that is no position of the count table. *)
Theorem get_net_death_count_raises (g : list teamfight_player)
    (counts : list (Z * Z)) :
  get_net_death_count g counts = None
  ↔ g = []
    ∨ ¬ (- Z.of_nat (length counts)
         ≤ Z.quot (Zsum (tp_match_id <$> g)) (Z.of_nat (length g))
         < Z.of_nat (length counts)).
Proof.
  unfold get_net_death_count, mean_match_id.
  destruct g as [|r g]; [split; [by left|done]|].
  set (m := Z.quot _ _). simpl. unfold iloc, norm_index.
  destruct (decide (0 ≤ m < Z.of_nat (length counts))) as [Hm|Hm].
  - simpl. destruct (counts !! Z.to_nat m) as [[k c]|] eqn:Hc.
    + simpl. split; [by case_decide|]. intros [?|?]; [done|lia].
    + apply lookup_ge_None in Hc. lia.
  - destruct (decide (- Z.of_nat (length counts) ≤ m < 0)) as [Hm'|Hm'].
    + simpl.
      destruct (counts !! Z.to_nat (m + Z.of_nat (length counts)))
        as [[k c]|] eqn:Hc.
      * simpl. split; [by case_decide|]. intros [?|?]; [done|lia].
      * apply lookup_ge_None in Hc. lia.
    + simpl. split; [|done]. intros _. right. lia.
Qed.



Lemma get_net_death_count_is_Some_group (g : list teamfight_player)
    (counts : list (Z * Z)) (m : Z) :
  g ≠ [] →
  Forall (λ r, tp_match_id r = m) g →
  is_Some (get_net_death_count g counts)
  ↔ - Z.of_nat (length counts) ≤ m < Z.of_nat (length counts).
Proof.
  intros Hne Hall. unfold get_net_death_count.
  rewrite (mean_match_id_group g m Hne Hall). simpl. unfold iloc, norm_index.
  destruct (decide (0 ≤ m < Z.of_nat (length counts))) as [Hm|Hm].
  - simpl. destruct (counts !! Z.to_nat m) as [[k c]|] eqn:Hc.
    + simpl. split; [lia|]. intros _. by case_decide.
    + apply lookup_ge_None in Hc. lia.
  - destruct (decide (- Z.of_nat (length counts) ≤ m < 0)) as [Hm'|Hm'].
    + simpl.
      destruct (counts !! Z.to_nat (m + Z.of_nat (length counts)))
        as [[k c]|] eqn:Hc.
      * simpl. split; [lia|]. intros _. by case_decide.
      * apply lookup_ge_None in Hc. lia.
    + simpl. split; [by intros [? ?]|lia].
Qed.

(** X4: [construct_net_death_count_from_teamfights] returns a table exactly
    when the participant table has a row and every match identifier of
    it is a position of the count table, [-len .. len - 1]; otherwise it
    raises. *)
Theorem net_death_count_table_raises (tfp : list teamfight_player)
    (counts : list (Z * Z)) :
  is_Some (construct_net_death_count_from_teamfights tfp counts)
  ↔ tfp ≠ []
    ∧ Forall (λ r, - Z.of_nat (length counts) ≤ tp_match_id r
                   < Z.of_nat (length counts)) tfp.
Proof.
  unfold construct_net_death_count_from_teamfights.
  destruct (decide (length tfp = 0%nat)) as [Hnil|Hrows].
  { apply length_zero_iff_nil in Hnil. split; [by intros [? ?]|].
    by intros [? _]. }
  assert (tfp ≠ []) as Hne by (by intros ->).
  transitivity
    (is_Some (mapM (λ kg : Z * list teamfight_player,
                      pair kg.1 <$> get_net_death_count kg.2 counts)
                   (groupby tp_match_id tfp))).
  { destruct (mapM _ _); split; intros [? ?]; by eauto. }
  rewrite mapM_is_Some, !Forall_forall. split.
  - intros Hall. split; [done|]. intros r Hr.
    assert ((tp_match_id r, filter (λ r', tp_match_id r' = tp_match_id r) tfp)
            ∈ groupby tp_match_id tfp) as Hin.
    { apply elem_of_groupby. split; [|done].
      apply list_elem_of_fmap. by exists r. }
    pose proof (groupby_group _ _ _ _ Hin) as [Hg Hsame].
    specialize (Hall _ Hin). simpl in Hall. apply fmap_is_Some in Hall.
    by apply (get_net_death_count_is_Some_group _ _ _ Hg Hsame).
  - intros [_ Hall] [k g] Hin. simpl. apply fmap_is_Some.
    pose proof (groupby_group _ _ _ _ Hin) as [Hg Hsame].
    apply (get_net_death_count_is_Some_group _ _ _ Hg Hsame).
    apply elem_of_groupby in Hin as [Hk _].
    apply list_elem_of_fmap in Hk as (r & -> & Hr). by apply Hall.
Qed.

Lemma get_net_death_count_counts (g : list teamfight_player)
    (counts1 counts2 : list (Z * Z)) (m : Z) :
  g ≠ [] →
  Forall (λ r, tp_match_id r = m) g →
  snd <$> iloc counts1 m = snd <$> iloc counts2 m →
  get_net_death_count g counts1 = get_net_death_count g counts2.
Proof.
  intros Hne Hall Hc. unfold get_net_death_count.
  rewrite (mean_match_id_group g m Hne Hall). simpl. by rewrite Hc.
Qed.

(** X5: The row of a match in the net death count table depends on the
    participant rows of that match and on its team-fight count only: two
    runs that agree on these give the match the same row, whatever the
    rows of the other matches are. *)
Theorem net_death_count_independent (tfp1 tfp2 : list teamfight_player)
    (counts1 counts2 : list (Z * Z)) (t1 t2 : list (Z * list Z)) (m : Z) :
  construct_net_death_count_from_teamfights tfp1 counts1 = Some t1 →
  construct_net_death_count_from_teamfights tfp2 counts2 = Some t2 →
  0 ≤ m < num_matches →
  filter (λ r, tp_match_id r = m) tfp1 = filter (λ r, tp_match_id r = m) tfp2 →
  snd <$> iloc counts1 m = snd <$> iloc counts2 m →
  t1 !! Z.to_nat m = t2 !! Z.to_nat m.
Proof.
  intros Ht1 Ht2 Hm Hrows Hc.
  rewrite (lookup_net_death_count _ _ _ _ Ht1 Hm).
  rewrite (lookup_net_death_count _ _ _ _ Ht2 Hm).
  assert (∀ tfp : list teamfight_player,
            m ∈ tp_match_id <$> tfp ↔ filter (λ r, tp_match_id r = m) tfp ≠ [])
    as Hmem.
  { intros tfp. split.
    - intros (r & -> & Hr)%list_elem_of_fmap Hnil.
      assert (r ∈ filter (λ r', tp_match_id r' = tp_match_id r) tfp) as Hin
        by by apply list_elem_of_filter.
      rewrite Hnil in Hin. by apply elem_of_nil in Hin.
    - intros Hne. destruct (filter _ tfp) as [|r l] eqn:Hf; [done|].
      assert (r ∈ filter (λ r', tp_match_id r' = m) tfp) as Hin
        by (rewrite Hf; left).
      apply list_elem_of_filter in Hin as [<- Hin].
      apply list_elem_of_fmap. by exists r. }
  destruct (decide (m ∈ tp_match_id <$> tfp1)) as [Hin1|Hin1],
           (decide (m ∈ tp_match_id <$> tfp2)) as [Hin2|Hin2].
  - rewrite <- Hrows. do 3 f_equal.
    apply (get_net_death_count_counts _ _ _ m); [by apply Hmem| |done].
    apply Forall_forall. intros r Hr. by apply list_elem_of_filter in Hr as [? _].
  - exfalso. apply Hin2, Hmem. rewrite <- Hrows. by apply Hmem.
  - exfalso. apply Hin1, Hmem. rewrite Hrows. by apply Hmem.
  - done.
Qed.

Lemma net_death_count_independent_witness :
  ∃ t1 t2,
    construct_net_death_count_from_teamfights late_fight_players
      (construct_num_team_fights late_fights 600) = Some t1
    ∧ construct_net_death_count_from_teamfights
        (late_fight_players ++ [TeamfightPlayer 7 0 3])
        (construct_num_team_fights (late_fights ++ [TeamFight 7 100 130]) 600)
      = Some t2
    ∧ t1 !! Z.to_nat 0 = t2 !! Z.to_nat 0.
Proof.
  destruct (net_death_count_total late_fight_players late_fights 600)
    as [t1 Ht1].
  { done. }
  { repeat constructor; simpl; unfold num_matches; lia. }
  destruct (net_death_count_total
              (late_fight_players ++ [TeamfightPlayer 7 0 3])
              (late_fights ++ [TeamFight 7 100 130]) 600) as [t2 Ht2].
  { done. }
  { repeat constructor; simpl; unfold num_matches; lia. }
  exists t1, t2. split_and!; [exact Ht1|exact Ht2|].
  apply (net_death_count_independent _ _ _ _ t1 t2 0 Ht1 Ht2).
  - unfold num_matches. lia.
  - reflexivity.
  - rewrite !iloc_num_team_fights by (unfold num_matches; lia). reflexivity.
Defined.

(** ** Hero selection *)

Lemma norm_index_Some (n : nat) (i : Z) (k : nat) :
  norm_index n i = Some k
  ↔ (0 ≤ i < Z.of_nat n ∧ k = Z.to_nat i)
    ∨ (- Z.of_nat n ≤ i < 0 ∧ k = Z.to_nat (i + Z.of_nat n)).
Proof.
  unfold norm_index.
  destruct (decide (0 ≤ i < Z.of_nat n)) as [H1|H1];
    [|destruct (decide (- Z.of_nat n ≤ i < 0)) as [H2|H2]].
  - split.
    + intros [= <-]. by left.
    + intros [[_ ->]|[? _]]; [done|lia].
  - split.
    + intros [= <-]. by right.
    + intros [[? _]|[_ ->]]; [lia|done].
  - split; [done|]. intros [[? _]|[? _]]; lia.
Qed.

Lemma norm_index_lt (n : nat) (i : Z) (k : nat) :
  norm_index n i = Some k → (k < n)%nat.
Proof. rewrite norm_index_Some. lia. Qed.

Lemma norm_index_is_Some (n : nat) (i : Z) :
  is_Some (norm_index n i) ↔ - Z.of_nat n ≤ i < Z.of_nat n.
Proof.
  unfold norm_index.
  destruct (decide (0 ≤ i < Z.of_nat n)) as [H1|H1];
    [|destruct (decide (- Z.of_nat n ≤ i < 0)) as [H2|H2]].
  - split; [lia|by eexists].
  - split; [lia|by eexists].
  - split; [by intros [? ?]|lia].
Qed.

Lemma selection_indices (g : list player) (H : nat) (i : Z) :
  i ∈ ((λ p, pl_hero_id p - 1) <$> filter (λ p, pl_radiant_player p = true) g)
      ++ ((λ p, pl_hero_id p + Z.of_nat H - 1)
            <$> filter (λ p, pl_radiant_player p = false) g)
  ↔ ∃ p, p ∈ g ∧ selection_index H p = i.
Proof.
  rewrite elem_of_app, !list_elem_of_fmap. unfold selection_index. split.
  - intros [(p & -> & Hp)|(p & -> & Hp)];
      apply list_elem_of_filter in Hp as [Hside Hp]; exists p;
      by rewrite Hside.
  - intros (p & Hp & <-). destruct (pl_radiant_player p) eqn:Hside.
    + left. exists p. split; [done|]. by apply list_elem_of_filter.
    + right. exists p. split; [done|]. by apply list_elem_of_filter.
Qed.

(** X6: [get_hero_selection] raises exactly when the index of some player
    falls outside [-2H .. 2H - 1]; hero identifiers are not checked against
    [1 .. H]. *)
Theorem hero_selection_raises (g : list player) (H : nat) :
  get_hero_selection g H = None
  ↔ ∃ p, p ∈ g
         ∧ ¬ (- Z.of_nat (2 * H) ≤ selection_index H p < Z.of_nat (2 * H)).
Proof.
  unfold get_hero_selection, put. rewrite length_replicate.
  set (ids := _ ++ _).
  destruct (mapM (norm_index (2 * H)) ids) as [ns|] eqn:Hns.
  - simpl. split; [done|]. intros (p & Hp & Hout). exfalso.
    assert (selection_index H p ∈ ids) as Hin
      by (apply selection_indices; by exists p).
    assert (is_Some (mapM (norm_index (2 * H)) ids)) as Hsome by by eexists.
    rewrite mapM_is_Some, Forall_forall in Hsome.
    specialize (Hsome _ Hin). simpl in Hsome.
    by apply (proj1 (norm_index_is_Some (2 * H) _)) in Hsome.
  - simpl. split; [|done]. intros _.
    apply mapM_None, Exists_exists in Hns as (i & Hi & Hnone).
    apply selection_indices in Hi as (p & Hp & <-). exists p. split; [done|].
    intros Hrange.
    destruct (proj2 (norm_index_is_Some (2 * H) _) Hrange) as [k Hk].
    congruence.
Qed.

Lemma lookup_foldl_insert_one (row : list Z) (ns : list nat) (i : nat) :
  (i < length row)%nat →
  foldl (λ r n, <[n:=1]> r) row ns !! i
  = if decide (i ∈ ns) then Some 1 else row !! i.
Proof. apply lookup_foldl_insert. Qed.

Lemma get_hero_selection_entries (g : list player) (H : nat) (row : list Z) :
  get_hero_selection g H = Some row →
  length row = (2 * H)%nat
  ∧ ∀ i, (i < 2 * H)%nat →
      let marked :=
        ∃ p, p ∈ g ∧ norm_index (2 * H) (selection_index H p) = Some i in
      (row !! i = Some 1 ↔ marked) ∧ (row !! i = Some 0 ↔ ¬ marked).
Proof.
  unfold get_hero_selection, put. rewrite length_replicate.
  set (ids := _ ++ _).
  destruct (mapM (norm_index (2 * H)) ids) as [ns|] eqn:Hns; [|done].
  intros Hrow. injection Hrow as <-. split.
  - by rewrite length_foldl_insert, length_replicate.
  - intros i Hi. cbv zeta. set (marked := ex _).
    rewrite lookup_foldl_insert_one by by rewrite length_replicate.
    apply mapM_Some_1 in Hns.
    assert (i ∈ ns ↔ marked) as Hmem.
    { split.
      - intros Hin. apply list_elem_of_lookup in Hin as [j Hj].
        destruct (Forall2_lookup_r _ _ _ _ _ Hns Hj) as (z & Hz & Hnorm).
        apply list_elem_of_lookup_2, selection_indices in Hz as (p & Hp & <-).
        by exists p.
      - intros (p & Hp & Hnorm).
        assert (selection_index H p ∈ ids) as Hin
          by (apply selection_indices; by exists p).
        apply list_elem_of_lookup in Hin as [j Hj].
        destruct (Forall2_lookup_l _ _ _ _ _ Hns Hj) as (n & Hn & Hnorm').
        rewrite Hnorm in Hnorm'. injection Hnorm' as <-.
        by eapply list_elem_of_lookup_2. }
    rewrite <- Hmem. destruct (decide (i ∈ ns)) as [Hin|Hin].
    + split; split; try done.
    + rewrite lookup_replicate_2 by done. split; split; done.
Qed.

(** X7: Whenever [get_hero_selection] returns, the row has [2 * H] entries;
    entry [i] is 1 when a player's index is [i] (or [i - 2H], counted
    from the end) and 0 otherwise. *)
Theorem hero_selection_entries (g : list player) (H : nat) (row : list Z) :
  get_hero_selection g H = Some row →
  length row = (2 * H)%nat
  ∧ ∀ i, (i < 2 * H)%nat →
      let marked :=
        ∃ p, p ∈ g ∧ norm_index (2 * H) (selection_index H p) = Some i in
      (row !! i = Some 1 ↔ marked) ∧ (row !! i = Some 0 ↔ ¬ marked).
Proof. apply get_hero_selection_entries. Qed.

Lemma hero_selection_entries_witness :
  ∃ row,
    get_hero_selection [Player 0 0 0 true; Player 0 4 1 true] 3 = Some row
    ∧ length row = 6%nat
    ∧ row = [0; 0; 0; 1; 0; 1].
Proof.
  eexists. split; [reflexivity|]. split; [|reflexivity].
  apply (hero_selection_entries [Player 0 0 0 true; Player 0 4 1 true] 3).
  reflexivity.
Defined.

Lemma foldl_insert_remove_dups (row : list Z) (ns : list nat) :
  foldl (λ r n, <[n:=1]> r) row ns
  = foldl (λ r n, <[n:=1]> r) row (remove_dups ns).
Proof.
  apply list_eq. intros i. destruct (decide (i < length row)%nat) as [Hi|Hi].
  - rewrite !lookup_foldl_insert_one by done.
    destruct (decide (i ∈ ns)) as [Hin|Hin],
             (decide (i ∈ remove_dups ns)) as [Hin'|Hin']; try done;
      rewrite elem_of_remove_dups in Hin'; done.
  - rewrite !(proj2 (lookup_ge_None _ _)); [done| |];
      rewrite length_foldl_insert; lia.
Qed.

Lemma remove_dups_app_disjoint {A} `{EqDecision A} (l k : list A) :
  (∀ x, x ∈ l → x ∉ k) → remove_dups (l ++ k) = remove_dups l ++ remove_dups k.
Proof.
  induction l as [|x l IH]; intros Hdisj; [done|]. simpl.
  assert (∀ y, y ∈ l → y ∉ k) as Hdisj' by (intros y Hy; apply Hdisj; by right).
  rewrite IH by done.
  destruct (decide_rel elem_of x (l ++ k)) as [Hin|Hin],
           (decide_rel elem_of x l) as [Hin'|Hin']; try done.
  - apply elem_of_app in Hin as [?|Hk]; [done|].
    exfalso. by apply (Hdisj x); [left|].
  - destruct Hin. apply elem_of_app. by left.
Qed.

Lemma remove_dups_fmap_inj {A B} `{EqDecision A} `{EqDecision B} (f : A → B)
    (l : list A) :
  (∀ x y, x ∈ l → y ∈ l → f x = f y → x = y) →
  remove_dups (f <$> l) = f <$> remove_dups l.
Proof.
  induction l as [|x l IH]; intros Hinj; [done|]. csimpl.
  rewrite IH by (intros y z Hy Hz; apply Hinj; by right).
  destruct (decide_rel elem_of (f x) (f <$> l)) as [Hin|Hin],
           (decide_rel elem_of x l) as [Hin'|Hin']; try done.
  - apply list_elem_of_fmap in Hin as (y & Heq & Hy).
    destruct Hin'. apply Hinj in Heq as ->; [done|left|by right].
  - destruct Hin. apply list_elem_of_fmap. by exists x.
Qed.

(** X8: For hero identifiers in [1 .. H], the number of entries equal to 1 is
    the number of distinct heroes of the Radiant side plus the number of
    distinct heroes of the Dire side: a hero picked twice on one side is
    marked once, a hero picked on both sides is marked twice. *)
Theorem hero_selection_count (g : list player) (H : nat) :
  Forall (λ p, 1 ≤ pl_hero_id p ≤ Z.of_nat H) g →
  ∃ row,
    get_hero_selection g H = Some row
    ∧ length (filter (λ x, x = 1) row)
      = (length (remove_dups (radiant_picks g))
         + length (remove_dups (dire_picks g)))%nat.
Proof.
  intros Hvalid. eexists. split; [by apply get_hero_selection_valid|].
  destruct (picks_valid g H Hvalid) as [Hr Hd]. rewrite Forall_forall in Hr, Hd.
  rewrite foldl_insert_remove_dups.
  fold (ones (foldl (λ r n, <[n:=1]> r) (replicate (2 * H) 0)
                    (remove_dups (selected_positions g H)))).
  rewrite ones_foldl_insert.
  - rewrite ones_replicate_zero. unfold selected_positions.
    rewrite remove_dups_app_disjoint.
    + rewrite !remove_dups_fmap_inj.
      * by rewrite length_app, !length_fmap.
      * intros h1 h2 H1 H2 Heq. pose proof (Hd h1 H1). pose proof (Hd h2 H2). lia.
      * intros h1 h2 H1 H2 Heq. pose proof (Hr h1 H1). pose proof (Hr h2 H2). lia.
    + intros n (h1 & -> & H1)%list_elem_of_fmap (h2 & Heq & H2)%list_elem_of_fmap.
      pose proof (Hr h1 H1). pose proof (Hd h2 H2). lia.
  - apply NoDup_remove_dups.
  - intros n Hn. apply lookup_replicate_2.
    apply (selected_positions_lt g H n Hvalid). by apply elem_of_remove_dups.
Qed.

Lemma hero_selection_count_witness :
  ∃ row,
    get_hero_selection
      [Player 0 1 0 true; Player 0 1 1 true; Player 0 1 128 false] 2 = Some row
    ∧ length (filter (λ x, x = 1) row) = 2%nat.
Proof.
  apply (hero_selection_count
           [Player 0 1 0 true; Player 0 1 1 true; Player 0 1 128 false] 2).
  repeat constructor; simpl; lia.
Defined.

(** X9: After [assign_player_team], for hero identifiers in [1 .. H]: the
    entry of hero [h] in the first block is 1 exactly when a player with
    [player_slot < 50] plays [h], and its entry in the second block is 1
    exactly when a player with [player_slot >= 50] plays [h]. *)
Theorem hero_selection_by_slot (players_df : list raw_player) (H : nat) :
  Forall (λ r, 1 ≤ rp_hero_id r ≤ Z.of_nat H) players_df →
  ∃ row,
    get_hero_selection (assign_player_team players_df) H = Some row
    ∧ ∀ h, 1 ≤ h ≤ Z.of_nat H →
        (row !! Z.to_nat (h - 1) = Some 1
         ↔ ∃ r, r ∈ players_df ∧ rp_player_slot r < 50 ∧ rp_hero_id r = h)
        ∧ (row !! Z.to_nat (h - 1 + Z.of_nat H) = Some 1
           ↔ ∃ r, r ∈ players_df ∧ 50 ≤ rp_player_slot r ∧ rp_hero_id r = h).
Proof.
  intros Hvalid.
  assert (Forall (λ p, 1 ≤ pl_hero_id p ≤ Z.of_nat H)
                 (assign_player_team players_df)) as Hvalid'.
  { unfold assign_player_team. apply Forall_fmap.
    eapply Forall_impl; [exact Hvalid|]. by intros r Hr. }
  eexists. split; [by apply get_hero_selection_valid|].
  pose proof (get_hero_selection_entries _ _ _
                (get_hero_selection_valid _ _ Hvalid')) as [_ Hentries].
  rewrite Forall_forall in Hvalid.
  assert (∀ (i : nat),
    (∃ p, p ∈ assign_player_team players_df
          ∧ norm_index (2 * H) (selection_index H p) = Some i)
    ↔ ∃ r, r ∈ players_df
           ∧ Z.of_nat i
             = if bool_decide (rp_player_slot r < 50) then rp_hero_id r - 1
               else rp_hero_id r + Z.of_nat H - 1) as Hpl.
  { intros i. unfold assign_player_team. split.
    - intros (p & Hp & Hnorm). apply list_elem_of_fmap in Hp as (r & -> & Hr).
      exists r. split; [done|]. pose proof (Hvalid r Hr).
      apply norm_index_Some in Hnorm. unfold selection_index in *. simpl in *.
      destruct (bool_decide (rp_player_slot r < 50)); lia.
    - intros (r & Hr & Hi). eexists. split.
      + apply list_elem_of_fmap. by exists r.
      + pose proof (Hvalid r Hr). apply norm_index_Some. left.
        unfold selection_index. simpl.
        destruct (bool_decide (rp_player_slot r < 50)); lia. }
  intros h Hh. split.
  - rewrite (proj1 (Hentries (Z.to_nat (h - 1)) ltac:(lia))), Hpl. split.
    + intros (r & Hr & Hi). exists r. pose proof (Hvalid r Hr).
      destruct (bool_decide (rp_player_slot r < 50)) eqn:Hslot.
      * apply bool_decide_eq_true in Hslot. split_and!; [done..|lia].
      * lia.
    + intros (r & Hr & Hslot & <-). exists r. split; [done|].
      rewrite bool_decide_eq_true_2 by done. lia.
  - rewrite (proj1 (Hentries (Z.to_nat (h - 1 + Z.of_nat H)) ltac:(lia))), Hpl.
    split.
    + intros (r & Hr & Hi). exists r. pose proof (Hvalid r Hr).
      destruct (bool_decide (rp_player_slot r < 50)) eqn:Hslot.
      * lia.
      * apply bool_decide_eq_false in Hslot. split_and!; [done|lia|lia].
    + intros (r & Hr & Hslot & <-). exists r. split; [done|].
      rewrite bool_decide_eq_false_2 by lia. lia.
Qed.

Lemma hero_selection_by_slot_witness :
  ∃ row,
    get_hero_selection
      (assign_player_team [RawPlayer 0 2 3; RawPlayer 0 1 130]) 2 = Some row
    ∧ ∀ h, 1 ≤ h ≤ Z.of_nat 2 →
        (row !! Z.to_nat (h - 1) = Some 1
         ↔ ∃ r, r ∈ [RawPlayer 0 2 3; RawPlayer 0 1 130]
                ∧ rp_player_slot r < 50 ∧ rp_hero_id r = h)
        ∧ (row !! Z.to_nat (h - 1 + Z.of_nat 2) = Some 1
           ↔ ∃ r, r ∈ [RawPlayer 0 2 3; RawPlayer 0 1 130]
                  ∧ 50 ≤ rp_player_slot r ∧ rp_hero_id r = h).
Proof.
  apply (hero_selection_by_slot [RawPlayer 0 2 3; RawPlayer 0 1 130] 2).
  repeat constructor; simpl; lia.
Defined.

Lemma length_groupby {A} (key : A → Z) (df : list A) :
  length (groupby key df) = length (remove_dups (key <$> df)).
Proof.
  unfold groupby, sorted_keys.
  by rewrite length_fmap, (Permutation_length (merge_sort_Permutation _ _)).
Qed.

Lemma groupby_apply_frame {A L} (key : A → Z) (f : list A → option (list Z))
    (df : list A) (cols : list L) :
  Z.of_nat (length (remove_dups (key <$> df))) ≠ num_matches →
  mapM (λ kg : Z * list A, f kg.2) (groupby key df)
    ≫= frame_on_match_range cols = None.
Proof.
  intros Hlen. destruct (mapM _ _) as [raw|] eqn:Hraw; [|done].
  apply length_mapM in Hraw. rewrite length_groupby in Hraw.
  change (frame_on_match_range cols raw = None). unfold frame_on_match_range.
  rewrite decide_False; [done|]. unfold match_range. rewrite length_seqZ.
  unfold num_matches in *. lia.
Qed.

(** X10: The three tables built on [index=range(50000)] exist only for a
    players table with exactly 50000 distinct match identifiers: with
    more or fewer matches the constructor raises, also when no per-match
    call does. *)
Theorem tables_need_all_matches :
  (∀ players_df heros_chart,
     Z.of_nat (length (remove_dups (pl_match_id <$> players_df))) ≠ num_matches →
     construct_hero_selection_df players_df heros_chart = None)
  ∧ (∀ players_df hero_attribute_df,
       Z.of_nat (length (remove_dups (pl_match_id <$> players_df))) ≠ num_matches →
       construct_hero_composition_df players_df hero_attribute_df = None)
  ∧ (∀ game_hero_info_df,
       Z.of_nat (length (remove_dups (hi_match_id <$> game_hero_info_df)))
       ≠ num_matches →
       construct_role_check_df game_hero_info_df = None).
Proof.
  split_and!.
  - intros players_df heros_chart Hlen.
    by apply (groupby_apply_frame pl_match_id
                (λ g, get_hero_selection g (length (snake <$> heros_chart)))).
  - intros players_df hero_attribute_df Hlen.
    by apply (groupby_apply_frame pl_match_id
                (λ g, get_game_hero_composition g hero_attribute_df)).
  - intros game_hero_info_df Hlen.
    by apply (groupby_apply_frame hi_match_id get_too_many_roles).
Qed.

Lemma tables_need_all_matches_witness :
  construct_hero_selection_df full_match ["Anti-Mage"] = None
  ∧ construct_hero_composition_df full_match two_heroes = None
  ∧ construct_role_check_df [HeroInfo 0 1 0 true "Carry"] = None.
Proof.
  split_and!.
  - apply (proj1 tables_need_all_matches). vm_compute. discriminate.
  - apply (proj1 (proj2 tables_need_all_matches)). vm_compute. discriminate.
  - apply (proj2 (proj2 tables_need_all_matches)). vm_compute. discriminate.
Defined.

(** ** Hero composition and major roles *)


Lemma iloc_is_Some {A} (l : list A) (i : Z) :
  is_Some (iloc l i) ↔ - Z.of_nat (length l) ≤ i < Z.of_nat (length l).
Proof.
  unfold iloc, norm_index.
  destruct (decide (0 ≤ i < Z.of_nat (length l))) as [H1|H1];
    [|destruct (decide (- Z.of_nat (length l) ≤ i < 0)) as [H2|H2]]; simpl.
  - split; [lia|]. intros _. apply lookup_lt_is_Some. lia.
  - split; [lia|]. intros _. apply lookup_lt_is_Some. lia.
  - split; [by intros [? ?]|lia].
Qed.








Lemma iloc_list_is_Some {A} (l : list A) (ids : list Z) :
  is_Some (iloc_list l ids)
  ↔ Forall (λ i, - Z.of_nat (length l) ≤ i < Z.of_nat (length l)) ids.
Proof.
  unfold iloc_list. rewrite mapM_is_Some.
  apply Forall_iff. intros i. apply iloc_is_Some.
Qed.

(** X12: [get_game_hero_composition] raises exactly when the hero identifier
    of some player is no row position of the attribute table,
    [-n .. n - 1] for a table of [n] rows: on a table with one row per
    hero, labelled from 0, the hero with the largest identifier makes it
    raise. *)
Theorem hero_composition_raises (g : list player) (attr : attribute_table) :
  get_game_hero_composition g attr = None
  ↔ ∃ p, p ∈ g
         ∧ ¬ (- Z.of_nat (length (at_rows attr)) ≤ pl_hero_id p
              < Z.of_nat (length (at_rows attr))).
Proof.
  unfold get_game_hero_composition.
  fold (radiant_picks g). fold (dire_picks g).
  set (inside := λ i : Z, - Z.of_nat (length (at_rows attr)) ≤ i
                          < Z.of_nat (length (at_rows attr))).
  assert (∀ h, (h ∈ radiant_picks g ∨ h ∈ dire_picks g)
               ↔ ∃ p, p ∈ g ∧ pl_hero_id p = h) as Hpicks.
  { intros h. unfold radiant_picks, dire_picks.
    rewrite !list_elem_of_fmap. split.
    - intros [(p & -> & Hp)|(p & -> & Hp)];
        apply list_elem_of_filter in Hp as [_ Hp]; by exists p.
    - intros (p & Hp & <-). destruct (pl_radiant_player p) eqn:Hside.
      + left. exists p. split; [done|]. by apply list_elem_of_filter.
      + right. exists p. split; [done|]. by apply list_elem_of_filter. }
  destruct (iloc_list (at_rows attr) (radiant_picks g)) as [rr|] eqn:Hrr.
  - destruct (iloc_list (at_rows attr) (dire_picks g)) as [dr|] eqn:Hdr.
    + simpl. split; [done|]. intros (p & Hp & Hout). exfalso. apply Hout.
      assert (is_Some (iloc_list (at_rows attr) (radiant_picks g))) as Hr
        by by eexists.
      assert (is_Some (iloc_list (at_rows attr) (dire_picks g))) as Hd
        by by eexists.
      rewrite iloc_list_is_Some, Forall_forall in Hr, Hd.
      destruct (proj2 (Hpicks (pl_hero_id p))) as [Hin|Hin]; [by exists p|..].
      * by apply Hr.
      * by apply Hd.
    + simpl. split; [|done]. intros _.
      apply mapM_None, Exists_exists in Hdr as (h & Hh & Hnone).
      destruct (proj1 (Hpicks h)) as (p & Hp & <-); [by right|].
      exists p. split; [done|]. intros Hin.
      apply iloc_is_Some in Hin as [? ?]. congruence.
  - simpl. split; [|done]. intros _.
    apply mapM_None, Exists_exists in Hrr as (h & Hh & Hnone).
    destruct (proj1 (Hpicks h)) as (p & Hp & <-); [by left|].
    exists p. split; [done|]. intros Hin.
    apply iloc_is_Some in Hin as [? ?]. congruence.
Qed.

(** *** The major role *)

Lemma argmax_from_spec (l : list Z) (best_i : nat) (best : Z) (i : nat) :
  let r := argmax_from best_i best i l in
  (r = best_i ∧ Forall (λ x, x ≤ best) l)
  ∨ ∃ (k : nat) (m : Z),
      r = (i + k)%nat ∧ l !! k = Some m ∧ best < m
      ∧ Forall (λ x, x ≤ m) l
      ∧ ∀ (j : nat) x, (j < k)%nat → l !! j = Some x → x < m.
Proof.
  revert best_i best i. induction l as [|x l IH]; intros best_i best i; simpl.
  - left. by split.
  - destruct (decide (best < x)) as [Hlt|Hge].
    + right. destruct (IH i x (S i)) as [[-> Hall]|(k & m & -> & Hk & Hm & Hall & Hfirst)].
      * exists 0%nat, x. split_and!; [lia|done|done| |].
        -- constructor; [lia|done].
        -- intros j y Hj. lia.
      * exists (S k), m. split_and!; [lia|done|lia| |].
        -- constructor; [lia|done].
        -- intros [|j] y Hj Hy; simplify_eq/=; [lia|].
           apply (Hfirst j); [lia|done].
    + destruct (IH best_i best (S i)) as [[-> Hall]|(k & m & -> & Hk & Hm & Hall & Hfirst)].
      * left. split; [done|]. constructor; [lia|done].
      * right. exists (S k), m. split_and!; [lia|done|lia| |].
        -- constructor; [lia|done].
        -- intros [|j] y Hj Hy; simplify_eq/=; [lia|].
           apply (Hfirst j); [lia|done].
Qed.

Lemma argmax_spec (row : list Z) (i : nat) :
  argmax row = Some i →
  ∃ m, row !! i = Some m
       ∧ Forall (λ x, x ≤ m) row
       ∧ ∀ (j : nat) x, (j < i)%nat → row !! j = Some x → x < m.
Proof.
  destruct row as [|x l]; [done|]. simpl. intros [= <-].
  destruct (argmax_from_spec l 0 x 1) as [[-> Hall]|(k & m & -> & Hk & Hm & Hall & Hfirst)].
  - exists x. split_and!; [done| |].
    + constructor; [lia|done].
    + intros j y Hj. lia.
  - exists m. split_and!; [done| |].
    + constructor; [lia|done].
    + intros [|j] y Hj Hy; simplify_eq/=; [lia|].
      apply (Hfirst j); [lia|done].
Qed.

(** X13: The major role of a row is the role of its first maximum: the cell of
    that role is the largest of the row and every cell before it is
    strictly smaller. *)
Theorem major_role_first_maximum (roles : list string) (row : list Z)
    (role : string) :
  major_role roles row = Some role →
  ∃ (i : nat) (m : Z),
    roles !! i = Some role
    ∧ row !! i = Some m
    ∧ Forall (λ x, x ≤ m) row
    ∧ ∀ (j : nat) x, (j < i)%nat → row !! j = Some x → x < m.
Proof.
  unfold major_role. destruct (argmax row) as [i|] eqn:Hi; [|done]. simpl.
  intros Hrole. destruct (argmax_spec row i Hi) as (m & Hm & Hall & Hfirst).
  by exists i, m.
Qed.

Lemma major_role_first_maximum_witness :
  ∃ (i : nat) (m : Z),
    ["Carry"; "Disabler"; "Support"] !! i = Some "Disabler"
    ∧ [0; 1; 1] !! i = Some m
    ∧ Forall (λ x, x ≤ m) [0; 1; 1]
    ∧ ∀ (j : nat) x, (j < i)%nat → [0; 1; 1] !! j = Some x → x < m.
Proof.
  apply (major_role_first_maximum ["Carry"; "Disabler"; "Support"] [0; 1; 1]).
  reflexivity.
Defined.

(** X14: A hero without any role of the vocabulary: when all the cells of a
    row are equal (all 0, say) the major role is the first role. *)
Theorem major_role_constant_row (roles : list string) (row : list Z) (c : Z) :
  row ≠ [] →
  Forall (λ x, x = c) row →
  major_role roles row = head roles.
Proof.
  intros Hne Hconst. unfold major_role.
  destruct (argmax row) as [i|] eqn:Hi; [|by destruct row].
  simpl. destruct (argmax_spec row i Hi) as (m & Hm & Hall & Hfirst).
  rewrite Forall_forall in Hconst.
  assert (m = c) as -> by by eapply Hconst, list_elem_of_lookup_2.
  destruct i as [|i].
  - by destruct roles.
  - destruct row as [|x row]; [done|].
    assert (x = c) as -> by (apply Hconst; left).
    specialize (Hfirst 0%nat c ltac:(lia) eq_refl). lia.
Qed.

Lemma major_role_constant_row_witness :
  major_role ["Carry"; "Disabler"; "Support"] [0; 0; 0] = Some "Carry".
Proof.
  apply (major_role_constant_row ["Carry"; "Disabler"; "Support"] [0; 0; 0] 0).
  - done.
  - repeat constructor.
Defined.

(** *** [get_game_hero_info] *)

Lemma major_role_is_Some (roles : list string) (row : list Z) :
  row ≠ [] → length row = length roles → is_Some (major_role roles row).
Proof.
  intros Hne Hlen. unfold major_role.
  destruct (argmax row) as [i|] eqn:Hi; [|by destruct row]. simpl.
  destruct (argmax_spec row i Hi) as (m & Hm & _).
  apply lookup_lt_is_Some. rewrite <- Hlen. by eapply lookup_lt_Some.
Qed.

Lemma major_roles_Some (attr : attribute_table) :
  Forall (λ row, row ≠ [] ∧ length row = length (at_roles attr)) (at_rows attr) →
  ∃ major_roles,
    mapM (major_role (at_roles attr)) (at_rows attr) = Some major_roles
    ∧ length major_roles = length (at_rows attr).
Proof.
  intros Hwf.
  destruct (mapM (major_role (at_roles attr)) (at_rows attr))
    as [major_roles|] eqn:Hmajor.
  - exists major_roles. split; [done|]. symmetry. by eapply length_mapM.
  - apply mapM_None, Exists_exists in Hmajor as (row & Hrow & Hnone).
    rewrite Forall_forall in Hwf. destruct (Hwf row Hrow) as [Hne Hlen].
    destruct (major_role_is_Some _ _ Hne Hlen) as [? ?]. congruence.
Qed.

(** X15: On a table whose rows have one cell per role, and at least one,
    [get_game_hero_info] raises exactly when the hero identifier of some
    player is no row position of the table, [-n .. n - 1] for [n] rows. *)
Theorem hero_info_raises (players_df : list player) (attr : attribute_table) :
  Forall (λ row, row ≠ [] ∧ length row = length (at_roles attr)) (at_rows attr) →
  get_game_hero_info players_df attr = None
  ↔ ∃ p, p ∈ players_df
         ∧ ¬ (- Z.of_nat (length (at_rows attr)) ≤ pl_hero_id p
              < Z.of_nat (length (at_rows attr))).
Proof.
  intros Hwf. unfold get_game_hero_info.
  destruct (major_roles_Some attr Hwf) as (major_roles & -> & Hlen). simpl.
  rewrite mapM_None, Exists_exists. rewrite <- Hlen.
  split; intros (p & Hp & Hout); exists p; (split; [done|]).
  - intros Hin. apply (iloc_is_Some major_roles) in Hin as [role Hrole].
    by rewrite Hrole in Hout.
  - destruct (iloc major_roles (pl_hero_id p)) as [role|] eqn:Hrole; [|done].
    exfalso. apply Hout. apply iloc_is_Some. by eexists.
Qed.

Lemma hero_info_raises_witness :
  get_game_hero_info [Player 0 1 0 true; Player 0 2 128 false] two_heroes = None
  ↔ ∃ p, p ∈ [Player 0 1 0 true; Player 0 2 128 false]
         ∧ ¬ (- Z.of_nat (length (at_rows two_heroes)) ≤ pl_hero_id p
              < Z.of_nat (length (at_rows two_heroes))).
Proof.
  apply (hero_info_raises [Player 0 1 0 true; Player 0 2 128 false] two_heroes).
  repeat constructor; done.
Defined.

(** X16: When [get_game_hero_info] returns, the table has the rows of
    [players_df] in their order, with the four columns unchanged and a
    role for every row: the major role of the table row at the position
    given by [hero_id] (counted from the end when negative). *)
Theorem hero_info_rows (players_df : list player) (attr : attribute_table)
    (infos : list hero_info) :
  get_game_hero_info players_df attr = Some infos →
  length infos = length players_df
  ∧ ∀ (i : nat) p, players_df !! i = Some p →
      ∃ info (k : nat) row,
        infos !! i = Some info
        ∧ hi_match_id info = pl_match_id p
        ∧ hi_hero_id info = pl_hero_id p
        ∧ hi_player_slot info = pl_player_slot p
        ∧ hi_radiant_player info = pl_radiant_player p
        ∧ norm_index (length (at_rows attr)) (pl_hero_id p) = Some k
        ∧ at_rows attr !! k = Some row
        ∧ major_role (at_roles attr) row = Some (hi_role info).
Proof.
  unfold get_game_hero_info.
  destruct (mapM (major_role _) _) as [major_roles|] eqn:Hmajor; [|done].
  simpl. intros Hinfos. split; [symmetry; by eapply length_mapM|].
  pose proof (length_mapM _ _ _ Hmajor) as Hlen.
  apply mapM_Some_1 in Hinfos. apply mapM_Some_1 in Hmajor.
  intros i p Hp.
  destruct (Forall2_lookup_l _ _ _ _ _ Hinfos Hp) as (info & Hinfo & Hrole).
  destruct (iloc major_roles (pl_hero_id p)) as [role|] eqn:Hiloc; [|done].
  simpl in Hrole. injection Hrole as <-. unfold iloc in Hiloc.
  destruct (norm_index (length major_roles) (pl_hero_id p)) as [k|] eqn:Hk;
    [|done].
  simpl in Hiloc.
  destruct (Forall2_lookup_r _ _ _ _ _ Hmajor Hiloc) as (row & Hrow & Hr).
  eexists _, k, row. rewrite Hlen. by split_and!.
Qed.

Lemma hero_info_rows_witness :
  length [HeroInfo 0 1 0 true "Support"; HeroInfo 0 (-2) 1 true "Carry"]
  = length [Player 0 1 0 true; Player 0 (-2) 1 true].
Proof.
  apply (hero_info_rows [Player 0 1 0 true; Player 0 (-2) 1 true] two_heroes).
  reflexivity.
Defined.

(** ** The attribute table *)

Lemma elem_of_total_roles (hero_roles : gmap Z (list string)) (role : string) :
  role ∈ merge_sort String.le
           (remove_dups (filter (λ role, role ∉ excluded_roles)
                                (mjoin (snd <$> map_to_list hero_roles))))
  ↔ vocabulary_role hero_roles role.
Proof.
  rewrite merge_sort_Permutation, elem_of_remove_dups.
  rewrite list_elem_of_filter, list_elem_of_join. unfold vocabulary_role.
  split.
  - intros [Hex (roles & Hrole & Hroles)]. split; [done|].
    apply list_elem_of_fmap in Hroles as ([i roles'] & -> & Hin).
    apply elem_of_map_to_list in Hin. by exists i, roles'.
  - intros [Hex (i & roles & Hi & Hrole)]. split; [done|].
    exists roles. split; [done|]. apply list_elem_of_fmap.
    exists (i, roles). split; [done|]. by apply elem_of_map_to_list.
Qed.

Lemma attribute_table_parts (hero_roles : gmap Z (list string))
    (tbl : attribute_table) :
  construct_hero_attribute_df hero_roles = Some tbl →
  at_roles tbl
  = merge_sort String.le
      (remove_dups (filter (λ role, role ∉ excluded_roles)
                           (mjoin (snd <$> map_to_list hero_roles))))
  ∧ mapM (λ hero_index,
            mapM (λ role : string,
                    hero_roles !! hero_index ≫= λ roles : list string,
                    Some (if decide (role ∈ roles) then 1 else 0))
                 (at_roles tbl))
         (seqZ 0 (Z.of_nat (size hero_roles) - 1))
    = Some (at_rows tbl).
Proof.
  unfold construct_hero_attribute_df.
  destruct (mapM _ (seqZ 0 _)) as [rows|] eqn:Hrows; [|done].
  intros Htbl. injection Htbl as <-. by split.
Qed.

(** X17: The columns of the attribute table are the roles that occur in the
    dictionary, without the seven excluded ones, each once and in
    ascending order. *)
Theorem attribute_table_columns (hero_roles : gmap Z (list string))
    (tbl : attribute_table) :
  construct_hero_attribute_df hero_roles = Some tbl →
  StronglySorted String.le (at_roles tbl)
  ∧ NoDup (at_roles tbl)
  ∧ ∀ role, role ∈ at_roles tbl ↔ vocabulary_role hero_roles role.
Proof.
  intros [-> _]%attribute_table_parts. split_and!.
  - apply (StronglySorted_merge_sort String.le); apply _.
  - rewrite merge_sort_Permutation. apply NoDup_remove_dups.
  - apply elem_of_total_roles.
Qed.

Lemma attribute_table_columns_witness :
  construct_hero_attribute_df four_heroes
  = Some (AttributeTable ["Carry"; "Disabler"; "Initiator"; "Support"]
            [[1; 0; 0; 0]; [0; 1; 0; 1]; [0; 0; 0; 0]])
  ∧ StronglySorted String.le ["Carry"; "Disabler"; "Initiator"; "Support"]
  ∧ NoDup ["Carry"; "Disabler"; "Initiator"; "Support"]
  ∧ ∀ role, role ∈ ["Carry"; "Disabler"; "Initiator"; "Support"]
            ↔ vocabulary_role four_heroes role.
Proof.
  split; [vm_compute; reflexivity|].
  apply (attribute_table_columns four_heroes
           (AttributeTable ["Carry"; "Disabler"; "Initiator"; "Support"]
              [[1; 0; 0; 0]; [0; 1; 0; 1]; [0; 0; 0; 0]])).
  vm_compute; reflexivity.
Defined.

(** X18: The attribute table has one row less than the dictionary has
    entries: the rows are those of the indexes [0 .. len - 2], so the
    entry of the largest index of a dictionary keyed [0 .. len - 1] has no
    row.  Every row has one cell per column; the cell is 1 when the hero
    of that index has the role of the column and 0 when not. *)
Theorem attribute_table_rows (hero_roles : gmap Z (list string))
    (tbl : attribute_table) :
  construct_hero_attribute_df hero_roles = Some tbl →
  length (at_rows tbl) = (size hero_roles - 1)%nat
  ∧ ∀ (i : nat), (i < size hero_roles - 1)%nat →
      ∃ row,
        at_rows tbl !! i = Some row
        ∧ length row = length (at_roles tbl)
        ∧ ∀ (j : nat) role,
            at_roles tbl !! j = Some role →
            ∃ roles,
              hero_roles !! Z.of_nat i = Some roles
              ∧ row !! j = Some (if decide (role ∈ roles) then 1 else 0).
Proof.
  intros [_ Hrows]%attribute_table_parts.
  pose proof (length_mapM _ _ _ Hrows) as Hlen. rewrite length_seqZ in Hlen.
  split; [lia|]. intros i Hi. apply mapM_Some_1 in Hrows.
  destruct (Forall2_lookup_l _ _ _ i (Z.of_nat i) Hrows) as (row & Hrow & Hcells).
  { rewrite lookup_seqZ_lt by lia. f_equal; lia. }
  exists row. split; [done|].
  pose proof (length_mapM _ _ _ Hcells) as Hlen'. split; [done|].
  intros j role Hj. apply mapM_Some_1 in Hcells.
  destruct (Forall2_lookup_l _ _ _ j role Hcells Hj) as (v & Hv & Hcell).
  destruct (hero_roles !! Z.of_nat i) as [roles|]; [|done].
  simpl in Hcell. injection Hcell as <-. by exists roles.
Qed.

Lemma attribute_table_rows_witness :
  construct_hero_attribute_df four_heroes
  = Some (AttributeTable ["Carry"; "Disabler"; "Initiator"; "Support"]
            [[1; 0; 0; 0]; [0; 1; 0; 1]; [0; 0; 0; 0]])
  ∧ length [[1; 0; 0; 0]; [0; 1; 0; 1]; [0; 0; 0; 0]]
    = (size four_heroes - 1)%nat.
Proof.
  split; [vm_compute; reflexivity|].
  apply (attribute_table_rows four_heroes
           (AttributeTable ["Carry"; "Disabler"; "Initiator"; "Support"]
              [[1; 0; 0; 0]; [0; 1; 0; 1]; [0; 0; 0; 0]])).
  vm_compute; reflexivity.
Defined.

(** X19: For a dictionary with at least one role of the vocabulary,
    [construct_hero_attribute_df] raises exactly when one of the indexes
    [0 .. len - 2] is no key of the dictionary. *)
Theorem attribute_table_raises (hero_roles : gmap Z (list string)) :
  (∃ role, vocabulary_role hero_roles role) →
  construct_hero_attribute_df hero_roles = None
  ↔ ∃ i, 0 ≤ i < Z.of_nat (size hero_roles) - 1 ∧ hero_roles !! i = None.
Proof.
  intros [role0 Hrole0%elem_of_total_roles].
  unfold construct_hero_attribute_df.
  set (total_roles := merge_sort String.le _) in *.
  destruct (mapM _ (seqZ 0 _)) as [rows|] eqn:Hrows.
  - simpl. split; [done|]. intros (i & Hi & Hnone). exfalso.
    apply mapM_Some_1 in Hrows.
    destruct (Forall2_lookup_l _ _ _ (Z.to_nat i) i Hrows) as (row & _ & Hcells).
    { rewrite lookup_seqZ_lt by lia. f_equal; lia. }
    apply mapM_Some_1 in Hcells.
    apply list_elem_of_lookup in Hrole0 as [j Hj].
    destruct (Forall2_lookup_l _ _ _ j role0 Hcells Hj) as (v & _ & Hcell).
    by rewrite Hnone in Hcell.
  - simpl. split; [|done]. intros _.
    apply mapM_None, Exists_exists in Hrows as (i & Hi & Hnone).
    apply elem_of_seqZ in Hi. exists i. split; [lia|].
    apply mapM_None, Exists_exists in Hnone as (role & _ & Hcell).
    by destruct (hero_roles !! i).
Qed.

Lemma attribute_table_raises_witness :
  construct_hero_attribute_df gap_heroes = None
  ↔ ∃ i, 0 ≤ i < Z.of_nat (size gap_heroes) - 1 ∧ gap_heroes !! i = None.
Proof.
  apply (attribute_table_raises gap_heroes).
  exists "Carry". split.
  - apply (bool_decide_unpack _). vm_compute. exact I.
  - exists 0, ["Carry"]. split; [reflexivity|left].
Defined.

(** ** The role check *)

Lemma max_value_count_Some (s : list string) (n : nat) :
  max_value_count s = Some n →
  s ≠ []
  ∧ n = max_list ((λ v, length (filter (λ x, x = v) s)) <$> remove_dups s).
Proof.
  unfold max_value_count. destruct s as [|x s]; [done|].
  intros Heq. split; [done|]. by injection Heq.
Qed.

Lemma max_value_count_ge (s : list string) (n c : nat) :
  (0 < c)%nat →
  max_value_count s = Some n →
  (c ≤ n)%nat ↔ ∃ v, (c ≤ length (filter (λ x, x = v) s))%nat.
Proof.
  intros Hc [Hne ->]%max_value_count_Some.
  set (counts := (λ v, length (filter (λ x, x = v) s)) <$> remove_dups s).
  split.
  - intros Hle. assert (counts ≠ []) as Hcounts.
    { unfold counts. intros Hnil%fmap_nil_inv.
      destruct s as [|x s]; [done|].
      assert (x ∈ remove_dups (x :: s)) as Hx
        by (apply elem_of_remove_dups; left).
      rewrite Hnil in Hx. by apply elem_of_nil in Hx. }
    apply max_list_elem_of in Hcounts. unfold counts in Hcounts at 2.
    apply list_elem_of_fmap in Hcounts as (v & Hv & _).
    exists v. by rewrite <- Hv.
  - intros (v & Hv). etrans; [exact Hv|]. apply max_list_elem_of_le.
    apply list_elem_of_fmap. exists v. split; [done|].
    apply elem_of_remove_dups.
    destruct (filter (λ x, x = v) s) as [|y l] eqn:Hf; [simpl in Hv; lia|].
    assert (y ∈ filter (λ x, x = v) s) as Hy by (rewrite Hf; left).
    by apply list_elem_of_filter in Hy as [-> ?].
Qed.

Lemma side_role_count (side : bool) (role : string) (g : list hero_info) :
  length (filter (λ x, x = role)
            (hi_role <$> filter (λ r, hi_radiant_player r = side) g))
  = role_count side role g.
Proof.
  unfold role_count. by rewrite filter_fmap, length_fmap, list_filter_filter.
Qed.

(** X20: [get_too_many_roles] raises exactly when one of the two sides has no
    player in the match.  When it returns, the result is a pair of flags:
    the flag of a side is 1 when some role is the major role of at least
    three of its players, and 0 when no role is. *)
Theorem too_many_roles_flags (g : list hero_info) :
  (get_too_many_roles g = None
   ↔ filter (λ r, hi_radiant_player r = true) g = []
     ∨ filter (λ r, hi_radiant_player r = false) g = [])
  ∧ ∀ flags,
      get_too_many_roles g = Some flags →
      ∃ radiant_check dire_check,
        flags = [radiant_check; dire_check]
        ∧ (radiant_check = 1 ↔ ∃ role, (3 ≤ role_count true role g)%nat)
        ∧ (radiant_check = 0 ↔ ¬ ∃ role, (3 ≤ role_count true role g)%nat)
        ∧ (dire_check = 1 ↔ ∃ role, (3 ≤ role_count false role g)%nat)
        ∧ (dire_check = 0 ↔ ¬ ∃ role, (3 ≤ role_count false role g)%nat).
Proof.
  unfold get_too_many_roles.
  set (rs := hi_role <$> filter (λ r, hi_radiant_player r = true) g).
  set (ds := hi_role <$> filter (λ r, hi_radiant_player r = false) g).
  assert (∀ side, max_value_count
                    (hi_role <$> filter (λ r, hi_radiant_player r = side) g)
                  = None
                  ↔ filter (λ r, hi_radiant_player r = side) g = []) as Hnone.
  { intros side.
    destruct (filter (λ r, hi_radiant_player r = side) g) as [|h l];
      [split; done|].
    rewrite fmap_cons. unfold max_value_count. split; done. }
  destruct (max_value_count rs) as [rmax|] eqn:Hr.
  - destruct (max_value_count ds) as [dmax|] eqn:Hd.
    + simpl. split.
      * split; [done|]. intros [Hnil|Hnil]; apply Hnone in Hnil;
          unfold rs, ds in *; congruence.
      * intros flags [= <-]. eexists _, _. split; [done|].
        pose proof (max_value_count_ge rs rmax 3 ltac:(lia) Hr) as Hrs.
        pose proof (max_value_count_ge ds dmax 3 ltac:(lia) Hd) as Hds.
        unfold rs in Hrs. unfold ds in Hds.
        setoid_rewrite side_role_count in Hrs.
        setoid_rewrite side_role_count in Hds.
        rewrite <- Hrs, <- Hds.
        destruct (decide (3 ≤ rmax)%nat), (decide (3 ≤ dmax)%nat);
          split_and!; split; done.
    + simpl. split; [|done]. split; [|done]. intros _. right. by apply Hnone.
  - simpl. split; [|done]. split; [|done]. intros _. left. by apply Hnone.
Qed.

Lemma too_many_roles_flags_witness :
  ∃ radiant_check dire_check,
    [1; 0] = [radiant_check; dire_check]
    ∧ (radiant_check = 1 ↔ ∃ role, (3 ≤ role_count true role
         [HeroInfo 0 1 0 true "Carry"; HeroInfo 0 2 1 true "Carry";
          HeroInfo 0 3 2 true "Carry"; HeroInfo 0 4 128 false "Support"])%nat)
    ∧ (radiant_check = 0 ↔ ¬ ∃ role, (3 ≤ role_count true role
         [HeroInfo 0 1 0 true "Carry"; HeroInfo 0 2 1 true "Carry";
          HeroInfo 0 3 2 true "Carry"; HeroInfo 0 4 128 false "Support"])%nat)
    ∧ (dire_check = 1 ↔ ∃ role, (3 ≤ role_count false role
         [HeroInfo 0 1 0 true "Carry"; HeroInfo 0 2 1 true "Carry";
          HeroInfo 0 3 2 true "Carry"; HeroInfo 0 4 128 false "Support"])%nat)
    ∧ (dire_check = 0 ↔ ¬ ∃ role, (3 ≤ role_count false role
         [HeroInfo 0 1 0 true "Carry"; HeroInfo 0 2 1 true "Carry";
          HeroInfo 0 3 2 true "Carry"; HeroInfo 0 4 128 false "Support"])%nat).
Proof.
  apply (proj2 (too_many_roles_flags
           [HeroInfo 0 1 0 true "Carry"; HeroInfo 0 2 1 true "Carry";
            HeroInfo 0 3 2 true "Carry"; HeroInfo 0 4 128 false "Support"])).
  reflexivity.
Defined.

(** ** Wealth: the samples up to the threshold and their maxima *)

Lemma filter_mjoin {A} (P : A → Prop) `{!∀ x, Decision (P x)}
    (ls : list (list A)) :
  filter P (mjoin ls) = mjoin (filter P <$> ls).
Proof.
  induction ls as [|l ls IH]; [done|]. csimpl. by rewrite filter_app, IH.
Qed.

Lemma filter_nil_Forall {A} (P : A → Prop) `{!∀ x, Decision (P x)}
    (l : list A) :
  Forall (λ x, ¬ P x) l → filter P l = [].
Proof.
  induction 1 as [|x l Hx _ IH]; [done|].
  rewrite filter_cons, IH. by destruct (decide (P x)).
Qed.

Lemma filter_all_Forall {A} (P : A → Prop) `{!∀ x, Decision (P x)}
    (l : list A) :
  Forall P l → filter P l = l.
Proof.
  induction 1 as [|x l Hx _ IH]; [done|].
  rewrite filter_cons, IH. by destruct (decide (P x)).
Qed.

Lemma filter_comm {A} (P Q : A → Prop) `{!∀ x, Decision (P x)}
    `{!∀ x, Decision (Q x)} (l : list A) :
  filter P (filter Q l) = filter Q (filter P l).
Proof.
  induction l as [|x l IH]; [done|]. rewrite !filter_cons.
  destruct (decide (Q x)), (decide (P x)); rewrite ?filter_cons;
    repeat case_decide; try done; by rewrite IH.
Qed.

(** The rows of one key in a concatenation of groups. *)
Lemma filter_mjoin_groups {A} (key : A → Z) (G : Z → list A) (ks : list Z)
    (m : Z) :
  NoDup ks →
  (∀ k, Forall (λ r, key r = k) (G k)) →
  filter (λ r, key r = m) (mjoin (G <$> ks))
  = if decide (m ∈ ks) then G m else [].
Proof.
  intros Hnd HG. induction Hnd as [|k ks Hk Hnd IH].
  - by destruct (decide (m ∈ [])) as [Hin%elem_of_nil|].
  - csimpl. rewrite filter_app, IH. destruct (decide (k = m)) as [->|Hne].
    + rewrite filter_all_Forall by apply HG.
      destruct (decide (m ∈ ks)) as [|_]; [done|].
      destruct (decide (m ∈ m :: ks)) as [_|Hn]; [by rewrite app_nil_r|].
      destruct Hn. left.
    + rewrite filter_nil_Forall.
      2:{ eapply Forall_impl; [apply HG|]. simpl. intros; congruence. }
      simpl. destruct (decide (m ∈ ks)) as [Hin|Hin].
      * rewrite decide_True; [done|by right].
      * rewrite decide_False; [done|]. rewrite elem_of_cons. intros [?|?]; [congruence|done].
Qed.

Lemma mjoin_groups_Permutation {A} (key : A → Z) (l : list A) (ks : list Z) :
  NoDup ks →
  mjoin ((λ k, filter (λ r, key r = k) l) <$> ks)
  ≡ₚ filter (λ r, key r ∈ ks) l.
Proof.
  induction 1 as [|k ks Hk Hnd IH].
  - rewrite filter_nil_Forall; [done|].
    apply Forall_forall. intros x _. apply not_elem_of_nil.
  - csimpl. rewrite IH. clear IH. induction l as [|x l IHl]; [done|].
    rewrite !filter_cons.
    destruct (decide (key x = k)) as [Heq|Hne].
    + rewrite decide_False by congruence.
      rewrite decide_True by (rewrite Heq; left).
      simpl. by rewrite IHl.
    + destruct (decide (key x ∈ ks)) as [Hin|Hin].
      * rewrite decide_True by by right.
        rewrite <- Permutation_middle. by rewrite IHl.
      * rewrite decide_False; [done|]. rewrite elem_of_cons. intros [?|?]; [congruence|done].
Qed.

Lemma cut_by_match_groups (df : list wealth_row) (threshold : Z) :
  cut_by_match df threshold
  = mjoin ((λ k, filter (λ r, w_match_id r = k)
                        (filter (λ r, w_times r ≤ threshold) df))
           <$> sorted_keys (w_match_id <$> df)).
Proof.
  unfold cut_by_match, groupby. rewrite <- list_fmap_compose.
  f_equal. apply list_fmap_ext. intros _ k _. simpl. apply filter_comm.
Qed.

Lemma cut_by_match_match (df : list wealth_row) (threshold m : Z) :
  filter (λ r, w_match_id r = m) (cut_by_match df threshold)
  = filter (λ r, w_match_id r = m) (filter (λ r, w_times r ≤ threshold) df).
Proof.
  rewrite cut_by_match_groups.
  rewrite (filter_mjoin_groups w_match_id
             (λ k, filter (λ r, w_match_id r = k)
                          (filter (λ r, w_times r ≤ threshold) df))).
  - destruct (decide (m ∈ sorted_keys (w_match_id <$> df))) as [|Hin]; [done|].
    symmetry. apply filter_nil_Forall, Forall_forall. intros r Hr Hm.
    apply Hin. rewrite elem_of_sorted_keys, list_elem_of_fmap. exists r.
    apply list_elem_of_filter in Hr as [_ Hr]. done.
  - apply NoDup_sorted_keys.
  - intros k. apply Forall_forall. intros r Hr.
    by apply list_elem_of_filter in Hr as [? _].
Qed.

Lemma cut_by_match_Permutation (df : list wealth_row) (threshold : Z) :
  cut_by_match df threshold
  ≡ₚ filter (λ r, w_times r ≤ threshold) df.
Proof.
  rewrite cut_by_match_groups.
  rewrite mjoin_groups_Permutation by apply NoDup_sorted_keys.
  rewrite filter_all_Forall; [done|].
  apply Forall_forall. intros r Hr. rewrite elem_of_sorted_keys.
  apply list_elem_of_fmap. exists r.
  apply list_elem_of_filter in Hr as [_ Hr]. done.
Qed.

Lemma x_seconds_df_cases (df : list wealth_row) (threshold : Z) :
  construct_x_seconds_df df threshold
  = if decide (Forall (λ r, w_times r ≤ threshold) df) then df
    else cut_by_match df threshold.
Proof. done. Qed.

Lemma x_seconds_df_match (df : list wealth_row) (threshold m : Z) :
  filter (λ r, w_match_id r = m) (construct_x_seconds_df df threshold)
  = filter (λ r, w_match_id r = m) (filter (λ r, w_times r ≤ threshold) df).
Proof.
  rewrite x_seconds_df_cases. case_decide as Hall.
  - by rewrite (filter_all_Forall (λ r, w_times r ≤ threshold) df).
  - apply cut_by_match_match.
Qed.

Lemma x_seconds_df_Permutation (df : list wealth_row) (threshold : Z) :
  construct_x_seconds_df df threshold
  ≡ₚ filter (λ r, w_times r ≤ threshold) df.
Proof.
  rewrite x_seconds_df_cases. case_decide as Hall.
  - by rewrite (filter_all_Forall (λ r, w_times r ≤ threshold) df).
  - apply cut_by_match_Permutation.
Qed.

(** X21: The table of [construct_x_seconds_df] holds exactly the samples with
    [times <= threshold], each as often as the input has it, and the
    samples of a match keep the order they have in the input. *)
Theorem x_seconds_keeps_samples (df : list wealth_row) (threshold : Z) :
  construct_x_seconds_df df threshold
  ≡ₚ filter (λ r, w_times r ≤ threshold) df
  ∧ ∀ m,
      filter (λ r, w_match_id r = m) (construct_x_seconds_df df threshold)
      = filter (λ r, w_match_id r = m)
               (filter (λ r, w_times r ≤ threshold) df).
Proof.
  split; [apply x_seconds_df_Permutation|].
  intros m. apply x_seconds_df_match.
Qed.

(** ** The column maxima *)

Lemma lookup_foldl_zip_max (r : list Z) (rs : list (list Z)) (j : nat) (x : Z) :
  Forall (λ r', length r' = length r) rs →
  r !! j = Some x →
  ∃ v, foldl (zip_with Z.max) r rs !! j = Some v
       ∧ x ≤ v
       ∧ Forall (λ r', ∃ y, r' !! j = Some y ∧ y ≤ v) rs
       ∧ (v = x ∨ ∃ r', r' ∈ rs ∧ r' !! j = Some v).
Proof.
  intros Hlen. revert r x Hlen.
  induction rs as [|r' rs IH]; intros r x Hlen Hx.
  - exists x. split_and!; [done|lia|constructor|by left].
  - apply Forall_cons in Hlen as [Hr' Hlen]. simpl.
    assert (is_Some (r' !! j)) as [y Hy].
    { apply lookup_lt_is_Some. rewrite Hr'. by eapply lookup_lt_Some. }
    destruct (IH (zip_with Z.max r r') (Z.max x y)) as (v & Hv & Hle & Hall & Hex).
    { eapply Forall_impl; [exact Hlen|]. simpl. intros r'' ->.
      rewrite length_zip_with. lia. }
    { rewrite lookup_zip_with, Hx. simpl. by rewrite Hy. }
    exists v. split_and!; [done|lia| |].
    + constructor; [|done]. exists y. split; [done|lia].
    + destruct Hex as [->|(r'' & Hin & Hr'')].
      * destruct (Z.max_spec x y) as [[_ ->]|[_ ->]].
        -- right. exists r'. split; [left|done].
        -- by left.
      * right. exists r''. split; [by right|done].
Qed.

Lemma length_foldl_zip_max (r : list Z) (rs : list (list Z)) :
  Forall (λ r', length r' = length r) rs →
  length (foldl (zip_with Z.max) r rs) = length r.
Proof.
  revert r. induction rs as [|r' rs IH]; intros r Hlen; [done|].
  apply Forall_cons in Hlen as [Hr' Hlen]. simpl. rewrite IH.
  - rewrite length_zip_with. lia.
  - eapply Forall_impl; [exact Hlen|]. simpl. intros r'' ->.
    rewrite length_zip_with. lia.
Qed.

(** The maxima of a non-empty group of rows of one length. *)
Lemma col_max_spec (values : list (list Z)) (n : nat) :
  values ≠ [] →
  Forall (λ r, length r = n) values →
  length (col_max values) = n
  ∧ ∀ j, (j < n)%nat →
      ∃ v, col_max values !! j = Some v
           ∧ Forall (λ r, ∃ y, r !! j = Some y ∧ y ≤ v) values
           ∧ ∃ r, r ∈ values ∧ r !! j = Some v.
Proof.
  destruct values as [|r rs]; [done|]. intros _ Hlen.
  apply Forall_cons in Hlen as [Hr Hlen]. simpl.
  assert (Forall (λ r', length r' = length r) rs) as Hlen'.
  { eapply Forall_impl; [exact Hlen|]. simpl. intros; congruence. }
  split; [by rewrite length_foldl_zip_max|].
  intros j Hj.
  assert (is_Some (r !! j)) as [x Hx] by (apply lookup_lt_is_Some; lia).
  destruct (lookup_foldl_zip_max r rs j x Hlen' Hx) as (v & Hv & Hle & Hall & Hex).
  exists v. split_and!; [done| |].
  - constructor; [|done]. by exists x.
  - destruct Hex as [->|(r' & Hin & Hr')].
    + exists r. split; [left|done].
    + exists r'. split; [by right|done].
Qed.

Lemma max_wealth_rows (x_seconds_df : list wealth_row) (n : nat) (m : Z)
    (row : list Z) :
  Forall (λ r, length (w_stats r) = n) x_seconds_df →
  (m, row) ∈ construct_x_seconds_max_wealth x_seconds_df →
  length row = n
  ∧ ∀ j, (j < n)%nat →
      ∃ v, row !! j = Some v
           ∧ (∀ r, r ∈ x_seconds_df → w_match_id r = m →
                   ∃ x, w_stats r !! j = Some x ∧ x ≤ v)
           ∧ (∃ r, r ∈ x_seconds_df ∧ w_match_id r = m
                   ∧ w_stats r !! j = Some v).
Proof.
  intros Hwf. unfold construct_x_seconds_max_wealth.
  rewrite list_elem_of_fmap. intros ([k g] & Heq & Hin). simplify_eq/=.
  pose proof (groupby_group _ _ _ _ Hin) as [Hne Hkey].
  apply elem_of_groupby in Hin as [_ Hg].
  set (values := (λ r, w_times r :: w_stats r) <$> g).
  destruct (col_max_spec values (S n)) as [Hlen Hmax].
  { unfold values. by destruct g. }
  { unfold values. apply Forall_fmap, Forall_forall. intros r Hr. simpl.
    f_equal. rewrite Forall_forall in Hwf. apply Hwf. rewrite Hg in Hr.
    by apply list_elem_of_filter in Hr as [_ ?]. }
  split; [rewrite length_drop; lia|].
  intros j Hj. destruct (Hmax (S j)) as (v & Hv & Hall & (r' & Hr' & Hr'v)); [lia|].
  exists v. split_and!.
  - by rewrite lookup_drop.
  - intros r Hr Hm. rewrite Forall_forall in Hall.
    destruct (Hall (w_times r :: w_stats r)) as (y & Hy & Hle).
    { unfold values. apply list_elem_of_fmap. exists r. split; [done|].
      rewrite Hg. by apply list_elem_of_filter. }
    by exists y.
  - unfold values in Hr'. apply list_elem_of_fmap in Hr' as (r & -> & Hr).
    rewrite Hg in Hr. apply list_elem_of_filter in Hr as [Hm Hr].
    by exists r.
Qed.

(** X22: For a table whose rows have [n] columns after [times], the row of a
    match in the table of [construct_x_seconds_max_wealth] has [n] entries
    ([times] is dropped); entry [j] is the largest value of column [j]
    among the rows of the match, and some row of the match has it. *)
Theorem max_wealth_maxima (x_seconds_df : list wealth_row) (n : nat) (m : Z)
    (row : list Z) :
  Forall (λ r, length (w_stats r) = n) x_seconds_df →
  (m, row) ∈ construct_x_seconds_max_wealth x_seconds_df →
  length row = n
  ∧ ∀ j, (j < n)%nat →
      ∃ v, row !! j = Some v
           ∧ (∀ r, r ∈ x_seconds_df → w_match_id r = m →
                   ∃ x, w_stats r !! j = Some x ∧ x ≤ v)
           ∧ (∃ r, r ∈ x_seconds_df ∧ w_match_id r = m
                   ∧ w_stats r !! j = Some v).
Proof. apply max_wealth_rows. Qed.

(** X23: The two steps together: a match has a row in the table of maxima
    exactly when it has a sample with [times <= threshold], and the
    entries of the row are the maxima over these samples only: a sample
    after the threshold never shows. *)
Theorem max_wealth_up_to_threshold (players_time_df : list wealth_row)
    (threshold : Z) (n : nat) :
  Forall (λ r, length (w_stats r) = n) players_time_df →
  let early r := r ∈ players_time_df ∧ w_times r ≤ threshold in
  let table :=
    construct_x_seconds_max_wealth
      (construct_x_seconds_df players_time_df threshold) in
  ∀ m,
    ((∃ row, (m, row) ∈ table) ↔ ∃ r, early r ∧ w_match_id r = m)
    ∧ ∀ row, (m, row) ∈ table →
        ∀ j, (j < n)%nat →
          ∃ v, row !! j = Some v
               ∧ (∀ r, early r → w_match_id r = m →
                       ∃ x, w_stats r !! j = Some x ∧ x ≤ v)
               ∧ (∃ r, early r ∧ w_match_id r = m ∧ w_stats r !! j = Some v).
Proof.
  intros Hwf early table m.
  assert (∀ r, r ∈ construct_x_seconds_df players_time_df threshold ↔ early r)
    as Hin.
  { intros r. rewrite x_seconds_df_Permutation, list_elem_of_filter.
    unfold early. tauto. }
  assert (Forall (λ r, length (w_stats r) = n)
            (construct_x_seconds_df players_time_df threshold)) as Hwf'.
  { apply Forall_forall. intros r [Hr _]%Hin.
    rewrite Forall_forall in Hwf. by apply Hwf. }
  split.
  - split.
    + intros [row Hrow].
      assert (m ∈ table.*1) as Hm.
      { apply list_elem_of_fmap. by exists (m, row). }
      unfold table in Hm. rewrite max_wealth_index, elem_of_sorted_keys in Hm.
      apply list_elem_of_fmap in Hm as (r & -> & Hr). exists r.
      split; [by apply Hin|done].
    + intros (r & Hr & <-).
      assert (w_match_id r ∈ table.*1) as Hm.
      { unfold table. rewrite max_wealth_index, elem_of_sorted_keys.
        apply list_elem_of_fmap. exists r. split; [done|by apply Hin]. }
      apply list_elem_of_fmap in Hm as ([k row] & Hk & Hrow). simpl in Hk.
      subst k. by exists row.
  - intros row Hrow j Hj.
    destruct (max_wealth_rows _ n m row Hwf' Hrow) as [_ Hmax].
    destruct (Hmax j Hj) as (v & Hv & Hall & (r & Hr & Hm & Hrv)).
    exists v. split_and!; [done| |].
    + intros r' Hr' Hm'. apply Hall; [by apply Hin|done].
    + exists r. split_and!; [by apply Hin|done|done].
Qed.

Lemma max_wealth_maxima_witness :
  (0, [120; 1; 10])
    ∈ construct_x_seconds_max_wealth (construct_x_seconds_df late_peak 600)
  ∧ length [120; 1; 10] = 3%nat.
Proof.
  assert ((0, [120; 1; 10])
            ∈ construct_x_seconds_max_wealth
                (construct_x_seconds_df late_peak 600)) as Hrow
    by (vm_compute; left).
  split; [exact Hrow|].
  apply (max_wealth_maxima (construct_x_seconds_df late_peak 600) 3 0
           [120; 1; 10]); [|exact Hrow].
  vm_compute. repeat constructor.
Defined.

Lemma max_wealth_up_to_threshold_witness :
  (∃ row, (0, row)
          ∈ construct_x_seconds_max_wealth (construct_x_seconds_df late_peak 600))
  ↔ ∃ r, (r ∈ late_peak ∧ w_times r ≤ 600) ∧ w_match_id r = 0.
Proof.
  apply (max_wealth_up_to_threshold late_peak 600 3).
  repeat constructor.
Defined.

(** ** Cutting twice *)

Lemma sorted_keys_unique (ks1 ks2 : list Z) :
  (∀ k, k ∈ ks1 ↔ k ∈ ks2) → sorted_keys ks1 = sorted_keys ks2.
Proof.
  intros Hks. apply (StronglySorted_unique Z.le).
  - apply sorted_keys_ascending.
  - apply sorted_keys_ascending.
  - apply NoDup_Permutation; [apply NoDup_sorted_keys..|].
    intros k. rewrite !elem_of_sorted_keys. apply Hks.
Qed.

Lemma elem_of_keys_filter {A} (key : A → Z) (l : list A) (k : Z) :
  k ∈ key <$> l ↔ filter (λ r, key r = k) l ≠ [].
Proof.
  rewrite list_elem_of_fmap. split.
  - intros (r & -> & Hr) Hnil.
    assert (r ∈ filter (λ r', key r' = key r) l) as Hin
      by by apply list_elem_of_filter.
    rewrite Hnil in Hin. by apply elem_of_nil in Hin.
  - intros Hne. destruct (filter (λ r, key r = k) l) as [|r g] eqn:Hg; [done|].
    assert (r ∈ filter (λ r, key r = k) l) as Hin by (rewrite Hg; left).
    apply list_elem_of_filter in Hin as [Hk Hr]. by exists r.
Qed.

(** The groups in the order of their keys, as one table: it is fixed by
    the rows of every key. *)
Lemma groups_ext {A} (key : A → Z) (l1 l2 : list A) :
  (∀ m, filter (λ r, key r = m) l1 = filter (λ r, key r = m) l2) →
  groupby key l1 = groupby key l2.
Proof.
  intros Heq. unfold groupby.
  rewrite (sorted_keys_unique (key <$> l1) (key <$> l2)).
  - apply list_fmap_ext. intros _ k _. by rewrite Heq.
  - intros k. by rewrite !elem_of_keys_filter, Heq.
Qed.

Lemma mjoin_skip_empty {A} (G : Z → list A) (ks : list Z) :
  mjoin (G <$> filter (λ k, G k ≠ []) ks) = mjoin (G <$> ks).
Proof.
  induction ks as [|k ks IH]; [done|]. rewrite filter_cons.
  destruct (decide (G k ≠ [])) as [Hne|Hnil]; csimpl; rewrite IH; [done|].
  destruct (G k); [done|]. by destruct Hnil.
Qed.

Lemma cut_by_match_sorted (df : list wealth_row) (threshold : Z) :
  cut_by_match df threshold
  = mjoin (snd <$> groupby w_match_id (filter (λ r, w_times r ≤ threshold) df)).
Proof.
  rewrite cut_by_match_groups. unfold groupby. rewrite <- list_fmap_compose.
  set (G := λ k, filter (λ r, w_match_id r = k)
                        (filter (λ r, w_times r ≤ threshold) df)).
  change (mjoin (G <$> sorted_keys (w_match_id <$> df))
          = mjoin (G <$> sorted_keys
                     (w_match_id <$> filter (λ r, w_times r ≤ threshold) df))).
  rewrite <- (mjoin_skip_empty G (sorted_keys (w_match_id <$> df))).
  do 2 f_equal. apply (StronglySorted_unique Z.le).
  - apply StronglySorted_filter, sorted_keys_ascending.
  - apply sorted_keys_ascending.
  - apply NoDup_Permutation.
    + apply NoDup_filter, NoDup_sorted_keys.
    + apply NoDup_sorted_keys.
    + intros k. rewrite list_elem_of_filter, !elem_of_sorted_keys.
      rewrite (elem_of_keys_filter w_match_id
                 (filter (λ r, w_times r ≤ threshold) df)).
      fold (G k). split; [tauto|]. intros Hne. split; [done|].
      apply list_elem_of_fmap. destruct (G k) as [|r g] eqn:HG; [done|].
      assert (r ∈ G k) as Hin by (rewrite HG; left).
      unfold G in Hin. apply list_elem_of_filter in Hin as [Hk Hin].
      apply list_elem_of_filter in Hin as [_ Hin]. by exists r.
Qed.

Lemma cut_by_match_twice (df : list wealth_row) (t1 t2 : Z) :
  t1 ≤ t2 →
  cut_by_match (cut_by_match df t2) t1 = cut_by_match df t1.
Proof.
  intros Ht. rewrite (cut_by_match_sorted _ t1), (cut_by_match_sorted df t1).
  do 2 f_equal. apply groups_ext. intros m.
  rewrite (filter_comm (λ r, w_match_id r = m) (λ r, w_times r ≤ t1)
             (cut_by_match df t2)).
  rewrite cut_by_match_match.
  rewrite (filter_comm (λ r, w_times r ≤ t1) (λ r, w_match_id r = m)).
  f_equal.
  rewrite (list_filter_filter (λ r, w_times r ≤ t1) (λ r, w_times r ≤ t2)).
  apply filter_ext_Forall, Forall_forall. intros r _. lia.
Qed.

Lemma cut_by_match_early (df : list wealth_row) (threshold : Z) :
  Forall (λ r, w_times r ≤ threshold) (cut_by_match df threshold).
Proof.
  apply Forall_forall. intros r Hr.
  rewrite cut_by_match_Permutation in Hr.
  by apply list_elem_of_filter in Hr as [? _].
Qed.

Lemma cut_by_match_all_early (df : list wealth_row) (t1 t2 : Z) :
  t1 ≤ t2 →
  Forall (λ r, w_times r ≤ t1) df →
  cut_by_match df t1 = cut_by_match df t2.
Proof.
  intros Ht Hall. rewrite !cut_by_match_sorted.
  rewrite (filter_all_Forall (λ r, w_times r ≤ t1) df) by done.
  rewrite (filter_all_Forall (λ r, w_times r ≤ t2) df); [done|].
  eapply Forall_impl; [exact Hall|]. simpl. intros r Hr. lia.
Qed.

(** X24: Cutting at a threshold and then at a smaller (or the same) one gives
    the table of the smaller threshold: the cut is idempotent, and an
    earlier cut at 600 seconds loses nothing that a cut at 300 needs. *)
Theorem x_seconds_cut_twice (df : list wealth_row) (t1 t2 : Z) :
  t1 ≤ t2 →
  construct_x_seconds_df (construct_x_seconds_df df t2) t1
  = construct_x_seconds_df df t1.
Proof.
  intros Ht. rewrite (x_seconds_df_cases df t2).
  destruct (decide (Forall (λ r, w_times r ≤ t2) df)) as [|Hlate]; [done|].
  rewrite (x_seconds_df_cases df t1).
  destruct (decide (Forall (λ r, w_times r ≤ t1) df)) as [Hall|_].
  { destruct Hlate. eapply Forall_impl; [exact Hall|]. simpl. intros r Hr. lia. }
  rewrite x_seconds_df_cases.
  destruct (decide (Forall (λ r, w_times r ≤ t1) (cut_by_match df t2)))
    as [Hall|_].
  - rewrite <- (cut_by_match_twice df t1 t2 Ht).
    rewrite (cut_by_match_all_early _ t1 t2 Ht Hall).
    symmetry. apply cut_by_match_twice. lia.
  - by apply cut_by_match_twice.
Qed.

Lemma x_seconds_cut_twice_witness :
  construct_x_seconds_df (construct_x_seconds_df late_peak 600) 30
  = construct_x_seconds_df late_peak 30.
Proof. apply (x_seconds_cut_twice late_peak 30 600). lia. Defined.

(** ** Roles and gold *)

Section RoleGoldFacts.
Context (round : Q → Q) (mean : list Z → Q).
Hypothesis round_monotone : ∀ x y : Q, (x <= y)%Q → (round x <= round y)%Q.

(** With a monotone rounding, the deviation of a player of a match grows
    with the gold. *)
Lemma role_gold_deviation_monotone (game_hero_info_df : list hero_info)
    (long_player_gold_df : list player_gold) (r1 r2 : role_gold) :
  r1 ∈ construct_role_gold_interaction_df round mean game_hero_info_df
         long_player_gold_df →
  r2 ∈ construct_role_gold_interaction_df round mean game_hero_info_df
         long_player_gold_df →
  rg_match_id r1 = rg_match_id r2 →
  rg_max_gold r1 ≤ rg_max_gold r2 →
  (rg_max_gold_diff_from_match_mean r1
   <= rg_max_gold_diff_from_match_mean r2)%Q.
Proof.
  unfold construct_role_gold_interaction_df.
  intros (lg1 & -> & _)%list_elem_of_fmap (lg2 & -> & _)%list_elem_of_fmap.
  simpl. intros -> Hle. apply round_monotone. unfold Qminus.
  apply Qplus_le_l. apply round_monotone. by rewrite <- Zle_Qle.
Qed.

Lemma role_gold_deviation_strict (game_hero_info_df : list hero_info)
    (long_player_gold_df : list player_gold) (r1 r2 : role_gold) :
  r1 ∈ construct_role_gold_interaction_df round mean game_hero_info_df
         long_player_gold_df →
  r2 ∈ construct_role_gold_interaction_df round mean game_hero_info_df
         long_player_gold_df →
  rg_match_id r1 = rg_match_id r2 →
  (rg_max_gold_diff_from_match_mean r1
   < rg_max_gold_diff_from_match_mean r2)%Q →
  rg_max_gold r1 < rg_max_gold r2.
Proof.
  intros Hr1 Hr2 Hm Hlt.
  destruct (decide (rg_max_gold r1 < rg_max_gold r2)) as [|Hge]; [done|].
  exfalso. apply (Qlt_not_le _ _ Hlt).
  apply (role_gold_deviation_monotone game_hero_info_df long_player_gold_df);
    [done|done|done|lia].
Qed.
End RoleGoldFacts.

Lemma round_down_monotone (x y : Q) :
  (x <= y)%Q → (round_down x <= round_down y)%Q.
Proof.
  intros Hle. unfold round_down. rewrite <- Zle_Qle. by apply Qfloor_resp_le.
Qed.

Lemma has_carry_cases (side : bool) (g : list role_gold) :
  has_carry side g ∨ ¬ has_carry side g.
Proof.
  destruct (decide (Exists (λ r, rg_role r = "Carry"
                                 ∧ rg_radiant_player r = side) g)) as [Hex|Hno].
  - left. apply Exists_exists in Hex as (r & Hr & Hrole & Hside). by exists r.
  - right. intros (r & Hr & Hrole & Hside). apply Hno, Exists_exists.
    by exists r.
Qed.

(** A maximum of the deviations of the carries of a side is the deviation
    of one of them. *)
Lemma carry_maximum_row (g : list role_gold) (side : bool) (a : Q) :
  is_maximum a (carry_deviations side g) →
  ∃ ra, ra ∈ g ∧ rg_role ra = "Carry" ∧ rg_radiant_player ra = side
        ∧ a = rg_max_gold_diff_from_match_mean ra
        ∧ ∀ r, r ∈ g → rg_role r = "Carry" → rg_radiant_player r = side →
               (rg_max_gold_diff_from_match_mean r <= a)%Q.
Proof.
  intros [Hin Hmax]. unfold carry_deviations in Hin, Hmax.
  apply list_elem_of_fmap in Hin as (ra & -> & Hra).
  apply list_elem_of_filter in Hra as [[Hside Hrole] Hra].
  exists ra. split_and!; [done..|].
  intros r Hr Hrole' Hside'. rewrite Forall_forall in Hmax.
  apply Hmax, list_elem_of_fmap. exists r. split; [done|].
  by apply list_elem_of_filter.
Qed.

(** The comparison of the carries of a group in which a strictly smaller
    deviation means strictly less gold. *)
Lemma get_carry_comparison_gold (g : list role_gold) :
  (∀ r1 r2, r1 ∈ g → r2 ∈ g →
            (rg_max_gold_diff_from_match_mean r1
             < rg_max_gold_diff_from_match_mean r2)%Q →
            rg_max_gold r1 < rg_max_gold r2) →
  (get_carry_comparison g = 1 →
   has_carry false g
   ∧ ∃ r, r ∈ g ∧ rg_role r = "Carry" ∧ rg_radiant_player r = true
          ∧ ∀ d, d ∈ g → rg_role d = "Carry" → rg_radiant_player d = false →
                 rg_max_gold d < rg_max_gold r)
  ∧ (has_carry true g →
     (∃ d, d ∈ g ∧ rg_role d = "Carry" ∧ rg_radiant_player d = false
           ∧ ∀ r, r ∈ g → rg_role r = "Carry" → rg_radiant_player r = true →
                  rg_max_gold r ≤ rg_max_gold d) →
     get_carry_comparison g = 0).
Proof.
  intros Hstrict.
  assert (get_carry_comparison g = 1 →
          has_carry false g
          ∧ ∃ r, r ∈ g ∧ rg_role r = "Carry" ∧ rg_radiant_player r = true
                 ∧ ∀ d, d ∈ g → rg_role d = "Carry" →
                        rg_radiant_player d = false →
                        rg_max_gold d < rg_max_gold r) as Hone.
  { intros Hc.
    destruct (has_carry_cases true g) as [Hra|Hra]; last first.
    { assert (get_carry_comparison g = -1) as Hu
        by (apply get_carry_comparison_unknown; tauto).
      congruence. }
    destruct (has_carry_cases false g) as [Hdi|Hdi]; last first.
    { assert (get_carry_comparison g = -1) as Hu
        by (apply get_carry_comparison_unknown; tauto).
      congruence. }
    split; [done|].
    destruct (get_carry_comparison_both g Hra Hdi) as (a & b & Ha & Hb & Heq).
    rewrite Heq in Hc. destruct (Qlt_le_dec b a) as [Hlt|]; [|done].
    destruct (carry_maximum_row g true a Ha)
      as (ra & Hra_in & Hra_role & Hra_side & -> & _).
    destruct (carry_maximum_row g false b Hb) as (rb & _ & _ & _ & -> & Hmax).
    exists ra. split_and!; [done..|]. intros d Hd Hrole Hside.
    apply Hstrict; [done..|].
    eapply Qle_lt_trans; [by apply Hmax|done]. }
  split; [done|].
  intros Hra (d & Hd & Hrole & Hside & Hall).
  assert (has_carry false g) as Hdi by by exists d.
  destruct (get_carry_comparison_both g Hra Hdi) as (a & b & _ & _ & Heq).
  destruct (Qlt_le_dec b a) as [_|_]; [|done].
  destruct (Hone Heq) as [_ (r & Hr & Hrrole & Hrside & Hless)].
  specialize (Hless d Hd Hrole Hside).
  specialize (Hall r Hr Hrrole Hrside). lia.
Qed.

(** X25: Within a match the deviations from the mean follow the gold, whatever
    the mean is and however the numbers are rounded, as long as the
    rounding is monotone (as the rounding to [float64] is): more gold
    never gives a smaller deviation, and a strictly smaller deviation
    means strictly less gold.  (Two different amounts of gold may get the
    same deviation.) *)
Theorem role_gold_deviation_order (round : Q → Q) (mean : list Z → Q)
    (game_hero_info_df : list hero_info)
    (long_player_gold_df : list player_gold) (r1 r2 : role_gold) :
  (∀ x y : Q, (x <= y)%Q → (round x <= round y)%Q) →
  r1 ∈ construct_role_gold_interaction_df round mean game_hero_info_df
         long_player_gold_df →
  r2 ∈ construct_role_gold_interaction_df round mean game_hero_info_df
         long_player_gold_df →
  rg_match_id r1 = rg_match_id r2 →
  (rg_max_gold r1 ≤ rg_max_gold r2 →
   (rg_max_gold_diff_from_match_mean r1
    <= rg_max_gold_diff_from_match_mean r2)%Q)
  ∧ ((rg_max_gold_diff_from_match_mean r1
      < rg_max_gold_diff_from_match_mean r2)%Q →
     rg_max_gold r1 < rg_max_gold r2).
Proof.
  intros Hround Hr1 Hr2 Hm. split.
  - by apply (role_gold_deviation_monotone round mean Hround
                game_hero_info_df long_player_gold_df).
  - by apply (role_gold_deviation_strict round mean Hround
                game_hero_info_df long_player_gold_df).
Qed.

(** X26: The comparison of the carries of a match of the table of
    [construct_role_gold_interaction_df] (the per-match step of
    [construct_carry_comparison_df]), for a monotone rounding: when the
    outcome is 1, the match has a Dire carry and a Radiant carry with
    more [max_gold] than every Dire carry; and when the match has a
    Radiant carry and a Dire carry with at least the [max_gold] of every
    Radiant carry, the outcome is 0. *)
Theorem carry_comparison_by_gold (round : Q → Q) (mean : list Z → Q)
    (game_hero_info_df : list hero_info)
    (long_player_gold_df : list player_gold) (m c : Z) :
  let table :=
    construct_role_gold_interaction_df round mean game_hero_info_df
      long_player_gold_df in
  let carry side r :=
    r ∈ table ∧ rg_match_id r = m ∧ rg_role r = "Carry"
    ∧ rg_radiant_player r = side in
  (∀ x y : Q, (x <= y)%Q → (round x <= round y)%Q) →
  (m, c) ∈ carry_status_comparison table →
  (c = 1 →
   (∃ d, carry false d)
   ∧ ∃ r, carry true r ∧ ∀ d, carry false d → rg_max_gold d < rg_max_gold r)
  ∧ ((∃ r, carry true r) →
     (∃ d, carry false d ∧ ∀ r, carry true r → rg_max_gold r ≤ rg_max_gold d) →
     c = 0).
Proof.
  intros table carry Hround Hin. unfold carry_status_comparison in Hin.
  apply list_elem_of_fmap in Hin as ([k g] & Heq & Hg). simpl in Heq.
  injection Heq as -> ->. apply elem_of_groupby in Hg as [_ Hg].
  assert (∀ r, r ∈ g ↔ r ∈ table ∧ rg_match_id r = k) as Hmem.
  { intros r. rewrite Hg, list_elem_of_filter. tauto. }
  destruct (get_carry_comparison_gold g) as [Hone Hzero].
  { intros r1 r2 [Hr1 Hk1]%Hmem [Hr2 Hk2]%Hmem.
    apply (role_gold_deviation_strict round mean Hround
             game_hero_info_df long_player_gold_df); [done|done|congruence]. }
  assert (∀ side r, carry side r
                    ↔ r ∈ g ∧ rg_role r = "Carry" ∧ rg_radiant_player r = side)
    as Hcarry.
  { intros side r. unfold carry. rewrite Hmem. tauto. }
  assert (∀ side, has_carry side g ↔ ∃ r, carry side r) as Hhas.
  { intros side. unfold has_carry. by setoid_rewrite Hcarry. }
  split.
  - intros Hc. destruct (Hone Hc) as [Hd (r & Hr & Hrole & Hside & Hall)].
    split; [by apply Hhas|]. exists r. split; [by apply Hcarry|].
    intros d (Hd' & Hdrole & Hdside)%Hcarry. by apply Hall.
  - intros Hr (d & (Hd & Hrole & Hside)%Hcarry & Hall).
    apply Hzero; [by apply Hhas|]. exists d. split_and!; [done..|].
    intros r Hr' Hrrole Hrside. apply Hall, Hcarry. done.
Qed.

Lemma role_gold_deviation_order_witness :
  (2000 ≤ 3000 → (inject_Z (-500) <= inject_Z 500)%Q)
  ∧ ((inject_Z (-500) < inject_Z 500)%Q → 2000 < 3000).
Proof.
  apply (role_gold_deviation_order round_down mean_down duel_info duel_gold
           (RoleGold 0 6 128 false "Carry" 2000 (inject_Z (-500)))
           (RoleGold 0 1 0 true "Carry" 3000 (inject_Z 500))).
  - apply round_down_monotone.
  - vm_compute. right. left.
  - vm_compute. left.
  - reflexivity.
Defined.

Lemma carry_comparison_by_gold_witness :
  (0, 1) ∈ carry_status_comparison
             (construct_role_gold_interaction_df round_down mean_down
                duel_info duel_gold)
  ∧ ∃ d, d ∈ construct_role_gold_interaction_df round_down mean_down
               duel_info duel_gold
         ∧ rg_match_id d = 0 ∧ rg_role d = "Carry"
         ∧ rg_radiant_player d = false.
Proof.
  assert ((0, 1) ∈ carry_status_comparison
                     (construct_role_gold_interaction_df round_down mean_down
                        duel_info duel_gold))
    as Hrow by (vm_compute; left).
  split; [exact Hrow|].
  apply (proj1 (proj1 (carry_comparison_by_gold round_down mean_down
                         duel_info duel_gold 0 1 round_down_monotone Hrow)
                  eq_refl)).
Defined.

(** ** Interaction terms *)

Lemma elem_of_combinations2 {A} (l : list A) (p : A * A) :
  p ∈ combinations2 l → p.1 ∈ l ∧ p.2 ∈ l.
Proof.
  induction l as [|x l IH]; simpl; [by intros ?%elem_of_nil|].
  rewrite elem_of_app, list_elem_of_fmap. intros [(y & -> & Hy)|Hp].
  - split; [left|by right].
  - destruct (IH Hp). split; by right.
Qed.

Lemma combinations2_fmap {A B} (f : A → B) (l : list A) :
  combinations2 (f <$> l) = prod_map f f <$> combinations2 l.
Proof.
  induction l as [|x l IH]; [done|]. csimpl.
  rewrite fmap_app, IH, <- !list_fmap_compose. done.
Qed.

Lemma length_combinations2 {A} (l : list A) :
  (2 * length (combinations2 l) = length l * (length l - 1))%nat.
Proof.
  induction l as [|x l IH]; [done|]. simpl.
  rewrite length_app, length_fmap. nia.
Qed.

Lemma zip_with_fmap_same {A B C D} (h : B → C → D) (f : A → B) (g : A → C)
    (l : list A) :
  zip_with h (f <$> l) (g <$> l) = (λ x, h (f x) (g x)) <$> l.
Proof. induction l as [|x l IH]; [done|]. csimpl. by rewrite IH. Qed.

Lemma list_find_column (cols : list string) (a : string) :
  a ∈ cols → ∃ i, list_find (λ c, c = a) cols = Some (i, a) ∧ (i < length cols)%nat.
Proof.
  intros Ha. destruct (list_find_elem_of (λ c, c = a) cols a Ha eq_refl)
    as [[i x] Hfind].
  pose proof Hfind as (Hi & -> & _)%list_find_Some.
  exists i. split; [done|]. by eapply lookup_lt_Some.
Qed.

Lemma get_column_partial (cols : list string) (rows0 : list (Z * list Z))
    (done : list (string * string)) (a : string) :
  a ∈ cols →
  Forall (λ r : Z * list Z, length r.2 = length cols) rows0 →
  get_column (partial_frame cols rows0 done) a
  = Some ((λ r : Z * list Z, cell cols r.2 a) <$> rows0).
Proof.
  intros (i & Hfind & Hi)%list_find_column Hwf.
  unfold get_column, partial_frame. simpl.
  rewrite (list_find_app_l _ _ _ i a Hfind). simpl. f_equal.
  rewrite <- list_fmap_compose. apply Forall_fmap_ext.
  eapply Forall_impl; [exact Hwf|]. intros r Hr. simpl in *.
  unfold cell. rewrite Hfind. simpl. by rewrite lookup_app_l by lia.
Qed.

Lemma set_column_partial (cols : list string) (rows0 : list (Z * list Z))
    (done : list (string * string)) (p : string * string) :
  interaction_name p ∉ cols ++ (interaction_name <$> done) →
  set_column (partial_frame cols rows0 done) (interaction_name p)
    ((λ r : Z * list Z, wrap_int64 (cell cols r.2 p.1 * cell cols r.2 p.2))
     <$> rows0)
  = partial_frame cols rows0 (done ++ [p]).
Proof.
  intros Hnew. unfold set_column, partial_frame. simpl.
  assert (list_find (λ c, c = interaction_name p)
            (cols ++ (interaction_name <$> done)) = None) as ->.
  { apply list_find_None, Forall_forall. intros c Hc ->. done. }
  simpl. f_equal.
  - by rewrite fmap_app, app_assoc.
  - rewrite zip_with_fmap_same. apply list_fmap_ext. intros _ r _. simpl.
    by rewrite fmap_app, app_assoc.
Qed.

Lemma interaction_fold (cols : list string) (rows0 : list (Z * list Z))
    (todo done : list (string * string)) :
  Forall (λ r : Z * list Z, length r.2 = length cols) rows0 →
  Forall (λ p, p.1 ∈ cols ∧ p.2 ∈ cols) todo →
  NoDup (cols ++ (interaction_name <$> (done ++ todo))) →
  foldl (λ (acc : option (frame string)) (interaction_term : string * string),
           fr ← acc;
           a ← get_column fr interaction_term.1;
           b ← get_column fr interaction_term.2;
           Some (set_column fr
                   (interaction_term.1 +:+ "-x-" +:+ interaction_term.2)
                   (zip_with (λ x y, wrap_int64 (x * y)) a b)))
        (Some (partial_frame cols rows0 done)) todo
  = Some (partial_frame cols rows0 (done ++ todo)).
Proof.
  intros Hwf. revert done.
  induction todo as [|p todo IH]; intros done Hcols Hnd.
  - by rewrite app_nil_r.
  - apply Forall_cons in Hcols as [[Ha Hb] Hcols]. simpl.
    rewrite (get_column_partial cols rows0 done p.1 Ha Hwf). simpl.
    rewrite (get_column_partial cols rows0 done p.2 Hb Hwf). simpl.
    rewrite zip_with_fmap_same.
    change (p.1 +:+ "-x-" +:+ p.2) with (interaction_name p).
    rewrite (set_column_partial cols rows0 done p).
    + rewrite (cons_middle p done todo), app_assoc in Hnd |- *.
      by apply IH.
    + rewrite cons_middle, app_assoc, fmap_app, app_assoc in Hnd.
      apply NoDup_app in Hnd as [Hnd _].
      rewrite fmap_app in Hnd. simpl in Hnd.
      rewrite app_assoc in Hnd. apply NoDup_app in Hnd as (_ & Hnd & _).
      intros Hin. apply (Hnd _ Hin). left.
Qed.

Lemma cell_zip (cols : list string) (row : list Z) (a : string) (v : Z) :
  NoDup cols → (a, v) ∈ zip cols row → cell cols row a = v.
Proof.
  intros Hnd Hin. apply list_elem_of_lookup in Hin as [i Hi].
  apply lookup_zip_with_Some in Hi as (a' & v' & Heq & Ha & Hv).
  injection Heq as <- <-. unfold cell.
  assert (list_find (λ c, c = a) cols = Some (i, a)) as ->.
  { apply list_find_Some. split_and!; [done..|].
    intros j y Hj Hlt ->. pose proof (NoDup_lookup _ _ _ _ Hnd Hj Ha). lia. }
  simpl. by rewrite Hv.
Qed.

Lemma products_of_row (cols : list string) (row : list Z) :
  NoDup cols → length row = length cols →
  (λ p : string * string, wrap_int64 (cell cols row p.1 * cell cols row p.2))
    <$> combinations2 cols
  = (λ p : Z * Z, wrap_int64 (p.1 * p.2)) <$> combinations2 row.
Proof.
  intros Hnd Hlen.
  assert (combinations2 cols
          = prod_map fst fst <$> combinations2 (zip cols row)) as ->.
  { rewrite <- combinations2_fmap. by rewrite fst_zip by lia. }
  assert (combinations2 row
          = prod_map snd snd <$> combinations2 (zip cols row)) as Hrow.
  { rewrite <- combinations2_fmap. by rewrite snd_zip by lia. }
  rewrite Hrow, <- !list_fmap_compose.
  apply Forall_fmap_ext, Forall_forall.
  intros [[a v] [b w]] [Ha Hb]%elem_of_combinations2. simpl in *.
  by rewrite (cell_zip cols row a v), (cell_zip cols row b w).
Qed.

Lemma wrap_int64_fits (z : Z) : - 2 ^ 63 ≤ z < 2 ^ 63 → wrap_int64 z = z.
Proof. intros Hz. unfold wrap_int64. rewrite Z.mod_small; lia. Qed.

(** X27: When the interaction labels are new and different from one another,
    and every row has one cell per column, [get_interaction_terms] keeps
    the columns and adds one column per pair of columns, in the order of
    the pairs: every row is followed by the products of its cells, pair
    by pair, as [int64] numbers: a product that fits [int64] is exact,
    the others wrap.  A frame of [n] columns comes back with
    [n (n + 1) / 2]. *)
Theorem interaction_terms_products (fr : frame string) :
  let names := interaction_name <$> combinations2 (columns fr) in
  NoDup (columns fr ++ names) →
  Forall (λ r : Z * list Z, length r.2 = length (columns fr)) (rows fr) →
  get_interaction_terms fr
  = Some (Frame (columns fr ++ names)
            ((λ r : Z * list Z,
                (r.1, r.2 ++ ((λ p : Z * Z, wrap_int64 (p.1 * p.2))
                              <$> combinations2 r.2)))
             <$> rows fr))
  ∧ (∀ x y, - 2 ^ 63 ≤ x * y < 2 ^ 63 → wrap_int64 (x * y) = x * y)
  ∧ (2 * length (columns fr ++ names)
     = length (columns fr) * (length (columns fr) + 1))%nat.
Proof.
  intros names Hnd Hwf. split_and!.
  - unfold get_interaction_terms.
    assert (fr = partial_frame (columns fr) (rows fr) []) as Hfr.
    { destruct fr as [cols rws]. unfold partial_frame. simpl.
      rewrite app_nil_r. f_equal. rewrite <- (list_fmap_id rws) at 1.
      apply list_fmap_ext. intros _ [k r] _. simpl. by rewrite app_nil_r. }
    rewrite Hfr at 1.
    rewrite (interaction_fold (columns fr) (rows fr)
               (combinations2 (columns fr)) []); [|done| |done].
    + unfold partial_frame. simpl. do 2 f_equal.
      apply Forall_fmap_ext. eapply Forall_impl; [exact Hwf|].
      intros r Hr. simpl. f_equal. f_equal. apply products_of_row; [|done].
      by apply NoDup_app in Hnd as [? _].
    + apply Forall_forall. intros p. apply elem_of_combinations2.
  - intros x y. apply wrap_int64_fits.
  - unfold names. rewrite length_app, length_fmap.
    pose proof (length_combinations2 (columns fr)). nia.
Qed.

Lemma interaction_terms_products_witness :
  get_interaction_terms small_composition
  = Some (Frame ["Carry_radiant"; "Support_radiant"; "Carry_dire";
                 "Carry_radiant-x-Support_radiant"; "Carry_radiant-x-Carry_dire";
                 "Support_radiant-x-Carry_dire"]
            [(0, [2; 3; 1; 6; 2; 3]);
             (1, [2 ^ 40; 2 ^ 40; 5; 0; 5 * 2 ^ 40; 5 * 2 ^ 40])]).
Proof.
  apply (proj1 (interaction_terms_products small_composition
                  ltac:(apply (bool_decide_unpack _); vm_compute; exact I)
                  ltac:(repeat constructor))).
Defined.

(** ** The index of the heroes *)

Lemma snd_imap {A B C} (f : nat → A → B) (g : A → C) (l : list A) :
  (imap (λ i x, (f i x, g x)) l).*2 = g <$> l.
Proof.
  revert f. induction l as [|x l IH]; intros f; [done|].
  csimpl. f_equal. apply (IH (f ∘ S)).
Qed.

Lemma lookup_foldl_insert_keys (l : list (Z * string)) (m0 : gmap string Z)
    (k : string) (v : Z) :
  NoDup l.*2 →
  foldl (λ (m : gmap string Z) (ih : Z * string), <[ih.2 := ih.1]> m) m0 l
    !! k = Some v
  ↔ (v, k) ∈ l ∨ ((k ∉ l.*2) ∧ m0 !! k = Some v).
Proof.
  revert m0. induction l as [|[v' k'] l IH]; intros m0 Hnd.
  - simpl. split.
    + intros Hk. right. split; [apply not_elem_of_nil|done].
    + intros [Hin%elem_of_nil|[_ Hk]]; done.
  - apply NoDup_cons in Hnd as [Hk' Hnd]. simpl. rewrite (IH _ Hnd).
    rewrite !elem_of_cons. simpl. split.
    + intros [Hin|[Hk Hv]]; [by left; right|].
      destruct (decide (k = k')) as [->|Hne].
      * rewrite lookup_insert_eq in Hv. injection Hv as ->. left. by left.
      * rewrite lookup_insert_ne in Hv by done. right. split; [|done].
        intros [?|?]; done.
    + intros [[Heq|Hin]|[Hk Hv]].
      * injection Heq as -> ->. right. split; [done|].
        by rewrite lookup_insert_eq.
      * by left.
      * right. split; [tauto|]. rewrite lookup_insert_ne; [done|].
        intros ->. apply Hk. by left.
Qed.

Lemma size_foldl_insert_keys (l : list (Z * string)) (m0 : gmap string Z) :
  NoDup l.*2 →
  Forall (λ k, m0 !! k = None) l.*2 →
  size (foldl (λ (m : gmap string Z) (ih : Z * string), <[ih.2 := ih.1]> m)
          m0 l)
  = (size m0 + length l)%nat.
Proof.
  revert m0. induction l as [|[v' k'] l IH]; intros m0 Hnd Hnew.
  - simpl. lia.
  - apply NoDup_cons in Hnd as [Hk' Hnd].
    apply Forall_cons in Hnew as [Hk'new Hnew]. simpl in *.
    rewrite IH; [|done|].
    + rewrite map_size_insert_None by done. lia.
    + rewrite Forall_forall in Hnew |- *. intros k Hk.
      rewrite lookup_insert_ne; [by apply Hnew|]. by intros ->.
Qed.

(** X28: When the keys of the heroes differ from one another, the dictionary
    of [get_hero_index_mapping] sends the key of every hero to the index
    of its row, holds nothing else, and has one entry per row. *)
Theorem hero_index_mapping_round_trip (heros_chart : list string) :
  NoDup (hero_key <$> heros_chart) →
  (∀ (i : nat) name,
     heros_chart !! i = Some name →
     get_hero_index_mapping heros_chart !! hero_key name = Some (Z.of_nat i))
  ∧ (∀ k v,
       get_hero_index_mapping heros_chart !! k = Some v →
       ∃ (i : nat) name,
         heros_chart !! i = Some name ∧ k = hero_key name ∧ v = Z.of_nat i)
  ∧ size (get_hero_index_mapping heros_chart) = length heros_chart.
Proof.
  intros Hnd. unfold get_hero_index_mapping.
  set (index_to_hero :=
         imap (λ i name, (Z.of_nat i, remove_quotes (snake name))) heros_chart).
  assert (index_to_hero.*2 = hero_key <$> heros_chart) as Hkeys
    by apply (snd_imap (λ i _, Z.of_nat i) hero_key).
  assert (NoDup index_to_hero.*2) as Hnd' by by rewrite Hkeys.
  split_and!.
  - intros i name Hi. apply (lookup_foldl_insert_keys _ _ _ _ Hnd'). left.
    apply elem_of_lookup_imap. by exists i, name.
  - intros k v [Hin|[_ Hv]]%(lookup_foldl_insert_keys _ _ _ _ Hnd').
    + apply elem_of_lookup_imap in Hin as (i & name & Heq & Hi).
      injection Heq as -> ->. by exists i, name.
    + by rewrite lookup_empty in Hv.
  - rewrite size_foldl_insert_keys; [|done|].
    + rewrite map_size_empty. unfold index_to_hero. by rewrite length_imap.
    + apply Forall_forall. intros k _. apply lookup_empty.
Qed.

Lemma hero_index_mapping_round_trip_witness :
  get_hero_index_mapping three_names !! "Natures_Prophet" = Some 1.
Proof.
  apply (proj1 (hero_index_mapping_round_trip three_names
                  ltac:(apply (bool_decide_unpack _); vm_compute; exact I))
           1%nat "Nature's Prophet").
  reflexivity.
Defined.

(** ** Gold growth: the first gold column *)

(** X29: The sign filter looks at the first gold column only, and for that
    column it holds what it promises: every row handed to the statistics
    has a value in its first column, a difference that did not fall, less
    100; and less than one row per table row is handed over. *)
Theorem first_gold_growth_bounded (df : list wealth_row) :
  Forall (λ r, gold_columns r ≠ []) df →
  (∀ r : growth_row,
     r ∈ gold_growth_df df → ∃ v, r.1 !! 0%nat = Some (Some v) ∧ -100 ≤ v)
  ∧ (df ≠ [] → (length (gold_growth_df df) < length df)%nat).
Proof.
  intros Hgold. rewrite (gold_growth_df_pairs df Hgold). split.
  - intros r (pc & -> & Hpc)%list_elem_of_fmap.
    apply list_elem_of_filter in Hpc as [Hsign Hpc].
    unfold consecutive_pairs in Hpc. destruct pc as [prev cur].
    pose proof (elem_of_zip_l _ _ _ _ Hpc) as Hprev.
    pose proof (elem_of_zip_r _ _ _ _ Hpc) as Hcur.
    apply list_elem_of_lookup in Hcur as [i Hi].
    rewrite lookup_tail in Hi.
    rewrite Forall_forall in Hgold.
    pose proof (Hgold prev Hprev) as Hp.
    assert (cur ∈ df) as Hcur' by by eapply list_elem_of_lookup_2.
    pose proof (Hgold cur Hcur') as Hc.
    unfold growth_of_pair, first_gold in *. simpl in *.
    destruct (gold_columns prev) as [|p ps], (gold_columns cur) as [|c cs];
      try done.
    simpl in *. exists (c - p - 100). split; [done|lia].
  - intros Hne. rewrite length_fmap. destruct df as [|r0 rs]; [done|].
    unfold consecutive_pairs. change (tail (r0 :: rs)) with rs.
    pose proof (length_filter (λ pc : wealth_row * wealth_row,
                  0 ≤ first_gold pc.2 - first_gold pc.1)
                  (zip (r0 :: rs) rs)) as Hle.
    rewrite length_zip in Hle.
    change (length (r0 :: rs)) with (S (length rs)) in *. lia.
Qed.

Lemma first_gold_growth_bounded_witness :
  ∃ v, ([Some 0; Some (-400)], 0).1 !! 0%nat = Some (Some v) ∧ -100 ≤ v.
Proof.
  apply (proj1 (first_gold_growth_bounded negative_jump
                  ltac:(repeat constructor; done))
           ([Some 0; Some (-400)], 0)).
  vm_compute. left.
Defined.

